(** * CamPorter: the media import front end and its engine contracts

    The development follows the script of the main page component
    (the progress listener of [importSelectedFiles], the thumbnail queue
    [initializeThumbnailGeneration] / [startThumbnailGeneration] /
    [processNextThumbnail] / [generateSingleThumbnail], [getThumbnail] and
    [checkExistingFiles]).  The code of the Rust commands the page invokes
    ([check_files_exist_in_destination], [import_selected_files]) is not
    available here; where a statement is about them, the command is modelled
    from the specification and marked as such. *)

From Stdlib Require Import ZArith NArith Lia Bool Ascii String List.
From Stdlib Require Import Floats.SpecFloat.
From Stdlib Require Import DecimalString DecimalNat.
From stdpp Require Import base tactics option list gmap strings.

Local Open Scope string_scope.
Set Warnings "-clear-no-such-hyp".

(** ** JavaScript values used by the page *)

Module Js.

(** A JS number is an IEEE-754 binary64 value: [spec_float] at precision 53
    and maximal exponent 1024, with the library's round-to-nearest-even
    arithmetic. *)
Definition number := spec_float.
Definition prec : Z := 53.
Definition emax : Z := 1024.

Definition NaN : number := S754_nan.
Definition pos_zero : number := S754_zero false.
Definition neg_zero : number := S754_zero true.

(** The number nearest to an integer, as [parseInt] and integer literals
    produce it; [neg] is the sign given to a zero. *)
Definition of_Z (neg : bool) (z : Z) : number := binary_normalize prec emax z 0 neg.
Definition of_N (n : N) : number := of_Z false (Z.of_N n).

Definition div (x y : number) : number := SFdiv prec emax x y.
Definition mul (x y : number) : number := SFmul prec emax x y.
(** [x > y] *)
Definition gt (x y : number) : bool := SFltb y x.
Definition num_eq (x y : number) : bool := SFeqb x y.

(** Strings are sequences of code units; an [ascii] stands for a code unit
    below 256. *)

(** [s.startsWith(p)] *)
Definition startsWith (s p : string) : bool := String.prefix p s.

(** [s.split(c)] for a one-character separator: the pieces between the
    occurrences of [c]; a string without [c] (the empty one too) is the only
    piece. *)
Fixpoint split (c : ascii) (s : string) : list string :=
  match s with
  | EmptyString => [EmptyString]
  | String a s' =>
      if Ascii.eqb a c then EmptyString :: split c s'
      else match split c s' with
           | piece :: rest => String a piece :: rest
           | [] => [String a EmptyString]
           end
  end.

(** White space that [parseInt] skips, among the code units below 256: TAB,
    LF, VT, FF, CR, SP and NBSP. *)
Definition isWhiteSpace (c : ascii) : bool :=
  let n := N_of_ascii c in
  ((9 <=? n) && (n <=? 13) || (n =? 32) || (n =? 160))%N.

Fixpoint trimStart (s : string) : string :=
  match s with
  | String c s' => if isWhiteSpace c then trimStart s' else s
  | EmptyString => EmptyString
  end.

(** The value of a code unit as a digit: [0-9], then [a-z] or [A-Z] for
    10 to 35. *)
Definition digitValue (c : ascii) : option N :=
  let n := N_of_ascii c in
  if ((48 <=? n) && (n <=? 57))%N then Some (n - 48)%N
  else if ((97 <=? n) && (n <=? 122))%N then Some (n - 87)%N
  else if ((65 <=? n) && (n <=? 90))%N then Some (n - 55)%N
  else None.

Definition radixDigit (R : N) (c : ascii) : option N :=
  match digitValue c with
  | Some d => if (d <? R)%N then Some d else None
  | None => None
  end.

(** The digits of the longest prefix of [s] made of radix-[R] digits. *)
Fixpoint leadingDigits (R : N) (s : string) : list N :=
  match s with
  | String c s' =>
      match radixDigit R c with
      | Some d => d :: leadingDigits R s'
      | None => []
      end
  | EmptyString => []
  end.

Definition digitsValue (R : N) (ds : list N) : N :=
  fold_left (fun acc d => (acc * R + d)%N) ds 0%N.

(** The sign [parseInt] reads: [-] or [+], at most one. *)
Definition readSign (s : string) : bool * string :=
  match s with
  | String c r =>
      if Ascii.eqb c "-" then (true, r)
      else if Ascii.eqb c "+" then (false, r)
      else (false, s)
  | EmptyString => (false, s)
  end.

(** Radix 16 after [0x] or [0X], else radix 10. *)
Definition readRadix (s : string) : N * string :=
  match s with
  | String c (String x r) =>
      if Ascii.eqb c "0" && (Ascii.eqb x "x" || Ascii.eqb x "X") then (16%N, r)
      else (10%N, s)
  | _ => (10%N, s)
  end.

(** [parseInt(s)] without a radix argument: skip white space, read a sign,
    switch to radix 16 after [0x] or [0X], read the digits; no digit gives
    NaN, and a value of zero keeps the sign.  The result is the number
    nearest to the exact value of the digits (the language lets an engine
    read the decimal digits after the twentieth as zeros; byte and file
    counts have no more than twenty). *)
Definition parseInt (s : string) : number :=
  let '(neg, S2) := readSign (trimStart s) in
  let '(R, S3) := readRadix S2 in
  match leadingDigits R S3 with
  | [] => NaN
  | ds =>
      let v := Z.of_N (digitsValue R ds) in
      of_Z neg (if neg then (- v)%Z else v)
  end.

(** [s.includes(c)] for a one-character [c]. *)
Fixpoint includes (s : string) (c : ascii) : bool :=
  match s with
  | String a s' => Ascii.eqb a c || includes s' c
  | EmptyString => false
  end.

End Js.

(** ** The progress listener of [importSelectedFiles] *)

Module Progress.

(** What the listener and the end of the import write: the status line
    [progress] and the bar value [progressPercent]. *)
Record view := View {
  progress : string;
  progressPercent : Js.number
}.

Definition hundred : Js.number := Js.of_N 100.

(** The callback given to [listen('import-progress', ...)], applied to the
    payload [message]. *)
Definition importProgressListener (message : string) (v : view) : view :=
  if Js.startsWith message "PROGRESS_BYTES:" then
    match Js.split ":" message with
    | [_; p1; p2] =>
        let copied := Js.parseInt p1 in
        let total := Js.parseInt p2 in
        View (progress v)
             (if Js.gt total Js.pos_zero
              then Js.mul (Js.div copied total) hundred
              else Js.pos_zero)
    | _ => v
    end
  else if Js.startsWith message "PROGRESS:" then
    match Js.split ":" message with
    | [_; p1; p2] =>
        View (progress v)
             (Js.mul (Js.div (Js.parseInt p1) (Js.parseInt p2)) hundred)
    | _ => v
    end
  else View message (progressPercent v).

(** The two structured forms as the channel documents them: the tag, then
    two numerals separated by colons.  A numeral is a non-empty string of
    decimal digits. *)
Definition isDecimalDigit (c : ascii) : bool :=
  let n := N_of_ascii c in ((48 <=? n) && (n <=? 57))%N.

Fixpoint allDecimalDigits (s : string) : bool :=
  match s with
  | String c s' => isDecimalDigit c && allDecimalDigits s'
  | EmptyString => true
  end.

Definition isNumeral (s : string) : bool :=
  match s with
  | EmptyString => false
  | _ => allDecimalDigits s
  end.

(** The natural number a numeral denotes. *)
Fixpoint decimalValue (acc : N) (s : string) : N :=
  match s with
  | String c s' => decimalValue (acc * 10 + (N_of_ascii c - 48))%N s'
  | EmptyString => acc
  end.

(** [importSelectedFiles] after [await invoke('import_selected_files', ...)]:
    the status line of a finished import, or of a failed one ([failure] is
    what the command was rejected with). *)
Definition importSelectedFiles_end (failure : option string) (v : view) : view :=
  match failure with
  | None => View "Import completed successfully" (progressPercent v)
  | Some err => View ("Import failed: " +:+ err) (progressPercent v)
  end.

Definition bytesMessage (m : string) : Prop :=
  exists a b, isNumeral a = true /\ isNumeral b = true /\
              m = "PROGRESS_BYTES:" +:+ a +:+ ":" +:+ b.

Definition filesMessage (m : string) : Prop :=
  exists a b, isNumeral a = true /\ isNumeral b = true /\
              m = "PROGRESS:" +:+ a +:+ ":" +:+ b.

End Progress.

(** ** The thumbnail queue and cache of the page *)

Module Thumbnails.

(** ['pending' | 'loading' | 'loaded' | 'error'] *)
Inductive loadingState := pending | loading | loaded | error.

Record MediaFile := mkMediaFile {
  name : string;
  path : string;
  size : N;
  modified : Z;
  extension : string;
  is_image : bool;
  is_video : bool
}.

(** How [invoke('get_file_thumbnail', { filePath })] settles. *)
Inductive answer := Resolved (thumbnail : string) | Rejected (err : string).

(** The variables of the page that the thumbnail code reads and writes,
    and two logs kept for the statements below: [invoked], the paths for
    which [get_file_thumbnail] was invoked (latest first), and [console], the
    lines written by [console.error] (latest first).  The two records are
    read as finite maps from paths: the paths are absolute, so none of them
    is a property name that a lookup would find on [Object.prototype]. *)
Record page := Page {
  mediaFiles : list MediaFile;
  thumbnailCache : gmap string string;
  thumbnailLoadingStates : gmap string loadingState;
  thumbnailGenerationQueue : list string;
  isGeneratingThumbnails : bool;
  forceUpdate : nat;
  invoked : list string;
  console : list string
}.

Definition initialPage : page := Page [] ∅ ∅ [] false 0 [] [].

Definition setMediaFiles (fs : list MediaFile) (s : page) : page :=
  Page fs (thumbnailCache s) (thumbnailLoadingStates s) (thumbnailGenerationQueue s)
       (isGeneratingThumbnails s) (forceUpdate s) (invoked s) (console s).
Definition setCache (c : gmap string string) (s : page) : page :=
  Page (mediaFiles s) c (thumbnailLoadingStates s) (thumbnailGenerationQueue s)
       (isGeneratingThumbnails s) (forceUpdate s) (invoked s) (console s).
Definition setStates (m : gmap string loadingState) (s : page) : page :=
  Page (mediaFiles s) (thumbnailCache s) m (thumbnailGenerationQueue s)
       (isGeneratingThumbnails s) (forceUpdate s) (invoked s) (console s).
Definition setQueue (q : list string) (s : page) : page :=
  Page (mediaFiles s) (thumbnailCache s) (thumbnailLoadingStates s) q
       (isGeneratingThumbnails s) (forceUpdate s) (invoked s) (console s).
Definition setGenerating (b : bool) (s : page) : page :=
  Page (mediaFiles s) (thumbnailCache s) (thumbnailLoadingStates s) (thumbnailGenerationQueue s)
       b (forceUpdate s) (invoked s) (console s).
Definition bumpForceUpdate (s : page) : page :=
  Page (mediaFiles s) (thumbnailCache s) (thumbnailLoadingStates s) (thumbnailGenerationQueue s)
       (isGeneratingThumbnails s) (S (forceUpdate s)) (invoked s) (console s).
Definition logInvoke (p : string) (s : page) : page :=
  Page (mediaFiles s) (thumbnailCache s) (thumbnailLoadingStates s) (thumbnailGenerationQueue s)
       (isGeneratingThumbnails s) (forceUpdate s) (p :: invoked s) (console s).
Definition consoleError (line : string) (s : page) : page :=
  Page (mediaFiles s) (thumbnailCache s) (thumbnailLoadingStates s) (thumbnailGenerationQueue s)
       (isGeneratingThumbnails s) (forceUpdate s) (invoked s) (line :: console s).

(** [thumbnailCache[filePath]] read as a condition or with [|| null]: the
    stored payload when there is one and it is not the empty string. *)
Definition getThumbnailFromCache (s : page) (filePath : string) : option string :=
  match thumbnailCache s !! filePath with
  | Some t => if String.eqb t "" then None else Some t
  | None => None
  end.

(** [thumbnailLoadingStates[filePath] || 'pending'] *)
Definition getThumbnailState (s : page) (filePath : string) : loadingState :=
  default pending (thumbnailLoadingStates s !! filePath).

(** *** The pieces of code between two suspension points *)

(** [initializeThumbnailGeneration], up to its call of
    [startThumbnailGeneration]: the clearing of the previous state and the
    [forEach] over [mediaFiles]. *)
Definition clearThumbnails (s : page) : page :=
  Page (mediaFiles s) ∅ ∅ [] (isGeneratingThumbnails s) 0 (invoked s) (console s).

Definition markPending (s : page) (file : MediaFile) : page :=
  if is_image file || is_video file then
    setQueue (thumbnailGenerationQueue s ++ [path file])
             (setStates (<[path file := pending]> (thumbnailLoadingStates s)) s)
  else s.

Definition resetThumbnails (s : page) : page :=
  fold_left markPending (mediaFiles s) (clearThumbnails s).

(** The paths that the [forEach] queues: those of the images and videos. *)
Definition previewPaths (files : list MediaFile) : list string :=
  map path (filter (fun f => is_image f || is_video f = true) files).

(** [generateSingleThumbnail] up to its [await]: [None] when the cache
    answers and the function returns, else the page once the state is
    ['loading'] and the backend has been invoked. *)
Definition generateSingleThumbnail_begin (filePath : string) (s : page) : option page :=
  match getThumbnailFromCache s filePath with
  | Some _ => None
  | None =>
      Some (logInvoke filePath
             (bumpForceUpdate
               (setStates (<[filePath := loading]> (thumbnailLoadingStates s)) s)))
  end.

(** [generateSingleThumbnail] after its [await]: the [try] branch and the
    [catch] branch. *)
Definition generateSingleThumbnail_end (filePath : string) (a : answer) (s : page) : page :=
  match a with
  | Resolved thumbnail =>
      bumpForceUpdate
        (setStates (<[filePath := loaded]> (thumbnailLoadingStates s))
          (setCache (<[filePath := thumbnail]> (thumbnailCache s)) s))
  | Rejected err =>
      bumpForceUpdate
        (setStates (<[filePath := error]> (thumbnailLoadingStates s))
          (consoleError ("Error loading thumbnail: " +:+ err) s))
  end.

(** [getThumbnail] up to its [await]: the cached payload, or the page once
    the backend has been invoked. *)
Definition getThumbnail_begin (filePath : string) (s : page) : string + page :=
  match getThumbnailFromCache s filePath with
  | Some t => inl t
  | None => inr (logInvoke filePath s)
  end.

(** [getThumbnail] after its [await]: the page and the returned string. *)
Definition getThumbnail_end (filePath : string) (a : answer) (s : page) : page * string :=
  match a with
  | Resolved thumbnail =>
      (setCache (<[filePath := thumbnail]> (thumbnailCache s)) s, thumbnail)
  | Rejected err =>
      (consoleError ("Error loading thumbnail: " +:+ err) s, "")
  end.

(** *** Sequential runs: every [await] is answered before anything else
    happens.  The backend is a function of the number of invocations made so
    far and of the path. *)
Module Sequential.

Definition backend := nat -> string -> answer.

Definition generateSingleThumbnail (be : backend) (filePath : string) (s : page) : page :=
  match generateSingleThumbnail_begin filePath s with
  | None => s
  | Some s1 => generateSingleThumbnail_end filePath (be (length (invoked s)) filePath) s1
  end.

Definition getThumbnail (be : backend) (filePath : string) (s : page) : page * string :=
  match getThumbnail_begin filePath s with
  | inl t => (s, t)
  | inr s1 => getThumbnail_end filePath (be (length (invoked s)) filePath) s1
  end.

(** [processNextThumbnail] and the calls of itself it schedules, over the
    paths [q] left in the queue. *)
Fixpoint processQueue (be : backend) (q : list string) (s : page) : page :=
  match q with
  | [] => setGenerating false s
  | filePath :: q' =>
      processQueue be q' (generateSingleThumbnail be filePath (setQueue q' s))
  end.

Definition processNextThumbnail (be : backend) (s : page) : page :=
  processQueue be (thumbnailGenerationQueue s) s.

Definition startThumbnailGeneration (be : backend) (s : page) : page :=
  if isGeneratingThumbnails s || bool_decide (thumbnailGenerationQueue s = []) then s
  else processNextThumbnail be (setGenerating true s).

Definition initializeThumbnailGeneration (be : backend) (s : page) : page :=
  startThumbnailGeneration be (resetThumbnails s).

(** [loadMediaFiles] once [list_media_files] has answered [files]. *)
Definition loadMediaFiles (be : backend) (files : list MediaFile) (s : page) : page :=
  initializeThumbnailGeneration be (setMediaFiles files s).

(** The entry of [p] shows the answer [a] of the backend: ['loaded'] with
    the payload stored, or ['error'] with nothing stored. *)
Definition settled (a : answer) (s : page) (p : string) : Prop :=
  match a with
  | Resolved t =>
      thumbnailLoadingStates s !! p = Some loaded /\ thumbnailCache s !! p = Some t
  | Rejected _ =>
      thumbnailLoadingStates s !! p = Some error /\ thumbnailCache s !! p = None
  end.

(** Thumbnail operations other than a new scan. *)
Inductive operation := Generate (filePath : string) | Get (filePath : string).

Definition perform (be : backend) (s : page) (o : operation) : page :=
  match o with
  | Generate p => generateSingleThumbnail be p s
  | Get p => fst (getThumbnail be p s)
  end.

End Sequential.

(** *** Interleaved runs: a suspended function waits in [waiting] until its
    event arrives; the code between two suspension points runs at once. *)
Module Interleaved.

(** [GenWait p]: [generateSingleThumbnail(p)] at its [await], and
    [processNextThumbnail] waiting for it.  [TimerWait]:
    [processNextThumbnail] between the return of [generateSingleThumbnail] and
    the call scheduled by [setTimeout].  [GetWait p]: [getThumbnail(p)] at its
    [await]. *)
Inductive task := GenWait (filePath : string) | TimerWait | GetWait (filePath : string).

#[global] Instance task_eq_dec : EqDecision task.
Proof. solve_decision. Defined.

Inductive event :=
  | MediaLoaded (files : list MediaFile)
  | TimerFired
  | ThumbnailAnswer (filePath : string) (a : answer)
  | Request (filePath : string)
  | RequestAnswer (filePath : string) (a : answer).

(** [delivered]: what the calls of [getThumbnail] returned, latest first. *)
Record runtime := Runtime {
  ui : page;
  waiting : list task;
  delivered : list (string * string)
}.

Definition initialRuntime : runtime := Runtime initialPage [] [].

(** Remove one occurrence of a waiting task. *)
Fixpoint take (t : task) (l : list task) : option (list task) :=
  match l with
  | [] => None
  | x :: l' => if decide (x = t) then Some l'
               else match take t l' with
                    | Some r => Some (x :: r)
                    | None => None
                    end
  end.

Definition processNextThumbnail (r : runtime) : runtime :=
  match thumbnailGenerationQueue (ui r) with
  | [] => Runtime (setGenerating false (ui r)) (waiting r) (delivered r)
  | filePath :: q' =>
      match generateSingleThumbnail_begin filePath (setQueue q' (ui r)) with
      | None => Runtime (setQueue q' (ui r)) (TimerWait :: waiting r) (delivered r)
      | Some s1 => Runtime s1 (GenWait filePath :: waiting r) (delivered r)
      end
  end.

Definition startThumbnailGeneration (r : runtime) : runtime :=
  if isGeneratingThumbnails (ui r) || bool_decide (thumbnailGenerationQueue (ui r) = []) then r
  else processNextThumbnail (Runtime (setGenerating true (ui r)) (waiting r) (delivered r)).

Definition initializeThumbnailGeneration (r : runtime) : runtime :=
  startThumbnailGeneration (Runtime (resetThumbnails (ui r)) (waiting r) (delivered r)).

Definition step (e : event) (r : runtime) : option runtime :=
  match e with
  | MediaLoaded files =>
      Some (initializeThumbnailGeneration
              (Runtime (setMediaFiles files (ui r)) (waiting r) (delivered r)))
  | TimerFired =>
      w ← take TimerWait (waiting r);
      Some (processNextThumbnail (Runtime (ui r) w (delivered r)))
  | ThumbnailAnswer p a =>
      w ← take (GenWait p) (waiting r);
      Some (Runtime (generateSingleThumbnail_end p a (ui r)) (TimerWait :: w) (delivered r))
  | Request p =>
      match getThumbnail_begin p (ui r) with
      | inl t => Some (Runtime (ui r) (waiting r) ((p, t) :: delivered r))
      | inr s1 => Some (Runtime s1 (GetWait p :: waiting r) (delivered r))
      end
  | RequestAnswer p a =>
      w ← take (GetWait p) (waiting r);
      let '(s1, ret) := getThumbnail_end p a (ui r) in
      Some (Runtime s1 w ((p, ret) :: delivered r))
  end.

Fixpoint run (es : list event) (r : runtime) : option runtime :=
  match es with
  | [] => Some r
  | e :: es' => r' ← step e r; run es' r'
  end.

Definition reachable (r : runtime) : Prop := exists es, run es initialRuntime = Some r.

Definition isReset (e : event) : bool :=
  match e with MediaLoaded _ => true | _ => false end.

(** The tasks of the queue, as opposed to those of [getThumbnail]. *)
Definition isQueueTask (t : task) : bool :=
  match t with GenWait _ | TimerWait => true | GetWait _ => false end.

Fixpoint queueTaskCount (l : list task) : nat :=
  match l with
  | [] => 0
  | t :: l' => (if isQueueTask t then 1 else 0) + queueTaskCount l'
  end.

(** What holds of every runtime that can be reached: the queue has one task
    waiting while [isGeneratingThumbnails] is set and none otherwise, and the
    entry of a path whose generation is in flight for the queue is neither
    ['loaded'] nor ['error']. *)
Definition wellFormed (r : runtime) : Prop :=
  queueTaskCount (waiting r) = (if isGeneratingThumbnails (ui r) then 1 else 0) /\
  forall p, GenWait p ∈ waiting r ->
    thumbnailLoadingStates (ui r) !! p <> Some loaded /\
    thumbnailLoadingStates (ui r) !! p <> Some error.

(** The generations in flight: for the queue, and for [getThumbnail]. *)
Definition queueGenerations (r : runtime) : list string :=
  omap (fun t => match t with GenWait p => Some p | _ => None end) (waiting r).
Definition inFlight (r : runtime) : list string :=
  omap (fun t => match t with GenWait p | GetWait p => Some p | TimerWait => None end) (waiting r).

End Interleaved.

End Thumbnails.

(** ** Marking the files that already exist: [checkExistingFiles] *)

Module Duplicates.
Import Thumbnails.

(** The loop over [results]: [existingFiles.add(mediaFiles[i].path)] where
    [results[i] === true]; [None] when [mediaFiles[i]] is undefined there and
    the read of [.path] throws. *)
Fixpoint addExisting (mediaFiles : list MediaFile) (results : list bool) (i : nat)
    (existingFiles : gset string) : option (gset string) :=
  match results with
  | [] => Some existingFiles
  | true :: rest =>
      match mediaFiles !! i with
      | Some f => addExisting mediaFiles rest (S i) ({[path f]} ∪ existingFiles)
      | None => None
      end
  | false :: rest => addExisting mediaFiles rest (S i) existingFiles
  end.

(** [checkExistingFiles] after its [await]: [response] is the array the
    command answered, or [None] for an answer that is not an array.  The set
    is cleared first. *)
Definition checkExistingFiles_end (mediaFiles : list MediaFile)
    (response : option (list bool)) : option (gset string) :=
  addExisting mediaFiles (default [] response) 0 ∅.

End Duplicates.

(** ** The engine commands behind the page

    The commands [check_files_exist_in_destination] and
    [import_selected_files] are invoked by the page but their code is not
    among the sources; this module follows the specification. *)

Module Engine.

(** Modelled from the spec: an entry of the destination directory (the
    directory code is missing from the sources).  A directory is given by
    its top-level entries, by name; what lies below a sub-directory is not
    part of it. *)
Record entry := Entry {
  entry_size : N;
  entry_content : string
}.

(** Modelled from the spec: the name of a source path, its last component
    (the path handling of the missing commands). *)
Definition file_name (path : string) : string := List.last (Js.split "/" path) "".

(** Modelled from the spec: a candidate of the duplicate check, "source
    path + size". *)
Record candidate := Candidate {
  source_path : string;
  source_size : N
}.

(** Modelled from the spec: [check_existing] (the missing command
    [check_files_exist_in_destination]): per candidate, in order, whether
    the top level of the destination has an entry with exactly the
    candidate's name and exactly its size. *)
Definition check_existing (candidates : list candidate)
    (destination_dir : gmap string entry) : list bool :=
  map (fun c =>
         match destination_dir !! file_name (source_path c) with
         | Some e => N.eqb (entry_size e) (source_size c)
         | None => false
         end) candidates.

(** Modelled from the spec: the candidate that stands for a scanned file,
    its path with the size the scan recorded (the page sends the paths, the
    missing command reads the sizes). *)
Definition candidateOf (f : Thumbnails.MediaFile) : candidate :=
  Candidate (Thumbnails.path f) (Thumbnails.size f).

(** Modelled from the spec: the per-file outcomes of a transfer. *)
Inductive outcome := copied | skipped_duplicate | failed (reason : string).

(** Modelled from the spec: what the file system answers when one source
    path is copied: the file read, a failure of this file, or a failure of
    the destination as a whole. *)
Inductive copyIo :=
  | IoOk (f : entry)
  | IoFileError (reason : string)
  | IoDestinationError (reason : string).

(** Modelled from the spec: whether the task as a whole completed. *)
Inductive taskStatus := completed | task_failed (reason : string).

(** Modelled from the spec: the result of a transfer, the ordered outcomes
    and the status of the task, with the destination as the transfer left
    it. *)
Record transferResult := TransferResult {
  outcomes : list outcome;
  status : taskStatus;
  destination : gmap string entry
}.

(** Modelled from the spec: the disambiguated names of [name], with a
    numeric suffix. *)
Definition decimal (k : nat) : string := NilEmpty.string_of_uint (Nat.to_uint k).
Definition disambiguated (name : string) (k : nat) : string := name +:+ "_" +:+ decimal k.

(** Modelled from the spec: the name a colliding file is written under,
    the first disambiguated name that is free in [dir]; one of the first
    [size dir + 1] is. *)
Definition freeName (name : string) (dir : gmap string entry) : option string :=
  List.find (fun n => bool_decide (dir !! n = None))
            (map (disambiguated name) (seq 1 (S (size dir)))).

(** Modelled from the spec: the copy of one file of a transfer ([transfer]
    is the missing command [import_selected_files]).  A same-named entry of
    the same size is a duplicate and is skipped; a same-named entry of another
    size is kept and the file is written under a disambiguated name; a
    failure of the file is recorded; a failure of the destination ends the
    transfer ([inr]). *)
Definition transferFile (io : string -> copyIo) (dir : gmap string entry)
    (source_path : string) : gmap string entry * outcome + string :=
  match io source_path with
  | IoDestinationError reason => inr reason
  | IoFileError reason => inl (dir, failed reason)
  | IoOk f =>
      let name := file_name source_path in
      match dir !! name with
      | None => inl (<[name := f]> dir, copied)
      | Some e =>
          if N.eqb (entry_size e) (entry_size f) then inl (dir, skipped_duplicate)
          else match freeName name dir with
               | Some name' => inl (<[name' := f]> dir, copied)
               | None => inl (dir, failed "no free name")
               end
      end
  end.

(** Modelled from the spec: the loop of [transfer], the files in the given
    order, one at a time; it gives the outcomes so far and the reason of a
    destination failure, if one ended the loop. *)
Fixpoint transferFiles (io : string -> copyIo) (source_paths : list string)
    (dir : gmap string entry) : list outcome * gmap string entry * option string :=
  match source_paths with
  | [] => ([], dir, None)
  | p :: rest =>
      match transferFile io dir p with
      | inr reason => ([], dir, Some reason)
      | inl (dir1, o) =>
          let '(os, dir2, fatal) := transferFiles io rest dir1 in
          (o :: os, dir2, fatal)
      end
  end.

(** Modelled from the spec: the outcome [failed]. *)
Definition isFailed (o : outcome) : bool :=
  match o with failed _ => true | _ => false end.

(** Modelled from the spec: [transfer].  The task fails when the
    destination fails, or when there are files and every one of them
    failed. *)
Definition transfer (io : string -> copyIo) (source_paths : list string)
    (destination_dir : gmap string entry) : transferResult :=
  let '(os, dir, fatal) := transferFiles io source_paths destination_dir in
  TransferResult os
    (match fatal with
     | Some reason => task_failed reason
     | None =>
         if negb (bool_decide (os = [])) && forallb isFailed os
         then task_failed "all files failed" else completed
     end)
    dir.

End Engine.

(** ** More of the page: the selection and the import *)

(** A JS [Set] of strings: its elements in insertion order, each once. *)
Module JsSet.

Definition has (s : list string) (x : string) : bool := bool_decide (x ∈ s).

Definition add (s : list string) (x : string) : list string :=
  if has s x then s else (s ++ [x])%list.

Definition delete (s : list string) (x : string) : list string :=
  filter (fun y => y <> x) s.

(** [new Set(array)] *)
Definition ofArray (l : list string) : list string := fold_left add l [].

End JsSet.

Module Workflow.
Import Thumbnails.

(** Where [importSelectedFiles] is: not running, at [await listen(...)], or
    at [await invoke('import_selected_files', ...)]. *)
Inductive importStage := Idle | AwaitListen | AwaitInvoke.

(** The variables of the page that the selection and the import read and
    write, with [listeners], the number of callbacks registered on
    ['import-progress'], and [imports], the arguments [filePaths] and
    [targetPath] of the invocations of [import_selected_files] (latest
    first). *)
Record page := Page {
  mediaFiles : list MediaFile;
  selectedFiles : list string;
  destination : string;
  shown : Progress.view;
  isImporting : bool;
  stage : importStage;
  listeners : nat;
  imports : list (list string * string)
}.

Definition initialPage : page :=
  Page [] [] "" (Progress.View "" Js.pos_zero) false Idle 0 [].

Definition setSelectedFiles (sel : list string) (s : page) : page :=
  Page (mediaFiles s) sel (destination s) (shown s) (isImporting s) (stage s)
       (listeners s) (imports s).
Definition setFiles (fs : list MediaFile) (s : page) : page :=
  Page fs (selectedFiles s) (destination s) (shown s) (isImporting s) (stage s)
       (listeners s) (imports s).
Definition setShown (v : Progress.view) (s : page) : page :=
  Page (mediaFiles s) (selectedFiles s) (destination s) v (isImporting s) (stage s)
       (listeners s) (imports s).

Definition toggleFileSelection (filePath : string) (s : page) : page :=
  if JsSet.has (selectedFiles s) filePath
  then setSelectedFiles (JsSet.delete (selectedFiles s) filePath) s
  else setSelectedFiles (JsSet.add (selectedFiles s) filePath) s.

Definition selectAllFiles (s : page) : page :=
  setSelectedFiles (JsSet.ofArray (map path (mediaFiles s))) s.

Definition clearSelection (s : page) : page := setSelectedFiles [] s.

(** [loadMediaFiles] after its [await]: the files the scan answered, or
    [None] when it was rejected (the [catch] empties the list and leaves the
    selection). *)
Definition loadMediaFiles_end (answer : option (list MediaFile)) (s : page) : page :=
  match answer with
  | Some files => setSelectedFiles [] (setFiles files s)
  | None => setFiles [] s
  end.

(** [unmountDrive] after [await invoke('unmount_drive', ...)]. *)
Definition unmountDrive_end (failure : option string) (s : page) : page :=
  match failure with
  | None => setSelectedFiles [] (setFiles [] s)
  | Some err =>
      setShown (Progress.View ("Unmount failed: " +:+ err)
                              (Progress.progressPercent (shown s))) s
  end.

(** [importSelectedFiles] up to [await listen(...)]: nothing happens without
    a selection or without a destination. *)
Definition importSelectedFiles_begin (s : page) : page :=
  if bool_decide (length (selectedFiles s) = 0) || String.eqb (destination s) "" then s
  else Page (mediaFiles s) (selectedFiles s) (destination s)
            (Progress.View "" Js.pos_zero) true AwaitListen (listeners s) (imports s).

(** [importSelectedFiles] after [await listen(...)]: the callback is
    registered and the command is invoked with the selection and the
    destination as they are now; a rejected [listen] goes to the [catch] and
    the [finally]. *)
Definition importSelectedFiles_listening (failure : option string) (s : page) : page :=
  match failure with
  | None =>
      Page (mediaFiles s) (selectedFiles s) (destination s) (shown s) (isImporting s)
           AwaitInvoke (S (listeners s)) ((selectedFiles s, destination s) :: imports s)
  | Some err =>
      Page (mediaFiles s) (selectedFiles s) (destination s)
           (Progress.importSelectedFiles_end (Some err) (shown s)) false Idle
           (listeners s) (imports s)
  end.

(** [importSelectedFiles] after [await invoke(...)]: a finished import
    calls [unlisten()], a rejected one does not. *)
Definition importSelectedFiles_end (failure : option string) (s : page) : page :=
  Page (mediaFiles s) (selectedFiles s) (destination s)
       (Progress.importSelectedFiles_end failure (shown s)) false Idle
       (match failure with None => pred (listeners s) | Some _ => listeners s end)
       (imports s).

(** An ['import-progress'] event: every registered callback runs on the
    payload. *)
Definition deliver (message : string) (s : page) : page :=
  setShown (Nat.iter (listeners s) (Progress.importProgressListener message) (shown s)) s.

(** What happens to the page.  A card can be toggled only for a listed
    file, and the import button is disabled while [isImporting]. *)
Inductive event :=
  | MediaLoaded (answer : option (list MediaFile))
  | Toggled (filePath : string)
  | AllSelected
  | SelectionCleared
  | Unmounted (failure : option string)
  | DestinationSet (d : string)
  | ImportClicked
  | ListenAnswered (failure : option string)
  | Message (payload : string)
  | ImportAnswered (failure : option string).

Definition step (e : event) (s : page) : option page :=
  match e with
  | MediaLoaded answer => Some (loadMediaFiles_end answer s)
  | Toggled p =>
      if bool_decide (p ∈ map path (mediaFiles s)) then Some (toggleFileSelection p s)
      else None
  | AllSelected => Some (selectAllFiles s)
  | SelectionCleared => Some (clearSelection s)
  | Unmounted failure => Some (unmountDrive_end failure s)
  | DestinationSet d =>
      Some (Page (mediaFiles s) (selectedFiles s) d (shown s) (isImporting s) (stage s)
                 (listeners s) (imports s))
  | ImportClicked =>
      if isImporting s then None else Some (importSelectedFiles_begin s)
  | ListenAnswered failure =>
      match stage s with
      | AwaitListen => Some (importSelectedFiles_listening failure s)
      | _ => None
      end
  | Message m => Some (deliver m s)
  | ImportAnswered failure =>
      match stage s with
      | AwaitInvoke => Some (importSelectedFiles_end failure s)
      | _ => None
      end
  end.

Fixpoint run (es : list event) (s : page) : option page :=
  match es with
  | [] => Some s
  | e :: es' => s' ← step e s; run es' s'
  end.

Definition isFailedScan (e : event) : bool :=
  match e with MediaLoaded None => true | _ => false end.

Definition isFailedImport (e : event) : bool :=
  match e with ImportAnswered (Some _) => true | _ => false end.

(** A message that the listener shows as the status line. *)
Definition isStatusLine (m : string) : bool :=
  negb (Js.startsWith m "PROGRESS_BYTES:") && negb (Js.startsWith m "PROGRESS:").

(** How often [p] occurs in a list of paths. *)
Definition occurrences (p : string) (l : list string) : nat :=
  length (filter (fun x => x = p) l).

End Workflow.

(** ** Measures of the thumbnail queue *)

Module QueueProgress.
Import Thumbnails Thumbnails.Interleaved.

(** While paths are queued, [isGeneratingThumbnails] is set. *)
Definition flagged (r : runtime) : Prop :=
  thumbnailGenerationQueue (ui r) <> [] -> isGeneratingThumbnails (ui r) = true.

(** The work left to the queue: two events for each queued path, and one or
    two for the path at work. *)
Definition workLeft (r : runtime) : nat :=
  if isGeneratingThumbnails (ui r)
  then 2 * length (thumbnailGenerationQueue (ui r))
       + (if bool_decide (TimerWait ∈ waiting r) then 1 else 2)
  else 0.

End QueueProgress.

(** ** The zoom and pan of the preview: [MediaPreview.svelte] *)

Module Preview.

Definition add (x y : Js.number) : Js.number := SFadd Js.prec Js.emax x y.
Definition sub (x y : Js.number) : Js.number := SFsub Js.prec Js.emax x y.
Definition sqrt (x : Js.number) : Js.number := SFsqrt Js.prec Js.emax x.
Definition neg (x : Js.number) : Js.number := SFopp x.
(** [x < y] and [x <= y] *)
Definition lt (x y : Js.number) : bool := SFltb x y.
Definition le (x y : Js.number) : bool := SFleb x y.

(** [Math.min(x, y)] and [Math.max(x, y)]: NaN when an argument is NaN, and
    [-0] counts as smaller than [+0]. *)
Definition Math_min (x y : Js.number) : Js.number :=
  match x, y with
  | S754_nan, _ | _, S754_nan => S754_nan
  | S754_zero sx, S754_zero sy => S754_zero (sx || sy)
  | _, _ => if lt y x then y else x
  end.

Definition Math_max (x y : Js.number) : Js.number :=
  match x, y with
  | S754_nan, _ | _, S754_nan => S754_nan
  | S754_zero sx, S754_zero sy => S754_zero (sx && sy)
  | _, _ => if lt x y then y else x
  end.

(** The literals [0.1], [0.2], [2] and [5]: the numbers nearest to them. *)
Definition tenth : Js.number := Js.div (Js.of_N 1) (Js.of_N 10).
Definition fifth : Js.number := Js.div (Js.of_N 1) (Js.of_N 5).
Definition two : Js.number := Js.of_N 2.
Definition five : Js.number := Js.of_N 5.

(** The variables of the component that the zoom and pan handlers use. *)
Record view := View {
  zoom : Js.number;
  offsetX : Js.number;
  offsetY : Js.number;
  lastPanX : Js.number;
  lastPanY : Js.number;
  isPanning : bool;
  lastTouchDistance : Js.number;
  lastTouchCenter : Js.number * Js.number
}.

Definition initialView : view :=
  View (Js.of_N 1) Js.pos_zero Js.pos_zero Js.pos_zero Js.pos_zero false Js.pos_zero
       (Js.pos_zero, Js.pos_zero).

(** A touch point: [clientX] and [clientY]. *)
Definition touch : Type := Js.number * Js.number.

(** [Math.max(0.2, Math.min(z, 5))] *)
Definition clamp (z : Js.number) : Js.number := Math_max fifth (Math_min z five).

(** [(offset - c) * (zoom / prevZoom) + c] *)
Definition recenter (offset c zoom' prevZoom : Js.number) : Js.number :=
  add (Js.mul (sub offset c) (Js.div zoom' prevZoom)) c.

(** [Math.sqrt(dx * dx + dy * dy)] for the two touch points. *)
Definition distance (t0 t1 : touch) : Js.number :=
  let dx := sub (fst t0) (fst t1) in
  let dy := sub (snd t0) (snd t1) in
  sqrt (add (Js.mul dx dx) (Js.mul dy dy)).

Definition center (t0 t1 : touch) : Js.number * Js.number :=
  (Js.div (add (fst t0) (fst t1)) two, Js.div (add (snd t0) (snd t1)) two).

(** [handleWheel]; [left] and [top] are those of the bounding rectangle of
    the target. *)
Definition handleWheel (clientX clientY left top deltaY : Js.number) (v : view) : view :=
  let mouseX := sub clientX left in
  let mouseY := sub clientY top in
  let prevZoom := zoom v in
  let delta := if lt deltaY Js.pos_zero then tenth else neg tenth in
  let zoom' := clamp (add (zoom v) delta) in
  View zoom'
       (recenter (offsetX v) mouseX zoom' prevZoom)
       (recenter (offsetY v) mouseY zoom' prevZoom)
       (lastPanX v) (lastPanY v) (isPanning v) (lastTouchDistance v) (lastTouchCenter v).

Definition handleTouchStart (touches : list touch) (v : view) : view :=
  match touches with
  | [t0] =>
      View (zoom v) (offsetX v) (offsetY v) (fst t0) (snd t0) true
           (lastTouchDistance v) (lastTouchCenter v)
  | [t0; t1] =>
      View (zoom v) (offsetX v) (offsetY v) (lastPanX v) (lastPanY v) false
           (distance t0 t1) (center t0 t1)
  | _ => v
  end.

(** The pan by the pointer at [(x, y)]: of [handleTouchMove] with one touch
    and of the [mousemove] handler. *)
Definition pan (x y : Js.number) (v : view) : view :=
  View (zoom v) (add (offsetX v) (sub x (lastPanX v))) (add (offsetY v) (sub y (lastPanY v)))
       x y (isPanning v) (lastTouchDistance v) (lastTouchCenter v).

Definition handleTouchMove (touches : list touch) (v : view) : view :=
  match touches with
  | [t0] => if isPanning v then pan (fst t0) (snd t0) v else v
  | [t0; t1] =>
      let dist := distance t0 t1 in
      let c := center t0 t1 in
      let prevZoom := zoom v in
      let zoom' := clamp (Js.mul (zoom v) (Js.div dist (lastTouchDistance v))) in
      View zoom'
           (recenter (offsetX v) (fst c) zoom' prevZoom)
           (recenter (offsetY v) (snd c) zoom' prevZoom)
           (lastPanX v) (lastPanY v) (isPanning v) dist c
  | _ => v
  end.

Definition setPanning (b : bool) (v : view) : view :=
  View (zoom v) (offsetX v) (offsetY v) (lastPanX v) (lastPanY v) b
       (lastTouchDistance v) (lastTouchCenter v).

Definition handleTouchEnd (touches : list touch) (v : view) : view :=
  match touches with
  | [] => setPanning false v
  | _ => v
  end.

(** The [mousedown] and [mousemove] handlers of the media container. *)
Definition mouseDown (button : Z) (clientX clientY : Js.number) (v : view) : view :=
  if (button =? 0)%Z then
    View (zoom v) (offsetX v) (offsetY v) clientX clientY true
         (lastTouchDistance v) (lastTouchCenter v)
  else v.

Definition mouseMove (clientX clientY : Js.number) (v : view) : view :=
  if isPanning v then pan clientX clientY v else v.

(** The events of the overlay and of the media container that reach these
    handlers. *)
Inductive event :=
  | Wheel (clientX clientY left top deltaY : Js.number)
  | TouchStart (touches : list touch)
  | TouchMove (touches : list touch)
  | TouchEnd (touches : list touch)
  | MouseDown (button : Z) (clientX clientY : Js.number)
  | MouseMove (clientX clientY : Js.number)
  | MouseUp
  | MouseLeave.

Definition step (v : view) (e : event) : view :=
  match e with
  | Wheel x y l t d => handleWheel x y l t d v
  | TouchStart ts => handleTouchStart ts v
  | TouchMove ts => handleTouchMove ts v
  | TouchEnd ts => handleTouchEnd ts v
  | MouseDown b x y => mouseDown b x y v
  | MouseMove x y => mouseMove x y v
  | MouseUp | MouseLeave => setPanning false v
  end.

Definition run (es : list event) (v : view) : view := fold_left step es v.

(** A move of two fingers. *)
Definition isPinch (e : event) : bool :=
  match e with TouchMove [_; _] => true | _ => false end.

(** [0.2 <= z && z <= 5] *)
Definition inRange (z : Js.number) : bool := le fifth z && le z five.

(** A well-formed double: the mantissa has at most 53 bits and stands at
    the exponent that belongs to its length. *)
Definition isDouble (z : Js.number) : bool := valid_binary Js.prec Js.emax z.

End Preview.

(** ** The script that installs FFmpeg *)

Module Installer.

(** How a command run by [execSync] ends, given the commands run before it
    (latest first): with its output, or with the message of the error that
    [execSync] throws. *)
Definition shell : Type := list string -> string -> string + string.

Inductive stream := Out | Err.

(** The commands run so far and the lines written by [console.log] and
    [console.error], latest first. *)
Record world := World {
  commands : list string;
  console : list (stream * string)
}.

(** A piece of the script returns, throws an error with a message, or ends
    the process by [process.exit]. *)
Inductive result (A : Type) :=
  | Ret (a : A)
  | Throw (message : string)
  | Exit (code : nat).
Arguments Ret {A} a.
Arguments Throw {A} message.
Arguments Exit {A} code.

Definition M (A : Type) : Type := world -> result A * world.

#[global] Instance M_ret : MRet M := fun A a w => (Ret a, w).

#[global] Instance M_bind : MBind M := fun A B f m w =>
  match m w with
  | (Ret a, w') => f a w'
  | (Throw e, w') => (Throw e, w')
  | (Exit c, w') => (Exit c, w')
  end.

(** [try { m } catch (error) { handler }]: [process.exit] is not caught. *)
Definition tryCatch {A} (m : M A) (handler : string -> M A) : M A :=
  fun w =>
    match m w with
    | (Throw e, w') => handler e w'
    | r => r
    end.

Definition execSync (sh : shell) (command : string) : M string :=
  fun w =>
    match sh (commands w) command with
    | inl output => (Ret output, World (command :: commands w) (console w))
    | inr message => (Throw message, World (command :: commands w) (console w))
    end.

Definition log (line : string) : M unit :=
  fun w => (Ret tt, World (commands w) ((Out, line) :: console w)).

Definition logError (line : string) : M unit :=
  fun w => (Ret tt, World (commands w) ((Err, line) :: console w)).

Definition exit {A} (code : nat) : M A := fun w => (Exit code, w).

(** [output.split('\n')[0]] *)
Definition firstLine (output : string) : string :=
  hd EmptyString (Js.split "010"%char output).

Definition dq : string := String "034"%char EmptyString.

Definition installChocolatey : string :=
  "powershell -Command " +:+ dq +:+
  "Set-ExecutionPolicy Bypass -Scope Process -Force; [System.Net.ServicePointManager]::SecurityProtocol = [System.Net.ServicePointManager]::SecurityProtocol -bor 3072; iex ((New-Object System.Net.WebClient).DownloadString('https://chocolatey.org/install.ps1'))"
  +:+ dq.

Definition installHomebrew : string :=
  "/bin/bash -c " +:+ dq +:+
  "$(curl -fsSL https://raw.githubusercontent.com/Homebrew/install/HEAD/install.sh)"
  +:+ dq.

(** The first [try]: FFmpeg is there already. *)
Definition checkInstalled (sh : shell) : M unit :=
  tryCatch
    (ffmpegVersion ← execSync sh "ffmpeg -version";
     log "FFmpeg is already installed:";;
     log (firstLine ffmpegVersion);;
     exit 0)
    (fun _ => log "FFmpeg is not installed or not in PATH. Installing...").

(** The nested [try] blocks that set [packageManager]. *)
Definition detectPackageManager (sh : shell) : M string :=
  tryCatch (execSync sh "apt --version" ;; mret "apt")
    (fun _ =>
       tryCatch (execSync sh "dnf --version" ;; mret "dnf")
         (fun _ =>
            tryCatch (execSync sh "yum --version" ;; mret "yum")
              (fun _ =>
                 tryCatch (execSync sh "pacman --version" ;; mret "pacman")
                   (fun _ =>
                      logError
                        "Could not detect package manager. Please install FFmpeg manually.";;
                      exit 1)))).

(** The [switch] over [packageManager]. *)
Definition installWith (sh : shell) (packageManager : string) : M unit :=
  if String.eqb packageManager "apt" then
    execSync sh "sudo apt update && sudo apt install -y ffmpeg" ;; mret tt
  else if String.eqb packageManager "dnf" then
    execSync sh "sudo dnf install -y ffmpeg" ;; mret tt
  else if String.eqb packageManager "yum" then
    execSync sh "sudo yum install -y ffmpeg" ;; mret tt
  else if String.eqb packageManager "pacman" then
    execSync sh "sudo pacman -S --noconfirm ffmpeg" ;; mret tt
  else mret tt.

Definition installOn (sh : shell) (platform : string) : M unit :=
  if String.eqb platform "win32" then
    log "Installing FFmpeg on Windows...";;
    execSync sh installChocolatey;;
    execSync sh "choco install ffmpeg -y";;
    mret tt
  else if String.eqb platform "darwin" then
    log "Installing FFmpeg on macOS...";;
    tryCatch (execSync sh "brew --version" ;; mret tt)
      (fun _ =>
         log "Homebrew not installed. Installing Homebrew...";;
         execSync sh installHomebrew;;
         mret tt);;
    execSync sh "brew install ffmpeg";;
    mret tt
  else if String.eqb platform "linux" then
    log "Installing FFmpeg on Linux...";;
    packageManager ← detectPackageManager sh;
    installWith sh packageManager
  else
    logError ("Unsupported platform: " +:+ platform +:+ ". Please install FFmpeg manually.");;
    exit 1.

(** The whole script. *)
Definition script (sh : shell) (platform : string) : M unit :=
  log ("Detected platform: " +:+ platform);;
  tryCatch
    (checkInstalled sh;;
     installOn sh platform;;
     log "FFmpeg installed successfully!";;
     ffmpegVersion ← execSync sh "ffmpeg -version";
     log "Installed FFmpeg version:";;
     log (firstLine ffmpegVersion))
    (fun message =>
       logError ("Error installing FFmpeg: " +:+ message);;
       exit 1).

(** The exit code of the process and what it has done: a script that runs
    to its end exits with 0, an error that nothing catches with 1. *)
Definition main (sh : shell) (platform : string) : nat * world :=
  match script sh platform (World [] []) with
  | (Ret _, w) => (0, w)
  | (Throw _, w) => (1, w)
  | (Exit code, w) => (code, w)
  end.

(** The package managers in the order in which the script looks for them,
    each with the command that installs with it. *)
Definition installCommands : list (string * string) :=
  [("apt", "sudo apt update && sudo apt install -y ffmpeg");
   ("dnf", "sudo dnf install -y ffmpeg");
   ("yum", "sudo yum install -y ffmpeg");
   ("pacman", "sudo pacman -S --noconfirm ffmpeg")].

(** The command that looks for a package manager, and the commands that
    look for the first [n] of them. *)
Definition probe (packageManager : string) : string := packageManager +:+ " --version".

Definition probes (n : nat) : list string :=
  map (fun pc => probe (fst pc)) (take n installCommands).

(** An example of a machine: dnf is the only package manager, it installs
    FFmpeg, and FFmpeg answers once it is installed. *)
Definition dnfMachine : shell := fun before command =>
  if String.eqb command "ffmpeg -version" then
    if bool_decide ("sudo dnf install -y ffmpeg" ∈ before)
    then inl "ffmpeg version 6.1" else inr "Command failed: ffmpeg -version"
  else if String.eqb command "dnf --version" then inl "4.18"
  else if String.eqb command "sudo dnf install -y ffmpeg" then inl EmptyString
  else inr ("Command failed: " +:+ command).

(** How [command] ends when the commands [before] have been run, in this
    order. *)
Definition succeeds (sh : shell) (before : list string) (command : string) : bool :=
  match sh (rev before) command with inl _ => true | inr _ => false end.

End Installer.

(** ** Answers that arrive after a payload has been stored *)

Module Reuse.
Import Thumbnails Thumbnails.Interleaved.

(** An answer of the backend that leaves the payload [t] stored for the path
    [p] in place: it is for another path, or it is a failure (the [catch]
    branches do not write the cache), or it carries [t] itself. *)
Definition agrees (p t : string) (e : event) : Prop :=
  match e with
  | ThumbnailAnswer q a | RequestAnswer q a =>
      q = p -> a = Resolved t \/ exists err, a = Rejected err
  | _ => True
  end.

End Reuse.

(** * Properties *)

(** ** Strings and numbers *)

Module JsFacts.
Import Js.

Lemma split_nonempty c s : split c s <> [].
Proof.
  destruct s as [|a s]; simpl; [done|].
  destruct (Ascii.eqb a c); [done|]. by destruct (split c s).
Qed.

Lemma split_no_separator c s : includes s c = false -> split c s = [s].
Proof.
  induction s as [|a s IH]; simpl; [done|].
  intros [Ha Hs]%orb_false_elim. by rewrite Ha, (IH Hs).
Qed.

Lemma split_at_separator c s t :
  includes s c = false -> split c (s +:+ String c t) = s :: split c t.
Proof.
  induction s as [|a s IH]; simpl.
  - intros _. by rewrite Ascii.eqb_refl.
  - intros [Ha Hs]%orb_false_elim. by rewrite Ha, (IH Hs).
Qed.

(** A tag and two fields without [c], joined by [c], split into these three. *)
Lemma split_three c tag f1 f2 :
  includes tag c = false -> includes f1 c = false -> includes f2 c = false ->
  split c (tag +:+ String c (f1 +:+ String c f2)) = [tag; f1; f2].
Proof.
  intros Ht H1 H2.
  by rewrite (split_at_separator _ _ _ Ht), (split_at_separator _ _ _ H1),
             (split_no_separator _ _ H2).
Qed.

Lemma startsWith_app p s : startsWith (p +:+ s) p = true.
Proof.
  unfold startsWith. induction p as [|a p IH]; simpl; [by destruct s|].
  by destruct (ascii_dec a a).
Qed.

(** A number equal to zero is not greater than zero. *)
Lemma zero_not_gt x : num_eq x pos_zero = true -> gt x pos_zero = false.
Proof. destruct x as [s|s| |s m e]; try destruct s; done. Qed.

(** *** The number nearest to a positive integer is positive

    The rounding shifts the integer to the right by fewer places than it
    has binary digits, so the mantissa it keeps is not zero. *)

Lemma shr_1_m mrs : (0 <= shr_m mrs)%Z -> shr_m (shr_1 mrs) = Z.div2 (shr_m mrs).
Proof. destruct mrs as [[|[q|q|]|q] r s]; simpl; intros H; try reflexivity; lia. Qed.

Lemma iter_shr_1_m n : forall mrs, (0 <= shr_m mrs)%Z ->
  shr_m (SpecFloat.iter_pos shr_1 n mrs) = Z.shiftr (shr_m mrs) (Zpos n).
Proof.
  induction n as [n IH|n IH|]; intros mrs H; simpl SpecFloat.iter_pos.
  - assert (H1 : (0 <= shr_m (shr_1 mrs))%Z)
      by (rewrite shr_1_m by assumption; apply Z.div2_nonneg; assumption).
    assert (H2 : (0 <= shr_m (SpecFloat.iter_pos shr_1 n (shr_1 mrs)))%Z)
      by (rewrite IH by assumption; apply Z.shiftr_nonneg; assumption).
    rewrite IH, IH, shr_1_m, Z.div2_spec, !Z.shiftr_shiftr by (assumption || lia).
    f_equal. lia.
  - assert (H2 : (0 <= shr_m (SpecFloat.iter_pos shr_1 n mrs))%Z)
      by (rewrite IH by assumption; apply Z.shiftr_nonneg; assumption).
    rewrite IH, IH, !Z.shiftr_shiftr by (assumption || lia). f_equal. lia.
  - rewrite shr_1_m, Z.div2_spec by assumption. reflexivity.
Qed.

Lemma digits2_pos_bound q : (2 ^ (Zpos (digits2_pos q) - 1) <= Zpos q)%Z.
Proof.
  induction q as [q IH|q IH|]; simpl digits2_pos; [| |simpl; lia];
    rewrite Pos2Z.inj_succ;
    replace (Z.succ (Zpos (digits2_pos q)) - 1)%Z
      with (Z.succ (Zpos (digits2_pos q) - 1)) by lia;
    rewrite Z.pow_succ_r by lia; lia.
Qed.

Lemma shiftr_positive q n :
  (0 <= n < Zpos (digits2_pos q))%Z -> (0 < Z.shiftr (Zpos q) n)%Z.
Proof.
  intros Hn. rewrite Z.shiftr_div_pow2 by lia.
  apply Z.div_str_pos. split; [apply Z.pow_pos_nonneg; lia|].
  etransitivity; [|apply digits2_pos_bound]. apply Z.pow_le_mono_r; lia.
Qed.

Lemma shr_fexp_positive q e l :
  (emin prec emax <= e)%Z ->
  (0 < shr_m (fst (shr_fexp prec emax (Zpos q) e l)))%Z /\
  (e <= snd (shr_fexp prec emax (Zpos q) e l))%Z.
Proof.
  intros He. unfold shr_fexp, shr. simpl Zdigits2.
  set (n := (fexp prec emax (Zpos (digits2_pos q) + e) - e)%Z).
  assert (Hn : (n < Zpos (digits2_pos q))%Z) by (unfold n, fexp, prec in *; lia).
  assert (Hm : shr_m (shr_record_of_loc (Zpos q) l) = Zpos q)
    by (destruct l as [|[]]; reflexivity).
  destruct n as [|d|d] eqn:En; simpl fst; simpl snd; rewrite ?Hm; try lia.
  rewrite iter_shr_1_m by (rewrite Hm; lia). rewrite Hm.
  split; [apply shiftr_positive; lia|lia].
Qed.

Lemma round_nearest_even_ge m l : (m <= round_nearest_even m l)%Z.
Proof. destruct l as [|[]]; simpl; try lia. destruct (Z.even m); lia. Qed.

Lemma binary_round_aux_positive q e l :
  (emin prec emax <= e)%Z ->
  SFltb (S754_zero false) (binary_round_aux prec emax false (Zpos q) e l) = true.
Proof.
  intros He. unfold binary_round_aux.
  destruct (shr_fexp_positive q e l He) as [H1 H2].
  destruct (shr_fexp prec emax (Zpos q) e l) as [mrs' e'] eqn:E1. simpl in H1, H2.
  pose proof (round_nearest_even_ge (shr_m mrs') (loc_of_shr_record mrs')) as Hr.
  destruct (round_nearest_even (shr_m mrs') (loc_of_shr_record mrs')) as [|q'|q'] eqn:E2;
    try lia.
  destruct (shr_fexp_positive q' e' loc_Exact ltac:(lia)) as [H3 _].
  destruct (shr_fexp prec emax (Zpos q') e' loc_Exact) as [mrs'' e''] eqn:E3. simpl in H3.
  destruct (shr_m mrs'') as [|m|m]; try lia.
  destruct (Z.leb e'' (emax - prec)); reflexivity.
Qed.

Lemma of_N_positive n : (0 < n)%N -> gt (of_N n) pos_zero = true.
Proof.
  destruct n as [|q]; [lia|]. intros _.
  unfold gt, of_N, of_Z, pos_zero. simpl binary_normalize. unfold binary_round, shl_align.
  set (e' := fexp prec emax (Zpos (digits2_pos q) + 0)).
  assert (He : (emin prec emax <= e')%Z) by (unfold e', fexp; lia).
  destruct (e' - 0)%Z as [|d|d]; apply binary_round_aux_positive; try assumption;
    unfold emin, prec, emax; lia.
Qed.

End JsFacts.

(** ** The progress listener *)

Module ProgressFacts.
Import Progress.

Lemma digit_differs c d :
  isDecimalDigit c = true -> isDecimalDigit d = false -> Ascii.eqb c d = false.
Proof.
  intros Hc Hd. destruct (Ascii.eqb c d) eqn:E; [|done].
  apply Ascii.eqb_eq in E. congruence.
Qed.

Lemma digits_no_colon s : allDecimalDigits s = true -> Js.includes s ":" = false.
Proof.
  induction s as [|c s IH]; simpl; [done|].
  intros [Hc Hs]%andb_prop. by rewrite (digit_differs c ":" Hc), (IH Hs).
Qed.

Lemma numeral_no_colon s : isNumeral s = true -> Js.includes s ":" = false.
Proof. destruct s; [done|]. apply digits_no_colon. Qed.

Lemma digit_not_space c : isDecimalDigit c = true -> Js.isWhiteSpace c = false.
Proof.
  unfold isDecimalDigit, Js.isWhiteSpace.
  intros [H1 H2]%andb_prop. apply N.leb_le in H1. apply N.leb_le in H2.
  repeat (apply orb_false_intro);
    [apply andb_false_intro2; apply N.leb_gt | apply N.eqb_neq | apply N.eqb_neq]; lia.
Qed.

Lemma digit_radixDigit c :
  isDecimalDigit c = true -> Js.radixDigit 10 c = Some (N_of_ascii c - 48)%N.
Proof.
  unfold isDecimalDigit, Js.radixDigit, Js.digitValue. intros H. rewrite H.
  apply andb_prop in H as [H1 H2]. apply N.leb_le in H1. apply N.leb_le in H2.
  destruct (N.ltb_spec (N_of_ascii c - 48) 10); [done|lia].
Qed.

Lemma leadingDigits_numeral s :
  allDecimalDigits s = true ->
  Js.leadingDigits 10 s = map (fun c => (N_of_ascii c - 48)%N) (list_ascii_of_string s).
Proof.
  induction s as [|c s IH]; simpl; [done|].
  intros [Hc Hs]%andb_prop. by rewrite (digit_radixDigit _ Hc), (IH Hs).
Qed.

Lemma decimalValue_fold acc s :
  fold_left (fun a d => (a * 10 + d)%N)
            (map (fun c => (N_of_ascii c - 48)%N) (list_ascii_of_string s)) acc
  = decimalValue acc s.
Proof. revert acc. induction s as [|c s IH]; intros acc; simpl; [done|]. apply IH. Qed.

Lemma readSign_digit c s :
  isDecimalDigit c = true -> Js.readSign (String c s) = (false, String c s).
Proof.
  intros Hc. unfold Js.readSign.
  by rewrite (digit_differs c "-" Hc), (digit_differs c "+" Hc).
Qed.

Lemma readRadix_numeral c s :
  allDecimalDigits (String c s) = true -> Js.readRadix (String c s) = (10%N, String c s).
Proof.
  simpl. intros [Hc Hs]%andb_prop. destruct s as [|x s]; [done|].
  simpl in Hs. apply andb_prop in Hs as [Hx _]. unfold Js.readRadix.
  rewrite (digit_differs x "x" Hx), (digit_differs x "X" Hx) by done.
  by rewrite andb_false_r.
Qed.

(** On a numeral [parseInt] skips nothing, reads no sign and no [0x], and
    reads every digit: the result is the number nearest to its value. *)
Lemma parseInt_numeral s :
  isNumeral s = true -> Js.parseInt s = Js.of_N (decimalValue 0 s).
Proof.
  destruct s as [|c s]; [done|]. intros H. simpl in H.
  pose proof H as [Hc Hs]%andb_prop.
  unfold Js.parseInt. simpl Js.trimStart. rewrite (digit_not_space _ Hc).
  rewrite (readSign_digit _ _ Hc), (readRadix_numeral _ _ H).
  rewrite (leadingDigits_numeral (String c s) H).
  cbn [list_ascii_of_string map]. unfold Js.digitsValue. cbn [fold_left].
  by rewrite decimalValue_fold.
Qed.

(** The shape of a structured message, field by field. *)
Lemma split_structured tag f1 f2 :
  Js.includes tag ":" = false -> Js.includes f1 ":" = false -> Js.includes f2 ":" = false ->
  Js.split ":" (tag +:+ ":" +:+ f1 +:+ ":" +:+ f2) = [tag; f1; f2].
Proof. intros. by apply (JsFacts.split_three ":"). Qed.

Lemma listener_bytes f1 f2 v :
  Js.includes f1 ":" = false -> Js.includes f2 ":" = false ->
  importProgressListener ("PROGRESS_BYTES:" +:+ f1 +:+ ":" +:+ f2) v =
  View (progress v)
       (if Js.gt (Js.parseInt f2) Js.pos_zero
        then Js.mul (Js.div (Js.parseInt f1) (Js.parseInt f2)) hundred
        else Js.pos_zero).
Proof.
  intros H1 H2. unfold importProgressListener.
  rewrite JsFacts.startsWith_app.
  change ("PROGRESS_BYTES:" +:+ f1 +:+ ":" +:+ f2)
    with ("PROGRESS_BYTES" +:+ ":" +:+ f1 +:+ ":" +:+ f2).
  by rewrite (split_structured "PROGRESS_BYTES" f1 f2 eq_refl H1 H2).
Qed.

Lemma listener_files f1 f2 v :
  Js.includes f1 ":" = false -> Js.includes f2 ":" = false ->
  importProgressListener ("PROGRESS:" +:+ f1 +:+ ":" +:+ f2) v =
  View (progress v) (Js.mul (Js.div (Js.parseInt f1) (Js.parseInt f2)) hundred).
Proof.
  intros H1 H2. unfold importProgressListener.
  change (Js.startsWith ("PROGRESS:" +:+ f1 +:+ ":" +:+ f2) "PROGRESS_BYTES:") with false.
  rewrite JsFacts.startsWith_app.
  change ("PROGRESS:" +:+ f1 +:+ ":" +:+ f2)
    with ("PROGRESS" +:+ ":" +:+ f1 +:+ ":" +:+ f2).
  by rewrite (split_structured "PROGRESS" f1 f2 eq_refl H1 H2).
Qed.

(** C10. For a message [PROGRESS_BYTES:<bytesCopied>:<bytesTotal>] (the
    tag and two fields without a colon), the listener sets the percentage to
    0 when the parsed [bytesTotal] equals 0, without dividing, and to
    [(bytesCopied / bytesTotal) * 100], computed on the parsed numbers, when
    the parsed [bytesTotal] is greater than 0.  When the two fields are
    numerals, the parsed numbers are those nearest to the integers the
    numerals denote, and the two cases are [bytesTotal = 0] and
    [bytesTotal > 0] of the integer. *)
Theorem progress_bytes_percentage (f1 f2 : string) (v : view) :
  Js.includes f1 ":" = false -> Js.includes f2 ":" = false ->
  (Js.num_eq (Js.parseInt f2) Js.pos_zero = true ->
     progressPercent (importProgressListener ("PROGRESS_BYTES:" +:+ f1 +:+ ":" +:+ f2) v)
       = Js.pos_zero) /\
  (Js.gt (Js.parseInt f2) Js.pos_zero = true ->
     progressPercent (importProgressListener ("PROGRESS_BYTES:" +:+ f1 +:+ ":" +:+ f2) v)
       = Js.mul (Js.div (Js.parseInt f1) (Js.parseInt f2)) hundred) /\
  (isNumeral f1 = true -> isNumeral f2 = true ->
     progressPercent (importProgressListener ("PROGRESS_BYTES:" +:+ f1 +:+ ":" +:+ f2) v)
       = if (decimalValue 0 f2 =? 0)%N then Js.pos_zero
         else Js.mul (Js.div (Js.of_N (decimalValue 0 f1)) (Js.of_N (decimalValue 0 f2)))
                     hundred).
Proof.
  intros H1 H2. rewrite (listener_bytes f1 f2 v H1 H2). simpl. split_and!.
  - intros Hz. by rewrite (JsFacts.zero_not_gt _ Hz).
  - by intros ->.
  - intros Hn1 Hn2. rewrite (parseInt_numeral f1 Hn1), (parseInt_numeral f2 Hn2).
    destruct (N.eqb_spec (decimalValue 0 f2) 0) as [->|Hpos]; [done|].
    rewrite JsFacts.of_N_positive; [done|lia].
Qed.

(** 512 of 2048 bytes is 25 percent; 512 of 0 bytes is 0 percent. *)
Lemma progress_bytes_percentage_witness :
  progressPercent (importProgressListener "PROGRESS_BYTES:512:2048" (View "" Js.pos_zero))
    = Js.of_N 25 /\
  progressPercent (importProgressListener "PROGRESS_BYTES:512:0" (View "" Js.pos_zero))
    = Js.pos_zero.
Proof.
  split.
  - exact (eq_trans
      (proj1 (proj2 (progress_bytes_percentage "512" "2048" (View "" Js.pos_zero)
                       eq_refl eq_refl)) eq_refl) eq_refl).
  - exact (proj1 (progress_bytes_percentage "512" "0" (View "" Js.pos_zero) eq_refl eq_refl)
             eq_refl).
Defined.

(** C3, as stated, fails: a status line that happens to start with
    [PROGRESS:] is of neither structured form, yet the listener does not show
    it; it leaves the status line as it was. *)
Lemma status_line_counterexample :
  ~ bytesMessage "PROGRESS: copying IMG_0001.jpg" /\
  ~ filesMessage "PROGRESS: copying IMG_0001.jpg" /\
  progress (importProgressListener "PROGRESS: copying IMG_0001.jpg" (View "" Js.pos_zero))
    <> "PROGRESS: copying IMG_0001.jpg" /\
  importProgressListener "PROGRESS: copying IMG_0001.jpg" (View "" Js.pos_zero)
    = View "" Js.pos_zero.
Proof.
  split_and!.
  - intros (a & b & _ & _ & Heq). discriminate Heq.
  - intros (a & b & Ha & _ & Heq). destruct a as [|c a]; [discriminate Ha|].
    simpl in Heq. injection Heq as Hc _. subst c. discriminate Ha.
  - discriminate.
  - reflexivity.
Qed.

(** C3, amended.  The listener goes by the prefix alone.  A message that
    starts with neither [PROGRESS_BYTES:] nor [PROGRESS:] becomes the status
    line and leaves the percentage.  A message that starts with one of them
    never changes the status line, and is ignored altogether unless it
    splits at the colons into exactly three fields.  The two structured
    forms, with numerals [a] and [b], set the percentage from the numbers the
    numerals denote: 0 when [b] is 0 and [(a / b) * 100] otherwise for
    bytes, [(a / b) * 100] without a guard for files.  The listener is a
    total function of the message. *)
Theorem importProgressListener_dispatch (m : string) (v : view) :
  (Js.startsWith m "PROGRESS_BYTES:" = false -> Js.startsWith m "PROGRESS:" = false ->
     importProgressListener m v = View m (progressPercent v)) /\
  (Js.startsWith m "PROGRESS_BYTES:" = true \/ Js.startsWith m "PROGRESS:" = true ->
     progress (importProgressListener m v) = progress v /\
     (length (Js.split ":" m) <> 3 -> importProgressListener m v = v)) /\
  (forall a b, isNumeral a = true -> isNumeral b = true ->
     importProgressListener ("PROGRESS_BYTES:" +:+ a +:+ ":" +:+ b) v =
       View (progress v)
            (if (decimalValue 0 b =? 0)%N then Js.pos_zero
             else Js.mul (Js.div (Js.of_N (decimalValue 0 a)) (Js.of_N (decimalValue 0 b)))
                         hundred) /\
     importProgressListener ("PROGRESS:" +:+ a +:+ ":" +:+ b) v =
       View (progress v)
            (Js.mul (Js.div (Js.of_N (decimalValue 0 a)) (Js.of_N (decimalValue 0 b)))
                    hundred)).
Proof.
  split_and!.
  - intros Hb Hf. unfold importProgressListener. by rewrite Hb, Hf.
  - intros Hpre. unfold importProgressListener.
    destruct (Js.startsWith m "PROGRESS_BYTES:") eqn:Eb;
      [|destruct (Js.startsWith m "PROGRESS:") eqn:Ef; [|by destruct Hpre]];
      destruct (Js.split ":" m) as [|? [|? [|? [|? ?]]]]; simpl; split; done.
  - intros a b Ha Hb.
    rewrite (listener_bytes a b v), (listener_files a b v)
      by by apply numeral_no_colon.
    rewrite (parseInt_numeral a Ha), (parseInt_numeral b Hb). split; [|done].
    destruct (N.eqb_spec (decimalValue 0 b) 0) as [->|Hpos]; [done|].
    rewrite JsFacts.of_N_positive; [done|lia].
Qed.

(** The file-count form divides without a guard: no files at all gives
    NaN, files of none gives Infinity. *)
Example files_progress_unguarded :
  progressPercent (importProgressListener "PROGRESS:0:0" (View "" Js.pos_zero)) = Js.NaN /\
  progressPercent (importProgressListener "PROGRESS:1:0" (View "" Js.pos_zero))
    = S754_infinity false.
Proof. by vm_compute. Qed.

End ProgressFacts.

(** ** The duplicate check *)

Module EngineFacts.
Import Engine.

Lemma check_existing_lookup (candidates : list candidate) (dir : gmap string entry) i :
  check_existing candidates dir !! i =
  (fun c => match dir !! file_name (source_path c) with
            | Some e => N.eqb (entry_size e) (source_size c)
            | None => false
            end) <$> (candidates !! i).
Proof.
  unfold check_existing. revert i.
  induction candidates as [|c cs IH]; intros [|i]; simpl; auto.
Qed.

(** C1. [check_existing] answers one boolean per candidate, in the order of
    the candidates, and the boolean of a candidate is [true] exactly when the
    top level of the destination has an entry under the candidate's name
    whose size is the candidate's size.  An entry of the same name and
    another size does not flag the candidate, and when no entry has the
    candidate's name nothing flags it, whatever the sizes. *)
Theorem check_existing_exact (candidates : list candidate) (dir : gmap string entry) :
  length (check_existing candidates dir) = length candidates /\
  forall i c, candidates !! i = Some c ->
    exists b, check_existing candidates dir !! i = Some b /\
      (b = true <->
       exists e, dir !! file_name (source_path c) = Some e /\
                 entry_size e = source_size c) /\
      (forall e, dir !! file_name (source_path c) = Some e ->
                 entry_size e <> source_size c -> b = false) /\
      (dir !! file_name (source_path c) = None -> b = false).
Proof.
  split.
  - unfold check_existing. apply length_map.
  - intros i c Hc. rewrite check_existing_lookup, Hc. simpl.
    destruct (dir !! file_name (source_path c)) as [e|] eqn:He.
    + exists (N.eqb (entry_size e) (source_size c)). split_and!; [done| | |done].
      * rewrite N.eqb_eq. split.
        -- intros Hs. by exists e.
        -- intros (e' & He' & Hs). by simplify_eq.
      * intros e' [= <-] Hne. by apply N.eqb_neq.
    + exists false. split_and!; [done| |done|done].
      split; [done|]. by intros (e' & He' & _).
Qed.

(** The scenario of the specification: [IMG_0001.jpg] of 2,048,000 bytes
    at the destination. *)
Example check_existing_scenario :
  check_existing [Candidate "/media/card/DCIM/IMG_0001.jpg" 2048000;
                  Candidate "/media/card/DCIM/IMG_0001.jpg" 2047999;
                  Candidate "/media/card/DCIM/IMG_0002.jpg" 2048000]
                 {[ "IMG_0001.jpg" := Entry 2048000 "jpeg data" ]}
  = [true; false; false].
Proof. vm_compute. reflexivity. Qed.

(** *** The marks of the page *)

(** The loop of [checkExistingFiles] over an answer no longer than the list
    of files: it does not throw, and adds the paths of the files at the
    positions where the answer holds [true]. *)
Lemma addExisting_marks (files : list Thumbnails.MediaFile) results i (acc : gset string) :
  i + length results <= length files ->
  exists X, Duplicates.addExisting files results i acc = Some X /\
    forall p, p ∈ X <->
      p ∈ acc \/ exists j f, results !! j = Some true /\ files !! (i + j) = Some f /\
                             Thumbnails.path f = p.
Proof.
  revert i acc. induction results as [|b rest IH]; intros i acc Hlen; simpl in *.
  - exists acc. split; [done|]. intros p. split; [auto|]. by intros [?|(j & f & ? & _)].
  - destruct (lookup_lt_is_Some_2 files i) as [f Hf]; [lia|].
    destruct b.
    + rewrite Hf. destruct (IH (S i) ({[Thumbnails.path f]} ∪ acc)) as (X & -> & HX); [lia|].
      exists X. split; [done|]. intros p. rewrite HX, elem_of_union, elem_of_singleton. split.
      * intros [[->|?]|(j & f' & Hj & Hf' & Hp)]; [|by left|].
        -- right. exists 0, f. by rewrite Nat.add_0_r.
        -- right. exists (S j), f'. by rewrite Nat.add_succ_r.
      * intros [?|(j & f' & Hj & Hf' & Hp)]; [by left; right|].
        destruct j as [|j]; simpl in Hj.
        -- rewrite Nat.add_0_r in Hf'. simplify_eq. by left; left.
        -- right. exists j, f'. by rewrite Nat.add_succ_r in Hf'.
    + destruct (IH (S i) acc) as (X & -> & HX); [lia|].
      exists X. split; [done|]. intros p. rewrite HX. split.
      * intros [?|(j & f' & Hj & Hf' & Hp)]; [by left|].
        right. exists (S j), f'. by rewrite Nat.add_succ_r.
      * intros [?|(j & f' & Hj & Hf' & Hp)]; [by left|].
        destruct j as [|j]; simpl in Hj; [done|].
        right. exists j, f'. by rewrite Nat.add_succ_r in Hf'.
Qed.

(** With the answer of [check_existing] for the scanned files, the page
    marks exactly the paths of the files that have an entry of their name
    and size at the destination. *)
Lemma checkExistingFiles_marks (files : list Thumbnails.MediaFile) (dir : gmap string entry) :
  exists X,
    Duplicates.checkExistingFiles_end files (Some (check_existing (map candidateOf files) dir))
      = Some X /\
    forall p, p ∈ X <->
      exists f e, f ∈ files /\ Thumbnails.path f = p /\
                  dir !! file_name p = Some e /\ entry_size e = Thumbnails.size f.
Proof.
  unfold Duplicates.checkExistingFiles_end. simpl.
  destruct (addExisting_marks files (check_existing (map candidateOf files) dir) 0 ∅)
    as (X & HX & Hmarks).
  { simpl. unfold check_existing. by rewrite !length_map. }
  exists X. split; [done|]. intros p. rewrite Hmarks. split.
  - intros [?%elem_of_empty|(j & f & Hj & Hf & <-)]; [done|]. simpl in Hf.
    rewrite check_existing_lookup in Hj.
    change (map candidateOf files) with (candidateOf <$> files) in Hj.
    rewrite list_lookup_fmap, Hf in Hj. simpl in Hj.
    destruct (dir !! file_name (Thumbnails.path f)) as [e|] eqn:He; [|done].
    injection Hj as Hsz%N.eqb_eq. exists f, e.
    split_and!; [by eapply list_elem_of_lookup_2|done|done|done].
  - intros (f & e & [j Hf]%list_elem_of_lookup_1 & <- & He & Hsz).
    right. exists j, f. split_and!; [|done|done].
    rewrite check_existing_lookup.
    change (map candidateOf files) with (candidateOf <$> files).
    rewrite list_lookup_fmap, Hf. simpl. rewrite He. f_equal. by apply N.eqb_eq.
Qed.

(** *** The transfer *)

Lemma decimal_inj k1 k2 : decimal k1 = decimal k2 -> k1 = k2.
Proof.
  unfold decimal. intros H.
  apply (f_equal NilEmpty.uint_of_string) in H. rewrite !NilEmpty.usu in H.
  injection H as H. apply (f_equal Nat.of_uint) in H.
  by rewrite !Unsigned.of_to in H.
Qed.

Lemma disambiguated_inj name : Inj (=) (=) (disambiguated name).
Proof.
  intros k1 k2 H. unfold disambiguated in H.
  apply String.app_inj in H. apply String.app_inj in H. by apply decimal_inj.
Qed.

(** What [freeName] finds is a disambiguated name absent from the directory. *)
Lemma freeName_fresh name (dir : gmap string entry) name' :
  freeName name dir = Some name' ->
  dir !! name' = None /\ exists k, 1 <= k /\ name' = disambiguated name k.
Proof.
  unfold freeName. intros [Hin Hfree]%find_some. split.
  - by apply bool_decide_eq_true in Hfree.
  - apply in_map_iff in Hin as (k & <- & Hk). apply in_seq in Hk. exists k. split; [lia|done].
Qed.

(** Among [size dir + 1] distinct names one is absent from [dir]. *)
Lemma freeName_total name (dir : gmap string entry) :
  exists name', freeName name dir = Some name'.
Proof.
  destruct (freeName name dir) as [n|] eqn:E; [by exists n|]. exfalso.
  unfold freeName in E.
  set (l := map (disambiguated name) (seq 1 (S (size dir)))) in *.
  assert (Hnd : NoDup l).
  { pose proof (disambiguated_inj name) as Hinj. apply (NoDup_fmap_2 (disambiguated name)), NoDup_seq. }
  assert (Hsub : (list_to_set l : gset string) ⊆ dom dir).
  { intros x Hx. apply elem_of_list_to_set in Hx. apply list_elem_of_In in Hx.
    pose proof (find_none _ _ E x Hx) as Hf. apply bool_decide_eq_false in Hf.
    apply elem_of_dom. by destruct (dir !! x). }
  apply subseteq_size in Hsub.
  rewrite size_list_to_set, size_dom in Hsub by done.
  unfold l in Hsub. rewrite length_map, length_seq in Hsub. lia.
Qed.

(** One file: a destination failure ends the transfer, and nothing else does. *)
Lemma transferFile_fatal io (dir : gmap string entry) p reason :
  transferFile io dir p = inr reason <-> io p = IoDestinationError reason.
Proof.
  unfold transferFile. destruct (io p) as [f|r|r]; [| |naive_solver]; split; try done.
  destruct (dir !! file_name p) as [e|]; [|done].
  destruct (N.eqb _ _); [done|]. by destruct (freeName _ _).
Qed.

(** One file: the outcome follows the answer of the file system. *)
Lemma transferFile_outcome io (dir dir' : gmap string entry) p o :
  transferFile io dir p = inl (dir', o) ->
  (forall r, io p = IoFileError r -> o = failed r) /\
  (forall f, io p = IoOk f -> o = copied \/ o = skipped_duplicate) /\
  (forall r, io p <> IoDestinationError r) /\
  (isFailed o = true -> exists r, io p = IoFileError r).
Proof.
  unfold transferFile. destruct (io p) as [f|r|r]; [| |done].
  - destruct (dir !! file_name p) as [e|].
    + destruct (N.eqb _ _).
      * intros [= <- <-]. naive_solver.
      * destruct (freeName_total (file_name p) dir) as [n' ->].
        intros [= <- <-]. naive_solver.
    + intros [= <- <-]. naive_solver.
  - intros [= <- <-]. naive_solver.
Qed.

(** One file: the entries of the destination stay as they are. *)
Lemma transferFile_keeps io (dir dir' : gmap string entry) p o :
  transferFile io dir p = inl (dir', o) ->
  forall n e, dir !! n = Some e -> dir' !! n = Some e.
Proof.
  unfold transferFile. destruct (io p) as [f|r|r]; [| |done].
  - destruct (dir !! file_name p) as [e0|] eqn:E0.
    + destruct (N.eqb _ _).
      * by intros [= <- <-].
      * destruct (freeName (file_name p) dir) as [n'|] eqn:Ef.
        -- apply freeName_fresh in Ef as [Hfree _].
           intros [= <- <-] n e Hn. rewrite lookup_insert_ne; [done|]. intros Heq. subst n. congruence.
        -- by intros [= <- <-].
    + intros [= <- <-] n e Hn. rewrite lookup_insert_ne; [done|]. intros Heq. subst n. congruence.
  - by intros [= <- <-].
Qed.

Lemma transferFiles_keeps io paths (dir dir' : gmap string entry) os fatal :
  transferFiles io paths dir = (os, dir', fatal) ->
  forall n e, dir !! n = Some e -> dir' !! n = Some e.
Proof.
  revert dir os. induction paths as [|p rest IH]; intros dir os; simpl.
  - by intros [= <- <- <-].
  - destruct (transferFile io dir p) as [[dir1 o]|r] eqn:E1; [|by intros [= <- <- <-]].
    destruct (transferFiles io rest dir1) as [[os2 dir2] fatal2] eqn:E2.
    intros [= <- <- <-] n e Hn. eapply IH; [done|]. by eapply transferFile_keeps.
Qed.

(** The loop: outcome [i] belongs to path [i]; without a destination
    failure every path has its outcome, and a destination failure is the
    failure of the first path left without one. *)
Lemma transferFiles_outcomes io paths (dir dir' : gmap string entry) os fatal :
  transferFiles io paths dir = (os, dir', fatal) ->
  (forall i o, os !! i = Some o ->
     exists p, paths !! i = Some p /\
       (forall r, io p = IoFileError r -> o = failed r) /\
       (forall f, io p = IoOk f -> o = copied \/ o = skipped_duplicate) /\
       (isFailed o = true -> exists r, io p = IoFileError r)) /\
  (fatal = None -> length os = length paths) /\
  (forall reason, fatal = Some reason ->
     exists p, paths !! length os = Some p /\ io p = IoDestinationError reason).
Proof.
  revert dir os. induction paths as [|p rest IH]; intros dir os; simpl.
  - intros [= <- <- <-]. split_and!; [by intros [|?] ?|done|done].
  - destruct (transferFile io dir p) as [[dir1 o]|r] eqn:E1.
    + destruct (transferFiles io rest dir1) as [[os2 dir2] fatal2] eqn:E2.
      intros [= <- <- <-]. destruct (IH _ _ E2) as (IH1 & IH2 & IH3).
      apply transferFile_outcome in E1 as (H1 & H2 & _ & H4).
      split_and!.
      * intros [|i] o'; simpl; [|apply IH1]. intros [= <-]. by exists p.
      * intros Hf. simpl. f_equal. by apply IH2.
      * intros reason Hf. simpl. by apply IH3.
    + intros [= <- <- <-]. apply transferFile_fatal in E1.
      split_and!; [by intros [|?] ?|done|]. intros reason [= <-]. by exists p.
Qed.

Lemma transfer_unfold io paths (dir : gmap string entry) :
  exists os dir' fatal,
    transferFiles io paths dir = (os, dir', fatal) /\
    outcomes (transfer io paths dir) = os /\
    destination (transfer io paths dir) = dir' /\
    status (transfer io paths dir) =
      match fatal with
      | Some reason => task_failed reason
      | None => if negb (bool_decide (os = [])) && forallb isFailed os
                then task_failed "all files failed" else completed
      end.
Proof.
  unfold transfer. destruct (transferFiles io paths dir) as [[os dir'] fatal].
  by exists os, dir', fatal.
Qed.

(** C2. A transfer records [failed reason] for a file whose copy fails and
    goes on with the next file: as long as the destination itself does not
    fail, every source path has its outcome, at its own position, [failed]
    with the reason for a failing file and [copied] or [skipped_duplicate]
    for the others.  The task as a whole fails only on a failure of the
    destination or when there are files and each of them failed.  With three
    files of which the second fails, the outcomes are copied, failed,
    copied. *)
Theorem transfer_continues_after_failure io paths (dir : gmap string entry) :
  ((forall p, p ∈ paths -> forall r, io p <> IoDestinationError r) ->
     length (outcomes (transfer io paths dir)) = length paths /\
     forall i p, paths !! i = Some p ->
       (forall r, io p = IoFileError r ->
          outcomes (transfer io paths dir) !! i = Some (failed r)) /\
       (forall f, io p = IoOk f ->
          outcomes (transfer io paths dir) !! i = Some copied \/
          outcomes (transfer io paths dir) !! i = Some skipped_duplicate)) /\
  (forall reason, status (transfer io paths dir) = task_failed reason ->
     (exists p, p ∈ paths /\ io p = IoDestinationError reason) \/
     (paths <> [] /\ forall p, p ∈ paths -> exists r, io p = IoFileError r)) /\
  (forall p1 p2 p3 f1 f3 r,
     paths = [p1; p2; p3] ->
     io p1 = IoOk f1 -> io p2 = IoFileError r -> io p3 = IoOk f3 ->
     dir !! file_name p1 = None -> dir !! file_name p3 = None ->
     file_name p1 <> file_name p3 ->
     outcomes (transfer io paths dir) = [copied; failed r; copied] /\
     status (transfer io paths dir) = completed).
Proof.
  destruct (transfer_unfold io paths dir) as (os & dir' & fatal & Hrun & -> & _ & ->).
  destruct (transferFiles_outcomes _ _ _ _ _ _ Hrun) as (Hout & Hlen & Hfatal).
  split_and!.
  - intros Hnofatal.
    assert (fatal = None) as ->.
    { destruct fatal as [reason|]; [|done]. destruct (Hfatal reason eq_refl) as (p & Hp & Hio).
      destruct (Hnofatal p (list_elem_of_lookup_2 _ _ _ Hp) reason Hio). }
    specialize (Hlen eq_refl). split; [done|].
    intros i p Hp.
    destruct (lookup_lt_is_Some_2 os i) as [o Ho].
    { rewrite Hlen. by eapply lookup_lt_Some. }
    destruct (Hout i o Ho) as (p' & Hp' & Hfail & Hok & _). simplify_eq.
    split.
    + intros r Hr. by rewrite (Hfail r Hr) in Ho.
    + intros f Hf. destruct (Hok f Hf) as [-> | ->]; auto.
  - intros reason Hst. destruct fatal as [reason'|].
    + injection Hst as <-. destruct (Hfatal reason' eq_refl) as (p & Hp & Hio).
      left. exists p. split; [by eapply list_elem_of_lookup_2|done].
    + right. specialize (Hlen eq_refl).
      destruct (negb (bool_decide (os = [])) && forallb isFailed os) eqn:E; [|done].
      apply andb_prop in E as [Hne Hall]. apply negb_true_iff, bool_decide_eq_false in Hne.
      split. { intros ->. by destruct os. }
      intros p [i Hi]%list_elem_of_lookup_1.
      destruct (lookup_lt_is_Some_2 os i) as [o Ho].
      { rewrite Hlen. by eapply lookup_lt_Some. }
      destruct (Hout i o Ho) as (p' & Hp' & _ & _ & Hf). simplify_eq.
      apply Hf. rewrite forallb_forall in Hall. apply Hall.
      apply list_elem_of_In. by eapply list_elem_of_lookup_2.
  - intros p1 p2 p3 f1 f3 r -> H1 H2 H3 Hn1 Hn3 Hne.
    revert Hrun. simpl. unfold transferFile.
    rewrite H1, Hn1, H2, H3, lookup_insert_ne, Hn3 by done.
    by intros [= <- <- <-].
Qed.

(** The scenario of C2 on a card with three pictures, the second of which
    cannot be read. *)
Lemma transfer_scenario_witness :
  outcomes (transfer (fun p => if String.eqb p "/card/b.jpg"
                               then IoFileError "permission denied" else IoOk (Entry 3 p))
                     ["/card/a.jpg"; "/card/b.jpg"; "/card/c.jpg"] ∅)
    = [copied; failed "permission denied"; copied] /\
  status (transfer (fun p => if String.eqb p "/card/b.jpg"
                             then IoFileError "permission denied" else IoOk (Entry 3 p))
                   ["/card/a.jpg"; "/card/b.jpg"; "/card/c.jpg"] ∅) = completed.
Proof.
  apply (proj2 (proj2 (transfer_continues_after_failure
           (fun p => if String.eqb p "/card/b.jpg"
                     then IoFileError "permission denied" else IoOk (Entry 3 p))
           ["/card/a.jpg"; "/card/b.jpg"; "/card/c.jpg"] ∅))
         "/card/a.jpg" "/card/b.jpg" "/card/c.jpg"
         (Entry 3 "/card/a.jpg") (Entry 3 "/card/c.jpg") "permission denied");
    try reflexivity.
  vm_compute. discriminate.
Defined.

(** C4. A source file whose name is taken at the destination by an entry of
    another size (so not a duplicate) is written under a disambiguated name
    that was free, at whatever point of a transfer its turn comes, and the
    entry that was there stays as it was; over a whole transfer no entry that
    was at the destination is replaced or removed. *)
Theorem collision_keeps_existing_file io (dir : gmap string entry) :
  (forall p f e,
     io p = IoOk f -> dir !! file_name p = Some e -> entry_size e <> entry_size f ->
     exists k, 1 <= k /\
       disambiguated (file_name p) k <> file_name p /\
       dir !! disambiguated (file_name p) k = None /\
       transferFile io dir p = inl (<[disambiguated (file_name p) k := f]> dir, copied) /\
       transfer io [p] dir =
         TransferResult [copied] completed (<[disambiguated (file_name p) k := f]> dir) /\
       destination (transfer io [p] dir) !! file_name p = Some e /\
       destination (transfer io [p] dir) !! disambiguated (file_name p) k = Some f) /\
  (forall paths n e,
     dir !! n = Some e -> destination (transfer io paths dir) !! n = Some e).
Proof.
  split.
  - intros p f e Hio Hn Hsz.
    destruct (freeName_total (file_name p) dir) as [n' Hn'].
    destruct (freeName_fresh _ _ _ Hn') as (Hfree & k & Hk & ->).
    assert (Hne : disambiguated (file_name p) k <> file_name p) by congruence.
    assert (Hstep : transferFile io dir p
                    = inl (<[disambiguated (file_name p) k := f]> dir, copied)).
    { unfold transferFile. rewrite Hio, Hn.
      apply N.eqb_neq in Hsz. by rewrite Hsz, Hn'. }
    assert (Hrun : transfer io [p] dir =
      TransferResult [copied] completed (<[disambiguated (file_name p) k := f]> dir)).
    { unfold transfer. simpl. by rewrite Hstep. }
    exists k. rewrite Hrun. simpl.
    split_and!; try done.
    + by rewrite lookup_insert_ne.
    + by rewrite lookup_insert_eq.
  - intros paths n e Hn.
    destruct (transfer_unfold io paths dir) as (os & dir' & fatal & Hrun & _ & -> & _).
    by eapply transferFiles_keeps.
Qed.

(** The scenario of C4: [photo.jpg] meets an unrelated 500-byte
    [photo.jpg]. *)
Lemma collision_scenario_witness :
  exists k, 1 <= k /\
    destination (transfer (fun _ => IoOk (Entry 2048 "new picture")) ["/card/photo.jpg"]
                          {[ "photo.jpg" := Entry 500 "old picture" ]}) !! "photo.jpg"
      = Some (Entry 500 "old picture") /\
    destination (transfer (fun _ => IoOk (Entry 2048 "new picture")) ["/card/photo.jpg"]
                          {[ "photo.jpg" := Entry 500 "old picture" ]})
      !! disambiguated "photo.jpg" k
      = Some (Entry 2048 "new picture").
Proof.
  destruct (proj1 (collision_keeps_existing_file
                     (fun _ => IoOk (Entry 2048 "new picture"))
                     {[ "photo.jpg" := Entry 500 "old picture" ]})
              "/card/photo.jpg" (Entry 2048 "new picture") (Entry 500 "old picture"))
    as (k & Hk & _ & _ & _ & _ & Hold & Hnew); [reflexivity|reflexivity|discriminate|].
  exists k. split; [exact Hk|]. split; [exact Hold|exact Hnew].
Defined.

End EngineFacts.

(** ** The thumbnail cache, sequentially *)

Module ThumbnailFacts.
Import Thumbnails Thumbnails.Sequential.

Lemma cache_read s p t :
  getThumbnailFromCache s p = Some t <-> thumbnailCache s !! p = Some t /\ t <> "".
Proof.
  unfold getThumbnailFromCache. destruct (thumbnailCache s !! p) as [t'|].
  - destruct (String.eqb_spec t' "") as [->|Hne]; split.
    + done.
    + by intros [[= <-] ?].
    + by intros [= <-].
    + by intros [[= <-] _].
  - split; [done|by intros [? _]].
Qed.

Lemma generateSingleThumbnail_hit be p s t :
  getThumbnailFromCache s p = Some t -> generateSingleThumbnail be p s = s.
Proof. intros H. unfold generateSingleThumbnail, generateSingleThumbnail_begin. by rewrite H. Qed.

Lemma getThumbnail_hit be p s t :
  getThumbnailFromCache s p = Some t -> getThumbnail be p s = (s, t).
Proof. intros H. unfold getThumbnail, getThumbnail_begin. by rewrite H. Qed.

(** What a generation that reaches the backend does. *)
Lemma generateSingleThumbnail_miss be p s :
  getThumbnailFromCache s p = None ->
  generateSingleThumbnail be p s =
  generateSingleThumbnail_end p (be (length (invoked s)) p)
    (logInvoke p (bumpForceUpdate (setStates (<[p := loading]> (thumbnailLoadingStates s)) s))).
Proof. intros H. unfold generateSingleThumbnail, generateSingleThumbnail_begin. by rewrite H. Qed.

Lemma getThumbnail_miss be p s :
  getThumbnailFromCache s p = None ->
  getThumbnail be p s = getThumbnail_end p (be (length (invoked s)) p) (logInvoke p s).
Proof. intros H. unfold getThumbnail, getThumbnail_begin. by rewrite H. Qed.

(** A stored, non-empty payload survives every operation short of a scan. *)
Lemma perform_keeps_payload be s o p t :
  thumbnailCache s !! p = Some t -> t <> "" ->
  thumbnailCache (perform be s o) !! p = Some t.
Proof.
  intros Hp Ht. assert (Hhit : getThumbnailFromCache s p = Some t) by by apply cache_read.
  destruct o as [q|q]; simpl.
  - destruct (getThumbnailFromCache s q) as [t'|] eqn:E.
    + by rewrite (generateSingleThumbnail_hit _ _ _ _ E).
    + rewrite (generateSingleThumbnail_miss _ _ _ E).
      assert (q <> p) by congruence.
      destruct (be _ q); simpl; [by rewrite lookup_insert_ne|done].
  - destruct (getThumbnailFromCache s q) as [t'|] eqn:E.
    + by rewrite (getThumbnail_hit _ _ _ _ E).
    + rewrite (getThumbnail_miss _ _ _ E).
      assert (q <> p) by congruence.
      destruct (be _ q); simpl; [by rewrite lookup_insert_ne|done].
Qed.

Lemma operations_keep_payload be ops s p t :
  thumbnailCache s !! p = Some t -> t <> "" ->
  thumbnailCache (fold_left (perform be) ops s) !! p = Some t.
Proof.
  revert s. induction ops as [|o ops IH]; intros s Hp Ht; simpl; [done|].
  apply IH; [|done]. by apply perform_keeps_payload.
Qed.

(** Sequential runs.  Once the generation of a path has succeeded (through
    the queue's [generateSingleThumbnail] or through [getThumbnail]; the
    payload, a data URI, is not the empty string), every later [getThumbnail]
    for the path, after any thumbnail operations short of a new scan, returns
    that very payload and leaves the page as it is: the log of backend
    invocations does not grow.  A later [generateSingleThumbnail] does nothing
    either. *)
Theorem cached_thumbnail_is_reused (be : backend) (p t : string) (s : page)
    (first : operation) (ops : list operation) :
  first = Generate p \/ first = Get p ->
  getThumbnailFromCache s p = None ->
  be (length (invoked s)) p = Resolved t ->
  t <> "" ->
  getThumbnail be p (fold_left (perform be) ops (perform be s first))
    = (fold_left (perform be) ops (perform be s first), t) /\
  invoked (fst (getThumbnail be p (fold_left (perform be) ops (perform be s first))))
    = invoked (fold_left (perform be) ops (perform be s first)) /\
  generateSingleThumbnail be p (fold_left (perform be) ops (perform be s first))
    = fold_left (perform be) ops (perform be s first).
Proof.
  intros Hfirst Hmiss Hbe Ht.
  assert (Hstored : thumbnailCache (perform be s first) !! p = Some t).
  { destruct Hfirst as [-> | ->]; simpl.
    - rewrite (generateSingleThumbnail_miss _ _ _ Hmiss), Hbe. simpl. apply lookup_insert_eq.
    - rewrite (getThumbnail_miss _ _ _ Hmiss), Hbe. simpl. apply lookup_insert_eq. }
  pose proof (operations_keep_payload be ops _ _ _ Hstored Ht) as Hlater.
  assert (Hhit : getThumbnailFromCache (fold_left (perform be) ops (perform be s first)) p = Some t)
    by by apply cache_read.
  rewrite (getThumbnail_hit _ _ _ _ Hhit), (generateSingleThumbnail_hit _ _ _ _ Hhit). done.
Qed.

(** Two consecutive requests for a picture; four other operations between
    the first answer and the last request. *)
Lemma cached_thumbnail_is_reused_witness :
  snd (getThumbnail (fun _ p => Resolved ("data:image/jpeg;base64," +:+ p)) "/card/a.jpg"
         (fold_left (perform (fun _ p => Resolved ("data:image/jpeg;base64," +:+ p)))
            [Get "/card/a.jpg"; Generate "/card/b.jpg"; Get "/card/b.jpg"; Generate "/card/a.jpg"]
            (perform (fun _ p => Resolved ("data:image/jpeg;base64," +:+ p)) initialPage
               (Get "/card/a.jpg"))))
    = "data:image/jpeg;base64,/card/a.jpg" /\
  invoked (fst (getThumbnail (fun _ p => Resolved ("data:image/jpeg;base64," +:+ p)) "/card/a.jpg"
         (fold_left (perform (fun _ p => Resolved ("data:image/jpeg;base64," +:+ p)))
            [Get "/card/a.jpg"; Generate "/card/b.jpg"; Get "/card/b.jpg"; Generate "/card/a.jpg"]
            (perform (fun _ p => Resolved ("data:image/jpeg;base64," +:+ p)) initialPage
               (Get "/card/a.jpg")))))
    = ["/card/b.jpg"; "/card/a.jpg"].
Proof.
  destruct (cached_thumbnail_is_reused
              (fun _ p => Resolved ("data:image/jpeg;base64," +:+ p))
              "/card/a.jpg" "data:image/jpeg;base64,/card/a.jpg" initialPage
              (Get "/card/a.jpg")
              [Get "/card/a.jpg"; Generate "/card/b.jpg"; Get "/card/b.jpg"; Generate "/card/a.jpg"])
    as (Hret & Hinv & _); [by right|reflexivity|reflexivity|discriminate|].
  split.
  - rewrite Hret. reflexivity.
  - rewrite Hinv. vm_compute. reflexivity.
Defined.

(** *** The queue *)

Lemma previewPaths_cons f fs :
  previewPaths (f :: fs) =
  if is_image f || is_video f then path f :: previewPaths fs else previewPaths fs.
Proof.
  unfold previewPaths. rewrite filter_cons.
  destruct (is_image f || is_video f); by case_decide.
Qed.

(** The [forEach] of [initializeThumbnailGeneration]. *)
Lemma markPending_fold files s0 :
  thumbnailGenerationQueue (fold_left markPending files s0)
    = (thumbnailGenerationQueue s0 ++ previewPaths files)%list /\
  thumbnailCache (fold_left markPending files s0) = thumbnailCache s0 /\
  isGeneratingThumbnails (fold_left markPending files s0) = isGeneratingThumbnails s0 /\
  forall p, thumbnailLoadingStates (fold_left markPending files s0) !! p =
            if decide (p ∈ previewPaths files) then Some pending
            else thumbnailLoadingStates s0 !! p.
Proof.
  revert s0. induction files as [|f fs IH]; intros s0; simpl.
  - split_and!; [by rewrite app_nil_r|done|done|done].
  - destruct (IH (markPending s0 f)) as (Hq & Hc & Hg & Hs).
    rewrite Hq, Hc, Hg, previewPaths_cons. unfold markPending in *.
    destruct (is_image f || is_video f); simpl in *.
    + split_and!; [by rewrite <- app_assoc|done|done|].
      intros p. rewrite Hs.
      destruct (decide (p ∈ previewPaths fs)) as [Hin|Hnin].
      * rewrite decide_True; [done|set_solver].
      * destruct (decide (p = path f)) as [->|Hne].
        -- rewrite lookup_insert_eq, decide_True; [done|set_solver].
        -- rewrite lookup_insert_ne, decide_False; [done|set_solver|done].
    + done.
Qed.

Lemma resetThumbnails_spec s :
  thumbnailGenerationQueue (resetThumbnails s) = previewPaths (mediaFiles s) /\
  thumbnailCache (resetThumbnails s) = ∅ /\
  isGeneratingThumbnails (resetThumbnails s) = isGeneratingThumbnails s /\
  forall p, thumbnailLoadingStates (resetThumbnails s) !! p =
            if decide (p ∈ previewPaths (mediaFiles s)) then Some pending else None.
Proof.
  unfold resetThumbnails.
  destruct (markPending_fold (mediaFiles s) (clearThumbnails s)) as (Hq & Hc & Hg & Hs).
  split_and!; [done|done|done|]. intros p. rewrite Hs. simpl. by rewrite lookup_empty.
Qed.

(** One generation with a backend that answers by the path alone: the
    entry of the path shows the answer, the other entries are untouched, and
    whatever is stored in the cache is the answer of the backend and marked
    ['loaded']. *)
Lemma generateSingleThumbnail_settles (f : string -> answer) a s :
  (forall p t, thumbnailCache s !! p = Some t ->
     f p = Resolved t /\ thumbnailLoadingStates s !! p = Some loaded) ->
  (forall p t, thumbnailCache (generateSingleThumbnail (fun _ => f) a s) !! p = Some t ->
     f p = Resolved t /\
     thumbnailLoadingStates (generateSingleThumbnail (fun _ => f) a s) !! p = Some loaded) /\
  settled (f a) (generateSingleThumbnail (fun _ => f) a s) a /\
  (forall p, p <> a ->
     thumbnailLoadingStates (generateSingleThumbnail (fun _ => f) a s) !! p
       = thumbnailLoadingStates s !! p /\
     thumbnailCache (generateSingleThumbnail (fun _ => f) a s) !! p = thumbnailCache s !! p) /\
  thumbnailGenerationQueue (generateSingleThumbnail (fun _ => f) a s)
    = thumbnailGenerationQueue s.
Proof.
  intros Hcons. destruct (getThumbnailFromCache s a) as [t|] eqn:E.
  - rewrite (generateSingleThumbnail_hit _ _ _ _ E).
    apply cache_read in E as [Hc _]. destruct (Hcons a t Hc) as [Hf Hl].
    split_and!; [done| |done|done]. rewrite Hf. by split.
  - rewrite (generateSingleThumbnail_miss _ _ _ E).
    destruct (f a) as [t|e] eqn:Hf; simpl.
    + split; [|split; [|split]].
      * intros p t' Hp. destruct (decide (p = a)) as [->|Hne].
        -- rewrite lookup_insert_eq in Hp. rewrite lookup_insert_eq. by simplify_eq.
        -- rewrite lookup_insert_ne in Hp by done. rewrite !lookup_insert_ne by done. auto.
      * by rewrite !lookup_insert_eq.
      * intros p Hp. by rewrite !lookup_insert_ne.
      * done.
    + assert (Hnone : thumbnailCache s !! a = None).
      { destruct (thumbnailCache s !! a) as [t|] eqn:Hc; [|done].
        destruct (Hcons a t Hc) as [Hf' _]. congruence. }
      split; [|split; [|split]].
      * intros p t' Hp. assert (p <> a) by congruence.
        rewrite !lookup_insert_ne by done. auto.
      * by rewrite lookup_insert_eq.
      * intros p Hp. by rewrite !lookup_insert_ne.
      * done.
Qed.

(** The whole queue: every queued path ends with the entry that shows its
    own answer, whatever the answers for the other paths were. *)
Lemma processQueue_settles (f : string -> answer) q s :
  (forall p t, thumbnailCache s !! p = Some t ->
     f p = Resolved t /\ thumbnailLoadingStates s !! p = Some loaded) ->
  (forall p t, thumbnailCache (processQueue (fun _ => f) q s) !! p = Some t ->
     f p = Resolved t /\
     thumbnailLoadingStates (processQueue (fun _ => f) q s) !! p = Some loaded) /\
  (forall p, p ∈ q -> settled (f p) (processQueue (fun _ => f) q s) p) /\
  (forall p, p ∉ q ->
     thumbnailLoadingStates (processQueue (fun _ => f) q s) !! p
       = thumbnailLoadingStates s !! p /\
     thumbnailCache (processQueue (fun _ => f) q s) !! p = thumbnailCache s !! p).
Proof.
  revert s. induction q as [|a q IH]; intros s Hcons; simpl.
  - split_and!; [done|by intros p ?%elem_of_nil|done].
  - destruct (generateSingleThumbnail_settles f a (setQueue q s) Hcons)
      as (Hcons1 & Hset & Hother & _).
    destruct (IH _ Hcons1) as (Hcons2 & Hin & Hout).
    split_and!; [done| |].
    + intros p Hp. destruct (decide (p ∈ q)) as [Hq|Hq]; [by apply Hin|].
      assert (p = a) as -> by set_solver.
      destruct (Hout a Hq) as [Hs Hc]. unfold settled in *. rewrite Hs, Hc. done.
    + intros p Hp. destruct (Hout p) as [Hs Hc]; [set_solver|].
      destruct (Hother p) as [Hs' Hc']; [set_solver|]. by rewrite Hs, Hc, Hs', Hc'.
Qed.

Lemma processQueue_ends be q s :
  thumbnailGenerationQueue s = q ->
  thumbnailGenerationQueue (processQueue be q s) = [] /\
  isGeneratingThumbnails (processQueue be q s) = false.
Proof.
  revert s. induction q as [|a q IH]; intros s Hq; simpl; [done|].
  apply IH. unfold generateSingleThumbnail, generateSingleThumbnail_begin.
  destruct (getThumbnailFromCache _ a); [done|]. by destruct (be _ a).
Qed.

(** A scan followed by its queue, from a page where no queue is running. *)
Lemma loadMediaFiles_settles (f : string -> answer) files s :
  isGeneratingThumbnails s = false ->
  (forall p, p ∈ previewPaths files ->
     settled (f p) (loadMediaFiles (fun _ => f) files s) p) /\
  (forall p, p ∉ previewPaths files ->
     thumbnailLoadingStates (loadMediaFiles (fun _ => f) files s) !! p = None /\
     thumbnailCache (loadMediaFiles (fun _ => f) files s) !! p = None) /\
  thumbnailGenerationQueue (loadMediaFiles (fun _ => f) files s) = [] /\
  isGeneratingThumbnails (loadMediaFiles (fun _ => f) files s) = false.
Proof.
  intros Hidle. unfold loadMediaFiles, initializeThumbnailGeneration, startThumbnailGeneration.
  destruct (resetThumbnails_spec (setMediaFiles files s)) as (Hq & Hc & Hg & Hs).
  simpl in Hq, Hg. rewrite Hg, Hidle, Hq. simpl.
  case_bool_decide as Hempty.
  - rewrite Hempty. split_and!; [by intros p ?%elem_of_nil| |by rewrite Hq|by rewrite Hg].
    intros p _. rewrite Hs, Hc, lookup_empty. simpl. rewrite Hempty. by case_decide; [set_solver|].
  - unfold processNextThumbnail. simpl. rewrite Hq.
    set (s1 := setGenerating true (resetThumbnails (setMediaFiles files s))).
    assert (Hcons : forall p t, thumbnailCache s1 !! p = Some t ->
              f p = Resolved t /\ thumbnailLoadingStates s1 !! p = Some loaded).
    { intros p t. unfold s1. simpl. by rewrite Hc, lookup_empty. }
    destruct (processQueue_settles f (previewPaths files) s1 Hcons) as (_ & Hin & Hout).
    destruct (processQueue_ends (fun _ => f) (previewPaths files) s1) as [He Hf]; [done|].
    split_and!; [done| |done|done].
    intros p Hp. destruct (Hout p Hp) as [-> ->]. unfold s1. simpl.
    rewrite Hs, Hc, lookup_empty. simpl. by rewrite decide_False.
Qed.

Lemma settled_state a s p :
  settled a s p ->
  getThumbnailState s p = match a with Resolved _ => loaded | Rejected _ => error end /\
  thumbnailCache s !! p = match a with Resolved t => Some t | Rejected _ => None end.
Proof. unfold settled, getThumbnailState. by destruct a; intros [-> ->]. Qed.

(** C7. When a scan has been loaded and its queue has run (with a backend
    that answers [f p] for the path [p]), the entry of every queued path
    whose generation fails is ['error']; the queue is not stopped by a
    failure: it runs to its end and every queued path shows its own answer.
    The entry and the cached payload of a path [q] are those that any other
    backend [g] with the same answer for [q] leads to: what happens to the
    other paths, failures included, does not change them. *)
Theorem thumbnail_failures_are_isolated (f g : string -> answer)
    (files : list MediaFile) (s : page) :
  isGeneratingThumbnails s = false ->
  (forall p e, p ∈ previewPaths files -> f p = Rejected e ->
     getThumbnailState (loadMediaFiles (fun _ => f) files s) p = error /\
     thumbnailCache (loadMediaFiles (fun _ => f) files s) !! p = None) /\
  (forall q t, q ∈ previewPaths files -> f q = Resolved t ->
     getThumbnailState (loadMediaFiles (fun _ => f) files s) q = loaded /\
     thumbnailCache (loadMediaFiles (fun _ => f) files s) !! q = Some t) /\
  (forall q, f q = g q ->
     getThumbnailState (loadMediaFiles (fun _ => f) files s) q
       = getThumbnailState (loadMediaFiles (fun _ => g) files s) q /\
     thumbnailCache (loadMediaFiles (fun _ => f) files s) !! q
       = thumbnailCache (loadMediaFiles (fun _ => g) files s) !! q) /\
  thumbnailGenerationQueue (loadMediaFiles (fun _ => f) files s) = [] /\
  isGeneratingThumbnails (loadMediaFiles (fun _ => f) files s) = false.
Proof.
  intros Hidle.
  destruct (loadMediaFiles_settles f files s Hidle) as (Hin & Hout & Hq & Hg).
  destruct (loadMediaFiles_settles g files s Hidle) as (Hin' & Hout' & _ & _).
  split_and!; [| | |done|done].
  - intros p e Hp Hf. destruct (settled_state _ _ _ (Hin p Hp)) as [Hs Hc].
    by rewrite Hf in Hs, Hc.
  - intros q t Hp Hf. destruct (settled_state _ _ _ (Hin q Hp)) as [Hs Hc].
    by rewrite Hf in Hs, Hc.
  - intros q Hfg. destruct (decide (q ∈ previewPaths files)) as [Hp|Hp].
    + destruct (settled_state _ _ _ (Hin q Hp)) as [-> ->].
      destruct (settled_state _ _ _ (Hin' q Hp)) as [-> ->]. by rewrite Hfg.
    + destruct (Hout q Hp) as [Hs ->]. destruct (Hout' q Hp) as [Hs' ->].
      unfold getThumbnailState. by rewrite Hs, Hs'.
Qed.

(** A corrupted picture between two good files: its entry is ['error'],
    the video after it is ['loaded'], as it is when nothing fails. *)
Lemma thumbnail_failures_are_isolated_witness :
  getThumbnailState
    (loadMediaFiles (fun _ p => if String.eqb p "/card/b.jpg" then Rejected "corrupt"
                                else Resolved ("data:image/jpeg;base64," +:+ p))
       [mkMediaFile "a.jpg" "/card/a.jpg" 10 0 "jpg" true false;
        mkMediaFile "b.jpg" "/card/b.jpg" 10 0 "jpg" true false;
        mkMediaFile "c.mp4" "/card/c.mp4" 10 0 "mp4" false true] initialPage)
    "/card/b.jpg" = error /\
  getThumbnailState
    (loadMediaFiles (fun _ p => if String.eqb p "/card/b.jpg" then Rejected "corrupt"
                                else Resolved ("data:image/jpeg;base64," +:+ p))
       [mkMediaFile "a.jpg" "/card/a.jpg" 10 0 "jpg" true false;
        mkMediaFile "b.jpg" "/card/b.jpg" 10 0 "jpg" true false;
        mkMediaFile "c.mp4" "/card/c.mp4" 10 0 "mp4" false true] initialPage)
    "/card/c.mp4"
  = getThumbnailState
    (loadMediaFiles (fun _ p => Resolved ("data:image/jpeg;base64," +:+ p))
       [mkMediaFile "a.jpg" "/card/a.jpg" 10 0 "jpg" true false;
        mkMediaFile "b.jpg" "/card/b.jpg" 10 0 "jpg" true false;
        mkMediaFile "c.mp4" "/card/c.mp4" 10 0 "mp4" false true] initialPage)
    "/card/c.mp4".
Proof.
  destruct (thumbnail_failures_are_isolated
    (fun p => if String.eqb p "/card/b.jpg" then Rejected "corrupt"
              else Resolved ("data:image/jpeg;base64," +:+ p))
    (fun p => Resolved ("data:image/jpeg;base64," +:+ p))
    [mkMediaFile "a.jpg" "/card/a.jpg" 10 0 "jpg" true false;
     mkMediaFile "b.jpg" "/card/b.jpg" 10 0 "jpg" true false;
     mkMediaFile "c.mp4" "/card/c.mp4" 10 0 "mp4" false true] initialPage eq_refl)
    as (Hfail & _ & Hsame & _).
  split.
  - refine (proj1 (Hfail "/card/b.jpg" "corrupt" _ eq_refl)).
    vm_compute. apply list_elem_of_further, list_elem_of_here.
  - exact (proj1 (Hsame "/card/c.mp4" eq_refl)).
Defined.

(** *** Failures *)




End ThumbnailFacts.

(** ** The thumbnail cache, with interleaving *)

Module InterleavedFacts.
Import Thumbnails Thumbnails.Interleaved.

Lemma take_spec t l w :
  take t l = Some w ->
  t ∈ l /\ (forall x, x ∈ w -> x ∈ l) /\
  queueTaskCount l = (if isQueueTask t then 1 else 0) + queueTaskCount w.
Proof.
  revert w. induction l as [|x l IH]; intros w; simpl; [done|].
  destruct (decide (x = t)) as [->|Hne].
  - intros [= ->]. split_and!; [apply list_elem_of_here|by intros; apply list_elem_of_further|done].
  - destruct (take t l) as [w'|]; [|done]. intros [= <-].
    destruct (IH w' eq_refl) as (Hin & Hsub & Hcount). split_and!.
    + by apply list_elem_of_further.
    + intros y [->|Hy]%elem_of_cons; [apply list_elem_of_here|].
      apply list_elem_of_further. by apply Hsub.
    + simpl. rewrite Hcount. lia.
Qed.

Lemma no_queue_task p l : queueTaskCount l = 0 -> GenWait p ∉ l.
Proof.
  induction l as [|x l IH]; simpl; [intros _; apply not_elem_of_nil|].
  intros H [<-|Hin]%elem_of_cons; [done|]. apply IH; [|done]. lia.
Qed.

Lemma queueGenerations_count r : length (queueGenerations r) <= queueTaskCount (waiting r).
Proof.
  unfold queueGenerations. induction (waiting r) as [|[q| |q] l IH]; csimpl; lia.
Qed.

(** What [processNextThumbnail] does to the entries: nothing to the cache,
    and to the states at most the ['loading'] of a path without a cached
    payload. *)
Lemma processNextThumbnail_entries r p :
  thumbnailCache (ui (processNextThumbnail r)) = thumbnailCache (ui r) /\
  (getThumbnailState (ui (processNextThumbnail r)) p = getThumbnailState (ui r) p \/
   getThumbnailState (ui (processNextThumbnail r)) p = loading /\
   getThumbnailFromCache (ui r) p = None).
Proof.
  unfold processNextThumbnail. destruct (thumbnailGenerationQueue (ui r)) as [|a q]; [by auto|].
  unfold generateSingleThumbnail_begin.
  change (getThumbnailFromCache (setQueue q (ui r)) a) with (getThumbnailFromCache (ui r) a).
  destruct (getThumbnailFromCache (ui r) a) eqn:E; simpl; [by auto|].
  split; [done|]. unfold getThumbnailState. simpl.
  destruct (decide (p = a)) as [->|Hne].
  - right. by rewrite lookup_insert_eq.
  - left. by rewrite lookup_insert_ne.
Qed.

Lemma processNextThumbnail_wellFormed r :
  queueTaskCount (waiting r) = 0 -> isGeneratingThumbnails (ui r) = true ->
  wellFormed (processNextThumbnail r).
Proof.
  intros Hcount Hflag. unfold processNextThumbnail.
  destruct (thumbnailGenerationQueue (ui r)) as [|a q].
  - split; simpl; [done|]. intros p Hp. by destruct (no_queue_task p _ Hcount).
  - unfold generateSingleThumbnail_begin.
    change (getThumbnailFromCache (setQueue q (ui r)) a) with (getThumbnailFromCache (ui r) a).
    destruct (getThumbnailFromCache (ui r) a) eqn:E; split; simpl; rewrite ?Hcount, ?Hflag; try done.
    + intros p [?|Hp]%elem_of_cons; [done|]. by destruct (no_queue_task p _ Hcount).
    + intros p [[= ->]|Hp]%elem_of_cons; [by rewrite lookup_insert_eq|].
      by destruct (no_queue_task p _ Hcount).
Qed.

Lemma resetThumbnails_states s p :
  thumbnailLoadingStates (resetThumbnails s) !! p <> Some loaded /\
  thumbnailLoadingStates (resetThumbnails s) !! p <> Some error /\
  getThumbnailState (resetThumbnails s) p = pending.
Proof.
  destruct (ThumbnailFacts.resetThumbnails_spec s) as (_ & _ & _ & Hs).
  unfold getThumbnailState. rewrite Hs. by case_decide.
Qed.

Lemma step_wellFormed e r r' : wellFormed r -> step e r = Some r' -> wellFormed r'.
Proof.
  intros [Hcount Hgen]. destruct e as [files| |p a|p|p a]; simpl.
  - intros [= <-]. unfold initializeThumbnailGeneration, startThumbnailGeneration. simpl.
    destruct (ThumbnailFacts.resetThumbnails_spec (setMediaFiles files (ui r)))
      as (_ & _ & Hflag & _). simpl in Hflag.
    destruct (isGeneratingThumbnails (resetThumbnails (setMediaFiles files (ui r)))) eqn:Ef;
      simpl.
    + split; simpl; [by rewrite Ef, Hcount, <- Hflag|].
      intros p _. destruct (resetThumbnails_states (setMediaFiles files (ui r)) p) as (? & ? & _).
      done.
    + case_bool_decide.
      * split; simpl; [by rewrite Ef, Hcount, <- Hflag|].
        intros p _.
        destruct (resetThumbnails_states (setMediaFiles files (ui r)) p) as (? & ? & _). done.
      * apply processNextThumbnail_wellFormed; simpl; [|done]. by rewrite Hcount, <- Hflag.
  - destruct (take TimerWait (waiting r)) as [w|] eqn:E; [|done]. simpl. intros [= <-].
    apply take_spec in E as (_ & _ & Hc). simpl in Hc.
    destruct (isGeneratingThumbnails (ui r)) eqn:Ef; [|lia].
    apply processNextThumbnail_wellFormed; simpl; [lia|done].
  - destruct (take (GenWait p) (waiting r)) as [w|] eqn:E; [|done]. simpl. intros [= <-].
    apply take_spec in E as (_ & _ & Hc). simpl in Hc.
    destruct (isGeneratingThumbnails (ui r)) eqn:Ef; [|lia].
    assert (Hw : queueTaskCount w = 0) by lia.
    split; simpl.
    + rewrite Hw. by destruct a; simpl; rewrite Ef.
    + intros q [?|Hq]%elem_of_cons; [done|]. by destruct (no_queue_task q _ Hw).
  - unfold getThumbnail_begin.
    destruct (getThumbnailFromCache (ui r) p); intros [= <-]; (split; simpl; [done|]).
    + done.
    + intros q [?|Hq]%elem_of_cons; [done|]. by apply Hgen.
  - destruct (take (GetWait p) (waiting r)) as [w|] eqn:E; [|done]. simpl.
    apply take_spec in E as (_ & Hsub & Hc). simpl in Hc.
    destruct a; simpl; intros [= <-]; (split; simpl; [by rewrite <- Hc|]);
      intros q Hq; apply Hgen; by apply Hsub.
Qed.

Lemma run_wellFormed es r r' : wellFormed r -> run es r = Some r' -> wellFormed r'.
Proof.
  revert r. induction es as [|e es IH]; intros r Hwf; simpl; [by intros [= <-]|].
  destruct (step e r) as [r1|] eqn:E; [|done]. simpl.
  apply IH. by eapply step_wellFormed.
Qed.

Lemma reachable_wellFormed r : reachable r -> wellFormed r.
Proof.
  intros [es Hrun]. eapply run_wellFormed; [|done].
  split; simpl; [done|]. by intros p ?%elem_of_nil.
Qed.

(** *** Sequential runs are interleaved runs *)

Lemma take_head t l : take t (t :: l) = Some l.
Proof. simpl. by rewrite decide_True. Qed.

Lemma run_cons e es r r1 : step e r = Some r1 -> run (e :: es) r = run es r1.
Proof. intros H. simpl. by rewrite H. Qed.

Lemma step_answer a ans s w d :
  step (ThumbnailAnswer a ans) (Runtime s (GenWait a :: w) d)
    = Some (Runtime (generateSingleThumbnail_end a ans s) (TimerWait :: w) d).
Proof. unfold step. cbn [waiting ui delivered]. by rewrite take_head. Qed.

Lemma step_timer s w d :
  step TimerFired (Runtime s (TimerWait :: w) d) = Some (processNextThumbnail (Runtime s w d)).
Proof. unfold step. cbn [waiting ui delivered]. by rewrite take_head. Qed.

(** From a call of [processNextThumbnail] on, the events "the backend
    answers at once" and "the timer fires" lead to the page of the sequential
    run of the queue. *)
Lemma sequential_queue_is_a_run (be : Sequential.backend) q :
  forall r, thumbnailGenerationQueue (ui r) = q ->
  exists es, run es (processNextThumbnail r)
    = Some (Runtime (Sequential.processQueue be q (ui r)) (waiting r) (delivered r)).
Proof.
  induction q as [|a q IH]; intros r Hq; unfold processNextThumbnail; rewrite Hq.
  - by exists [].
  - simpl. unfold Sequential.generateSingleThumbnail.
    destruct (generateSingleThumbnail_begin a (setQueue q (ui r))) as [s1|] eqn:E.
    + set (ans := be (length (invoked (setQueue q (ui r)))) a).
      destruct (IH (Runtime (generateSingleThumbnail_end a ans s1) (waiting r) (delivered r)))
        as [es Hes].
      { unfold generateSingleThumbnail_begin in E.
        destruct (getThumbnailFromCache _ a); [done|]. injection E as <-.
        by destruct ans. }
      exists (ThumbnailAnswer a ans :: TimerFired :: es).
      rewrite (run_cons _ _ _ _ (step_answer _ _ _ _ _)).
      by rewrite (run_cons _ _ _ _ (step_timer _ _ _)).
    + destruct (IH (Runtime (setQueue q (ui r)) (waiting r) (delivered r))) as [es Hes];
        [done|].
      exists (TimerFired :: es). by rewrite (run_cons _ _ _ _ (step_timer _ _ _)).
Qed.

(** The sequential run of a scan and its queue is the page of an interleaved
    run that starts with the scan. *)
Lemma sequential_scan_is_a_run (be : Sequential.backend) files r :
  isGeneratingThumbnails (ui r) = false ->
  exists es, run (MediaLoaded files :: es) r
    = Some (Runtime (Sequential.loadMediaFiles be files (ui r)) (waiting r) (delivered r)).
Proof.
  intros Hidle. simpl.
  unfold initializeThumbnailGeneration, startThumbnailGeneration,
    Sequential.loadMediaFiles, Sequential.initializeThumbnailGeneration,
    Sequential.startThumbnailGeneration. simpl.
  destruct (ThumbnailFacts.resetThumbnails_spec (setMediaFiles files (ui r)))
    as (_ & _ & Hflag & _). simpl in Hflag. rewrite Hflag, Hidle. simpl.
  case_bool_decide; [by exists []|].
  apply (sequential_queue_is_a_run be _
           (Runtime (setGenerating true (resetThumbnails (setMediaFiles files (ui r))))
                    (waiting r) (delivered r))).
  done.
Qed.

(** A rejected generation of the queue touches the entry of its own path
    only, and leaves the queue waiting for its timer. *)
Lemma rejection_is_local r r' p e :
  step (ThumbnailAnswer p (Rejected e)) r = Some r' ->
  getThumbnailState (ui r') p = error /\
  TimerWait ∈ waiting r' /\
  thumbnailGenerationQueue (ui r') = thumbnailGenerationQueue (ui r) /\
  thumbnailCache (ui r') = thumbnailCache (ui r) /\
  forall q, q <> p -> getThumbnailState (ui r') q = getThumbnailState (ui r) q.
Proof.
  simpl. destruct (take (GenWait p) (waiting r)) as [w|]; [|done]. simpl.
  intros [= <-]. unfold getThumbnailState. simpl. rewrite lookup_insert_eq.
  split_and!; [done|apply list_elem_of_here|done|done|].
  intros q Hq. by rewrite lookup_insert_ne.
Qed.

(** A request for a path with a non-empty cached payload is answered with
    that payload at once, and the page is not touched. *)
Lemma cached_request_is_answered r p t :
  getThumbnailFromCache (ui r) p = Some t ->
  step (Request p) r = Some (Runtime (ui r) (waiting r) ((p, t) :: delivered r)).
Proof. intros H. simpl. unfold getThumbnail_begin. by rewrite H. Qed.

Lemma getThumbnailState_cases s p :
  thumbnailLoadingStates s !! p <> Some loaded ->
  thumbnailLoadingStates s !! p <> Some error ->
  getThumbnailState s p = pending \/ getThumbnailState s p = loading.
Proof.
  unfold getThumbnailState.
  destruct (thumbnailLoadingStates s !! p) as [[]|]; simpl; auto; congruence.
Qed.

(** C5, as stated, fails: the card [A] is scanned, then another one, then
    [A] again while the first generation for [/card/a.jpg] is still in
    flight; that generation then fails, which sets the entry of the path to
    ['error']; the next turn of the queue, which is no reset, takes the path
    from the queue and sets the entry to ['loading']. *)
Lemma error_entry_restarts_counterexample :
  (fun r => getThumbnailState (ui r) "/card/a.jpg") <$>
    run [MediaLoaded [mkMediaFile "a.jpg" "/card/a.jpg" 10 0 "jpg" true false];
         MediaLoaded [mkMediaFile "b.jpg" "/disk/b.jpg" 10 0 "jpg" true false];
         MediaLoaded [mkMediaFile "a.jpg" "/card/a.jpg" 10 0 "jpg" true false];
         ThumbnailAnswer "/card/a.jpg" (Rejected "device busy")] initialRuntime
    = Some error /\
  (fun r => getThumbnailState (ui r) "/card/a.jpg") <$>
    run [MediaLoaded [mkMediaFile "a.jpg" "/card/a.jpg" 10 0 "jpg" true false];
         MediaLoaded [mkMediaFile "b.jpg" "/disk/b.jpg" 10 0 "jpg" true false];
         MediaLoaded [mkMediaFile "a.jpg" "/card/a.jpg" 10 0 "jpg" true false];
         ThumbnailAnswer "/card/a.jpg" (Rejected "device busy");
         TimerFired] initialRuntime
    = Some loading /\
  isReset TimerFired = false.
Proof. by vm_compute. Qed.

(** The same without any interleaving, when a scan lists a path twice: the
    first generation fails and leaves ['error'], then the second turn of the
    queue for the same path starts from ['loading'] again and, the backend
    answering this time, ends in ['loaded']. *)
Example error_entry_restarts_with_repeated_path :
  (fun r => getThumbnailState (ui r) "/card/a.jpg") <$>
    run [MediaLoaded [mkMediaFile "a.jpg" "/card/a.jpg" 10 0 "jpg" true false;
                      mkMediaFile "a.jpg" "/card/a.jpg" 10 0 "jpg" true false];
         ThumbnailAnswer "/card/a.jpg" (Rejected "device busy")] initialRuntime
    = Some error /\
  (fun r => getThumbnailState (ui r) "/card/a.jpg") <$>
    run [MediaLoaded [mkMediaFile "a.jpg" "/card/a.jpg" 10 0 "jpg" true false;
                      mkMediaFile "a.jpg" "/card/a.jpg" 10 0 "jpg" true false];
         ThumbnailAnswer "/card/a.jpg" (Rejected "device busy");
         TimerFired] initialRuntime
    = Some loading /\
  (fun r => getThumbnailState (ui r) "/card/a.jpg") <$>
    run [MediaLoaded [mkMediaFile "a.jpg" "/card/a.jpg" 10 0 "jpg" true false;
                      mkMediaFile "a.jpg" "/card/a.jpg" 10 0 "jpg" true false];
         ThumbnailAnswer "/card/a.jpg" (Rejected "device busy");
         TimerFired;
         ThumbnailAnswer "/card/a.jpg" (Resolved "data:image/jpeg;base64,AAAA")] initialRuntime
    = Some loaded.
Proof. by vm_compute. Qed.

(** C5, amended.  In every reachable runtime and for every path: the reset
    of a scan empties the cache and makes every path read ['pending'] (after
    the whole step the path at the head of the new queue may already be
    ['loading']).  A step that is no reset leaves the entry as it is, or
    sets it to ['loading'] for a path without a non-empty cached payload
    (whatever the entry was, ['error'] included), or sets it to ['loaded'] or
    ['error'] from ['pending'] or ['loading'].  An entry that is ['loaded']
    with a non-empty cached payload is changed by the reset only. *)
Theorem thumbnail_entry_transitions (r r' : runtime) (e : event) (p : string) :
  reachable r -> step e r = Some r' ->
  (getThumbnailState (resetThumbnails (ui r)) p = pending /\
   thumbnailCache (resetThumbnails (ui r)) = ∅) /\
  (isReset e = true ->
     thumbnailCache (ui r') = ∅ /\
     (getThumbnailState (ui r') p = pending \/ getThumbnailState (ui r') p = loading)) /\
  (isReset e = false ->
     (getThumbnailState (ui r) p = loaded -> getThumbnailFromCache (ui r) p <> None ->
        getThumbnailState (ui r') p = loaded) /\
     (getThumbnailState (ui r') p = getThumbnailState (ui r) p \/
      (getThumbnailState (ui r') p = loading /\ getThumbnailFromCache (ui r) p = None) \/
      ((getThumbnailState (ui r') p = loaded \/ getThumbnailState (ui r') p = error) /\
       (getThumbnailState (ui r) p = pending \/ getThumbnailState (ui r) p = loading)))).
Proof.
  intros [_ Hgen]%reachable_wellFormed Hstep. split; [|split].
  - destruct (resetThumbnails_states (ui r) p) as (_ & _ & Hp).
    by destruct (ThumbnailFacts.resetThumbnails_spec (ui r)) as (_ & Hc & _).
  - destruct e as [files| | | |]; try done. intros _.
    simpl in Hstep. injection Hstep as <-.
    unfold initializeThumbnailGeneration, startThumbnailGeneration. simpl.
    destruct (ThumbnailFacts.resetThumbnails_spec (setMediaFiles files (ui r)))
      as (_ & Hc & _ & _).
    destruct (resetThumbnails_states (setMediaFiles files (ui r)) p) as (_ & _ & Hp).
    destruct (_ || _); simpl; [by auto|].
    match goal with |- context [processNextThumbnail ?r0] =>
      destruct (processNextThumbnail_entries r0 p) as [Hc' [Hs|[Hs _]]] end;
      simpl in *; rewrite Hc', Hs; auto.
  - intros Hnr.
    assert (Hmain :
      getThumbnailState (ui r') p = getThumbnailState (ui r) p \/
      (getThumbnailState (ui r') p = loading /\ getThumbnailFromCache (ui r) p = None) \/
      ((getThumbnailState (ui r') p = loaded \/ getThumbnailState (ui r') p = error) /\
       (getThumbnailState (ui r) p = pending \/ getThumbnailState (ui r) p = loading))).
    { destruct e as [files| |q a|q|q a]; [done| | | |]; simpl in Hstep.
      - destruct (take TimerWait (waiting r)) as [w|]; [|done]. simpl in Hstep.
        injection Hstep as <-.
        destruct (processNextThumbnail_entries (Runtime (ui r) w (delivered r)) p)
          as [_ [Hs|Hs]]; simpl in *; auto.
      - destruct (take (GenWait q) (waiting r)) as [w|] eqn:E; [|done]. simpl in Hstep.
        injection Hstep as <-. apply take_spec in E as (Hin & _ & _).
        destruct (Hgen q Hin) as [Hl He]. simpl.
        destruct (decide (p = q)) as [->|Hne].
        + right. right. split; [|by apply getThumbnailState_cases].
          unfold getThumbnailState. destruct a; simpl; rewrite lookup_insert_eq; auto.
        + left. unfold getThumbnailState. by destruct a; simpl; rewrite lookup_insert_ne.
      - unfold getThumbnail_begin in Hstep.
        destruct (getThumbnailFromCache (ui r) q); injection Hstep as <-; by left.
      - destruct (take (GetWait q) (waiting r)) as [w|]; [|done]. simpl in Hstep.
        destruct a; simpl in Hstep; injection Hstep as <-; by left. }
    split; [|done]. intros Hl Hc.
    destruct Hmain as [->|[[_ ?]|[_ [Hs|Hs]]]]; [done|done| |]; congruence.
Qed.

(** The first scan of a card with one picture: the step is a reset, and
    the entry of the picture is ['loading'] after it. *)
Lemma thumbnail_entry_transitions_witness :
  thumbnailCache
    (ui (initializeThumbnailGeneration
           (Runtime (setMediaFiles [mkMediaFile "a.jpg" "/card/a.jpg" 10 0 "jpg" true false]
                                   initialPage) [] []))) = ∅ /\
  (getThumbnailState
     (ui (initializeThumbnailGeneration
            (Runtime (setMediaFiles [mkMediaFile "a.jpg" "/card/a.jpg" 10 0 "jpg" true false]
                                    initialPage) [] []))) "/card/a.jpg" = pending \/
   getThumbnailState
     (ui (initializeThumbnailGeneration
            (Runtime (setMediaFiles [mkMediaFile "a.jpg" "/card/a.jpg" 10 0 "jpg" true false]
                                    initialPage) [] []))) "/card/a.jpg" = loading).
Proof.
  refine (proj1 (proj2 (thumbnail_entry_transitions initialRuntime _
            (MediaLoaded [mkMediaFile "a.jpg" "/card/a.jpg" 10 0 "jpg" true false])
            "/card/a.jpg" _ eq_refl)) eq_refl).
  exists []. reflexivity.
Defined.

(** C8, as stated, fails: two [getThumbnail] requests for the same path,
    made before the backend has answered the first, are two invocations of
    the backend, both in flight. *)
Lemma same_path_twice_counterexample :
  inFlight <$> run [Request "/card/a.jpg"; Request "/card/a.jpg"] initialRuntime
    = Some ["/card/a.jpg"; "/card/a.jpg"] /\
  (fun r => invoked (ui r)) <$>
    run [Request "/card/a.jpg"; Request "/card/a.jpg"] initialRuntime
    = Some ["/card/a.jpg"; "/card/a.jpg"].
Proof. by vm_compute. Qed.

(** C8, amended.  The generations of the queue are serialized: in every
    reachable runtime at most one of them is in flight, for whatever path,
    and none when [isGeneratingThumbnails] is not set.  Requests are not
    coalesced: a [getThumbnail] request for a path without a non-empty cached
    payload invokes the backend and is in flight on its own, whatever else is
    in flight. *)
Theorem queue_generations_are_serialized (r : runtime) :
  reachable r ->
  length (queueGenerations r) <= 1 /\
  (isGeneratingThumbnails (ui r) = false -> queueGenerations r = []) /\
  (forall p, getThumbnailFromCache (ui r) p = None ->
     exists r', step (Request p) r = Some r' /\
       inFlight r' = p :: inFlight r /\
       invoked (ui r') = p :: invoked (ui r)).
Proof.
  intros [Hcount _]%reachable_wellFormed.
  pose proof (queueGenerations_count r) as Hle. split_and!.
  - destruct (isGeneratingThumbnails (ui r)); lia.
  - intros Hf. rewrite Hf in Hcount. destruct (queueGenerations r); [done|simpl in Hle; lia].
  - intros p Hp. simpl. unfold getThumbnail_begin. rewrite Hp. by eexists.
Qed.

(** After the scan of a card with two pictures one generation is in flight. *)
Lemma queue_generations_are_serialized_witness :
  length (queueGenerations
    (initializeThumbnailGeneration
       (Runtime (setMediaFiles [mkMediaFile "a.jpg" "/card/a.jpg" 10 0 "jpg" true false;
                                mkMediaFile "b.jpg" "/card/b.jpg" 10 0 "jpg" true false]
                               initialPage) [] []))) <= 1.
Proof.
  refine (proj1 (queue_generations_are_serialized _ _)).
  exists [MediaLoaded [mkMediaFile "a.jpg" "/card/a.jpg" 10 0 "jpg" true false;
                       mkMediaFile "b.jpg" "/card/b.jpg" 10 0 "jpg" true false]].
  reflexivity.
Defined.

End InterleavedFacts.

(** ** The selection *)

Module SelectionFacts.
Import Thumbnails Workflow.

Lemma has_true s x : JsSet.has s x = true <-> x ∈ s.
Proof. unfold JsSet.has. apply bool_decide_eq_true. Qed.

Lemma has_false s x : JsSet.has s x = false <-> x ∉ s.
Proof. unfold JsSet.has. apply bool_decide_eq_false. Qed.

Lemma add_elem s x y : y ∈ JsSet.add s x <-> y ∈ s \/ y = x.
Proof.
  unfold JsSet.add. destruct (JsSet.has s x) eqn:E.
  - apply has_true in E. split; [auto|]. by intros [?| ->].
  - rewrite elem_of_app, list_elem_of_singleton. done.
Qed.

Lemma add_NoDup s x : NoDup s -> NoDup (JsSet.add s x).
Proof.
  intros Hs. unfold JsSet.add. destruct (JsSet.has s x) eqn:E; [done|].
  apply has_false in E. apply NoDup_app. split_and!; [done| |apply NoDup_singleton].
  by intros y Hy ->%list_elem_of_singleton.
Qed.

Lemma delete_elem s x y : y ∈ JsSet.delete s x <-> y ∈ s /\ y <> x.
Proof. unfold JsSet.delete. rewrite list_elem_of_filter. tauto. Qed.

Lemma delete_NoDup s x : NoDup s -> NoDup (JsSet.delete s x).
Proof. apply NoDup_filter. Qed.

Lemma delete_absent s x : x ∉ s -> JsSet.delete s x = s.
Proof.
  unfold JsSet.delete. induction s as [|a s IH]; [done|].
  intros [Ha Hs]%not_elem_of_cons. rewrite filter_cons_True by done. by rewrite IH.
Qed.

Lemma delete_length s x : NoDup s -> x ∈ s -> S (length (JsSet.delete s x)) = length s.
Proof.
  unfold JsSet.delete. induction s as [|a s IH]; intros Hnd Hin.
  - by apply elem_of_nil in Hin.
  - apply NoDup_cons in Hnd as [Ha Hnd]. destruct (decide (a = x)) as [->|Hne].
    + rewrite filter_cons_False by (intros H; by apply H).
      fold (JsSet.delete s x). by rewrite (delete_absent s x Ha).
    + rewrite filter_cons_True by done. simpl. f_equal. apply IH; [done|].
      apply elem_of_cons in Hin as [->|Hin]; done.
Qed.

(** [new Set(l)] on top of the elements already there. *)
Lemma fold_add l : forall acc,
  NoDup acc ->
  NoDup (fold_left JsSet.add l acc) /\
  (forall y, y ∈ fold_left JsSet.add l acc <-> y ∈ acc \/ y ∈ l) /\
  length (fold_left JsSet.add l acc) <= length acc + length l /\
  (NoDup (acc ++ l) -> fold_left JsSet.add l acc = (acc ++ l)%list).
Proof.
  induction l as [|a l IH]; intros acc Hacc; simpl.
  - split_and!; [done| |lia|by rewrite app_nil_r].
    intros y. split; [auto|]. by intros [?|?%elem_of_nil].
  - destruct (IH (JsSet.add acc a) (add_NoDup _ _ Hacc)) as (Hnd & Hel & Hlen & Heq).
    split_and!; [done| | |].
    + intros y. rewrite Hel, add_elem, elem_of_cons. tauto.
    + assert (length (JsSet.add acc a) <= S (length acc)).
      { unfold JsSet.add. destruct (JsSet.has acc a); [lia|]. rewrite length_app. simpl. lia. }
      lia.
    + intros Hall. assert (Ha : a ∉ acc).
      { apply NoDup_app in Hall as (_ & Hdis & _). intros Hin.
        apply (Hdis a Hin). apply list_elem_of_here. }
      unfold JsSet.add in *. apply has_false in Ha. rewrite Ha in *.
      rewrite Heq; rewrite <- app_assoc; done.
Qed.

(** X1. [toggleFileSelection] flips the path it is given and nothing else:
    the path is selected afterwards exactly when it was not before, every
    other path keeps its place in or out of the selection, the selection
    stays free of duplicates and its size moves by exactly one. *)
Theorem toggleFileSelection_flips (p : string) (s : page) :
  NoDup (selectedFiles s) ->
  NoDup (selectedFiles (toggleFileSelection p s)) /\
  (p ∈ selectedFiles (toggleFileSelection p s) <-> p ∉ selectedFiles s) /\
  (forall q, q <> p ->
     (q ∈ selectedFiles (toggleFileSelection p s) <-> q ∈ selectedFiles s)) /\
  (if JsSet.has (selectedFiles s) p
   then S (length (selectedFiles (toggleFileSelection p s))) = length (selectedFiles s)
   else length (selectedFiles (toggleFileSelection p s)) = S (length (selectedFiles s))).
Proof.
  intros Hnd. unfold toggleFileSelection.
  destruct (JsSet.has (selectedFiles s) p) eqn:E; simpl.
  - apply has_true in E. split_and!.
    + by apply delete_NoDup.
    + rewrite delete_elem. tauto.
    + intros q Hq. rewrite delete_elem. tauto.
    + by apply delete_length.
  - apply has_false in E. split_and!.
    + by apply add_NoDup.
    + rewrite add_elem. tauto.
    + intros q Hq. rewrite add_elem. tauto.
    + unfold JsSet.add. apply has_false in E. rewrite E, length_app. simpl. lia.
Qed.

Lemma toggleFileSelection_flips_witness :
  "/card/b.jpg" ∈ selectedFiles
    (toggleFileSelection "/card/b.jpg" (setSelectedFiles ["/card/a.jpg"] initialPage)) /\
  "/card/a.jpg" ∉ selectedFiles
    (toggleFileSelection "/card/a.jpg" (setSelectedFiles ["/card/a.jpg"] initialPage)).
Proof.
  split.
  - destruct (toggleFileSelection_flips "/card/b.jpg"
                (setSelectedFiles ["/card/a.jpg"] initialPage)
                (NoDup_singleton "/card/a.jpg")) as (_ & [_ H] & _).
    apply H. simpl. by intros [=]%list_elem_of_singleton.
  - destruct (toggleFileSelection_flips "/card/a.jpg"
                (setSelectedFiles ["/card/a.jpg"] initialPage)
                (NoDup_singleton "/card/a.jpg")) as (_ & [H _] & _).
    intros Hin. apply (H Hin). simpl. apply list_elem_of_here.
Defined.

(** X2. Toggling a path twice gives back the same selected paths.  For a
    path that was not selected the selection is the very same, order
    included; for a path that was selected the order changes: the path moves
    to the end of the selection, which is the order the import will use. *)
Theorem toggleFileSelection_twice (p : string) (s : page) :
  NoDup (selectedFiles s) ->
  (forall q, q ∈ selectedFiles (toggleFileSelection p (toggleFileSelection p s))
             <-> q ∈ selectedFiles s) /\
  (p ∉ selectedFiles s ->
     selectedFiles (toggleFileSelection p (toggleFileSelection p s)) = selectedFiles s) /\
  (p ∈ selectedFiles s ->
     selectedFiles (toggleFileSelection p (toggleFileSelection p s))
       = (JsSet.delete (selectedFiles s) p ++ [p])%list).
Proof.
  intros Hnd.
  assert (Hout : p ∉ selectedFiles s ->
     selectedFiles (toggleFileSelection p (toggleFileSelection p s)) = selectedFiles s).
  { intros Hp. unfold toggleFileSelection at 2.
    pose proof Hp as E%has_false. rewrite E. unfold toggleFileSelection. simpl.
    unfold JsSet.add. rewrite E.
    assert (Hin : JsSet.has (selectedFiles s ++ [p]) p = true).
    { apply has_true, elem_of_app. right. apply list_elem_of_here. }
    rewrite Hin. simpl. unfold JsSet.delete. rewrite filter_app.
    fold (JsSet.delete (selectedFiles s) p). rewrite (delete_absent _ _ Hp).
    rewrite filter_cons_False by (intros H; by apply H). simpl. by rewrite app_nil_r. }
  assert (Hin : p ∈ selectedFiles s ->
     selectedFiles (toggleFileSelection p (toggleFileSelection p s))
       = (JsSet.delete (selectedFiles s) p ++ [p])%list).
  { intros Hp. unfold toggleFileSelection at 2.
    pose proof Hp as E%has_true. rewrite E. unfold toggleFileSelection. simpl.
    assert (Hgone : JsSet.has (JsSet.delete (selectedFiles s) p) p = false).
    { apply has_false. rewrite delete_elem. tauto. }
    rewrite Hgone. simpl. unfold JsSet.add. by rewrite Hgone. }
  split_and!; [|done|done].
  intros q. destruct (decide (p ∈ selectedFiles s)) as [Hp|Hp].
  - rewrite (Hin Hp), elem_of_app, delete_elem, list_elem_of_singleton.
    destruct (decide (q = p)) as [->|]; tauto.
  - by rewrite (Hout Hp).
Qed.

Lemma toggleFileSelection_twice_witness :
  selectedFiles
    (toggleFileSelection "/card/a.jpg"
       (toggleFileSelection "/card/a.jpg"
          (setSelectedFiles ["/card/a.jpg"; "/card/b.jpg"] initialPage)))
  = ["/card/b.jpg"; "/card/a.jpg"].
Proof.
  refine (eq_trans (proj2 (proj2 (toggleFileSelection_twice "/card/a.jpg"
            (setSelectedFiles ["/card/a.jpg"; "/card/b.jpg"] initialPage) _)) _) eq_refl).
  - simpl. apply NoDup_cons. split; [by intros [=]%list_elem_of_singleton|apply NoDup_singleton].
  - simpl. apply list_elem_of_here.
Defined.

Lemma selectAllFiles_listed_paths (s : page) p :
  p ∈ JsSet.ofArray (map path (mediaFiles s)) -> p ∈ map path (mediaFiles s).
Proof.
  unfold JsSet.ofArray.
  destruct (fold_add (map path (mediaFiles s)) [] NoDup_nil_2) as (_ & Hel & _).
  rewrite Hel. by intros [?%elem_of_nil|?].
Qed.

(** X3. [selectAllFiles] selects exactly the paths of the listed files,
    each once, whatever was selected before; there are no more selected
    paths than listed files, and when no path is listed twice the selection
    is the list of paths in the order of the scan. *)
Theorem selectAllFiles_selects_listed (s : page) :
  NoDup (selectedFiles (selectAllFiles s)) /\
  (forall p, p ∈ selectedFiles (selectAllFiles s) <-> p ∈ map path (mediaFiles s)) /\
  length (selectedFiles (selectAllFiles s)) <= length (mediaFiles s) /\
  (NoDup (map path (mediaFiles s)) ->
     selectedFiles (selectAllFiles s) = map path (mediaFiles s)).
Proof.
  unfold selectAllFiles, JsSet.ofArray. simpl.
  destruct (fold_add (map path (mediaFiles s)) [] (NoDup_nil_2)) as (Hnd & Hel & Hlen & Heq).
  split_and!; [done| | |done].
  - intros p. rewrite Hel. split; [by intros [?%elem_of_nil|?]|auto].
  - rewrite length_map in Hlen. simpl in Hlen. lia.
Qed.

End SelectionFacts.

(** ** The page from event to event *)

Module WorkflowFacts.
Import Thumbnails Workflow.

(** The selection has no duplicates, and neither has the file list of any
    import. *)
Lemma step_keeps_NoDup e s s' :
  step e s = Some s' ->
  NoDup (selectedFiles s) /\ (forall fs d, (fs, d) ∈ imports s -> NoDup fs) ->
  NoDup (selectedFiles s') /\ (forall fs d, (fs, d) ∈ imports s' -> NoDup fs).
Proof.
  intros Hstep [Hsel Himp].
  destruct e as [[files|]|p| | |[err|]|d| |[err|]|m|failure]; simpl in Hstep.
  - injection Hstep as <-. simpl. split; [apply NoDup_nil_2|done].
  - by injection Hstep as <-.
  - case_bool_decide; [|done]. injection Hstep as <-.
    split; [|by unfold toggleFileSelection; destruct (JsSet.has _ _)].
    unfold toggleFileSelection. destruct (JsSet.has _ _); simpl.
    + by apply SelectionFacts.delete_NoDup.
    + by apply SelectionFacts.add_NoDup.
  - injection Hstep as <-. split; [|done]. simpl.
    apply (SelectionFacts.fold_add _ [] NoDup_nil_2).
  - injection Hstep as <-. split; [apply NoDup_nil_2|done].
  - by injection Hstep as <-.
  - injection Hstep as <-. split; [apply NoDup_nil_2|done].
  - by injection Hstep as <-.
  - destruct (isImporting s); [done|]. injection Hstep as <-.
    unfold importSelectedFiles_begin. by destruct (_ || _).
  - destruct (stage s); try done. by injection Hstep as <-.
  - destruct (stage s); try done. injection Hstep as <-. simpl. split; [done|].
    intros fs d [[= -> ->]|Hin]%elem_of_cons; [done|]. by eapply Himp.
  - by injection Hstep as <-.
  - destruct (stage s); try done. by injection Hstep as <-.
Qed.

(** Short of a failed scan, what is selected is listed. *)
Lemma step_keeps_listed e s s' :
  step e s = Some s' -> isFailedScan e = false ->
  (forall p, p ∈ selectedFiles s -> p ∈ map path (mediaFiles s)) ->
  forall p, p ∈ selectedFiles s' -> p ∈ map path (mediaFiles s').
Proof.
  intros Hstep Hok Hsub.
  destruct e as [[files|]|q| | |[err|]|d| |[err|]|m|failure]; simpl in Hstep; try done.
  - injection Hstep as <-. simpl. by intros p ?%elem_of_nil.
  - case_bool_decide as Hq; [|done]. injection Hstep as <-.
    unfold toggleFileSelection. destruct (JsSet.has _ _); simpl; intros p.
    + intros [Hp _]%SelectionFacts.delete_elem. by apply Hsub.
    + intros [Hp| ->]%SelectionFacts.add_elem; [by apply Hsub|done].
  - injection Hstep as <-. simpl. intros p Hp.
    by apply (SelectionFacts.selectAllFiles_listed_paths s).
  - injection Hstep as <-. simpl. by intros p ?%elem_of_nil.
  - by injection Hstep as <-.
  - injection Hstep as <-. simpl. by intros p ?%elem_of_nil.
  - by injection Hstep as <-.
  - destruct (isImporting s); [done|]. injection Hstep as <-.
    unfold importSelectedFiles_begin. by destruct (_ || _).
  - destruct (stage s); try done. by injection Hstep as <-.
  - destruct (stage s); try done. by injection Hstep as <-.
  - by injection Hstep as <-.
  - destruct (stage s); try done. by injection Hstep as <-.
Qed.

(** X4. Along every run of the page from its start, the selection never
    holds a path twice, and no import is ever invoked with a path twice.  If
    no scan of the run failed, every selected path is the path of a listed
    file. *)
Theorem selection_invariant (es : list event) (s : page) :
  run es initialPage = Some s ->
  NoDup (selectedFiles s) /\
  (forall fs d, (fs, d) ∈ imports s -> NoDup fs) /\
  (forallb (fun e => negb (isFailedScan e)) es = true ->
     forall p, p ∈ selectedFiles s -> p ∈ map path (mediaFiles s)).
Proof.
  assert (Hgen : forall es s0 s,
    run es s0 = Some s ->
    (NoDup (selectedFiles s0) /\ (forall fs d, (fs, d) ∈ imports s0 -> NoDup fs)) ->
    (NoDup (selectedFiles s) /\ (forall fs d, (fs, d) ∈ imports s -> NoDup fs)) /\
    (forallb (fun e => negb (isFailedScan e)) es = true ->
     (forall p, p ∈ selectedFiles s0 -> p ∈ map path (mediaFiles s0)) ->
     forall p, p ∈ selectedFiles s -> p ∈ map path (mediaFiles s))).
  { clear. induction es as [|e es IH]; intros s0 s Hrun Hnd; simpl in Hrun.
    - injection Hrun as <-. by split.
    - destruct (step e s0) as [s1|] eqn:E; [|done]. simpl in Hrun.
      destruct (IH s1 s Hrun (step_keeps_NoDup _ _ _ E Hnd)) as [Hnd' Hsub'].
      split; [done|]. simpl. intros [He Hes]%andb_prop Hsub.
      apply Hsub'; [done|]. eapply step_keeps_listed; [done| |done].
      by apply negb_true_iff. }
  intros Hrun. destruct (Hgen es initialPage s Hrun) as [[Hnd Himp] Hsub].
  { split; [apply NoDup_nil_2|]. by intros fs d ?%elem_of_nil. }
  split_and!; [done|done|]. intros Hok. apply Hsub; [done|]. by intros p ?%elem_of_nil.
Qed.

Lemma selection_invariant_witness :
  NoDup (selectedFiles
    (toggleFileSelection "/card/a.jpg"
      (loadMediaFiles_end
         (Some [mkMediaFile "a.jpg" "/card/a.jpg" 10 0 "jpg" true false]) initialPage))).
Proof.
  refine (proj1 (selection_invariant
    [MediaLoaded (Some [mkMediaFile "a.jpg" "/card/a.jpg" 10 0 "jpg" true false]);
     Toggled "/card/a.jpg"] _ _)).
  reflexivity.
Defined.

(** A scan that fails empties the list and leaves the selection: the paths
    selected before stay selected, and an import would be invoked with
    them. *)
Example failed_scan_keeps_selection :
  (fun s => (selectedFiles s, map path (mediaFiles s))) <$>
    run [MediaLoaded (Some [mkMediaFile "a.jpg" "/card/a.jpg" 10 0 "jpg" true false]);
         Toggled "/card/a.jpg"; MediaLoaded None] initialPage
  = Some (["/card/a.jpg"], []).
Proof. reflexivity. Qed.

(** *** The listener over a whole import *)

Lemma listener_on_status m v :
  isStatusLine m = true ->
  Progress.importProgressListener m v = Progress.View m (Progress.progressPercent v).
Proof.
  unfold isStatusLine, Progress.importProgressListener.
  intros [Hb Hf]%andb_prop. apply negb_true_iff in Hb. apply negb_true_iff in Hf.
  by rewrite Hb, Hf.
Qed.

(** A message with one of the prefixes: the status line stays, and the
    percentage does not depend on the view. *)
Lemma listener_on_progress m v w :
  isStatusLine m = false ->
  Progress.progress (Progress.importProgressListener m v) = Progress.progress v /\
  (Progress.progressPercent v = Progress.progressPercent w ->
   Progress.progressPercent (Progress.importProgressListener m v)
     = Progress.progressPercent (Progress.importProgressListener m w)).
Proof.
  unfold isStatusLine, Progress.importProgressListener. intros H.
  destruct (Js.startsWith m "PROGRESS_BYTES:");
    [|destruct (Js.startsWith m "PROGRESS:"); [|done]];
    destruct (Js.split ":" m) as [|? [|? [|? [|? ?]]]]; simpl; auto.
Qed.

Lemma listener_idempotent m v :
  Progress.importProgressListener m (Progress.importProgressListener m v)
    = Progress.importProgressListener m v.
Proof.
  unfold Progress.importProgressListener.
  destruct (Js.startsWith m "PROGRESS_BYTES:");
    [|destruct (Js.startsWith m "PROGRESS:"); [|done]];
    destruct (Js.split ":" m) as [|? [|? [|? [|? ?]]]]; simpl; auto.
Qed.

Lemma last_cons_default {A} (a d : A) l : List.last (a :: l) d = List.last l a.
Proof.
  revert a d. induction l as [|b l IH]; intros a d; [done|].
  change (List.last (a :: b :: l) d) with (List.last (b :: l) d).
  by rewrite (IH b d), (IH b a).
Qed.

(** X5. Over any sequence of messages of an import, the status line ends as
    the last message that starts with neither prefix (or as it was, if there
    is none), and the percentage ends as it would if those status messages
    had never been sent: progress messages and status messages do not
    disturb each other. *)
Theorem status_and_percentage_are_independent (ms : list string) (v : Progress.view) :
  Progress.progress (fold_left (fun w m => Progress.importProgressListener m w) ms v)
    = List.last (List.filter isStatusLine ms) (Progress.progress v) /\
  Progress.progressPercent (fold_left (fun w m => Progress.importProgressListener m w) ms v)
    = Progress.progressPercent
        (fold_left (fun w m => Progress.importProgressListener m w)
                   (List.filter (fun m => negb (isStatusLine m)) ms) v).
Proof.
  split.
  - revert v. induction ms as [|m ms IH]; intros v; simpl; [done|].
    rewrite IH. destruct (isStatusLine m) eqn:E.
    + rewrite (listener_on_status m v E). simpl Progress.progress.
      by rewrite last_cons_default.
    + by rewrite (proj1 (listener_on_progress m v v E)).
  - assert (Hgen : forall v w, Progress.progressPercent v = Progress.progressPercent w ->
      Progress.progressPercent (fold_left (fun w m => Progress.importProgressListener m w) ms v)
      = Progress.progressPercent
          (fold_left (fun w m => Progress.importProgressListener m w)
                     (List.filter (fun m => negb (isStatusLine m)) ms) w)); [|by apply Hgen].
    induction ms as [|m ms IH]; intros v1 w Hvw; simpl; [done|].
    destruct (isStatusLine m) eqn:E; simpl.
    + apply IH. by rewrite (listener_on_status m v1 E).
    + apply IH. by apply (listener_on_progress m v1 w E).
Qed.

(** *** Listeners left behind *)

Lemma iter_listener n m v :
  Nat.iter (S n) (Progress.importProgressListener m) v = Progress.importProgressListener m v.
Proof.
  induction n as [|n IH]; [done|].
  change (Nat.iter (S (S n)) (Progress.importProgressListener m) v)
    with (Progress.importProgressListener m
            (Nat.iter (S n) (Progress.importProgressListener m) v)).
  by rewrite IH, listener_idempotent.
Qed.

Lemma step_listeners e s s' n :
  step e s = Some s' ->
  (listeners s = n + (if stage s is AwaitInvoke then 1 else 0) /\
   (isImporting s = false -> stage s = Idle)) ->
  listeners s' = (n + (if isFailedImport e then 1 else 0))
                 + (if stage s' is AwaitInvoke then 1 else 0) /\
  (isImporting s' = false -> stage s' = Idle).
Proof.
  intros Hstep [Hn Hidle].
  destruct e as [[files|]|p| | |[err|]|d| |[err|]|m|[err|]]; simpl in Hstep;
    try (injection Hstep as <-; simpl; split; [lia|done]).
  - case_bool_decide; [|done]. injection Hstep as <-.
    unfold toggleFileSelection. destruct (JsSet.has _ _); simpl; split; (lia || done).
  - destruct (isImporting s) eqn:E; [done|]. injection Hstep as <-.
    specialize (Hidle eq_refl). rewrite Hidle in Hn.
    unfold importSelectedFiles_begin. destruct (_ || _); simpl.
    + rewrite Hidle. split; [lia|done].
    + split; [lia|done].
  - destruct (stage s) eqn:E; try done. injection Hstep as <-. simpl. split; [lia|done].
  - destruct (stage s) eqn:E; try done. injection Hstep as <-. simpl. split; [lia|].
    intros H. apply Hidle in H. congruence.
  - destruct (stage s) eqn:E; try done. injection Hstep as <-. simpl. split; [lia|done].
  - destruct (stage s) eqn:E; try done. injection Hstep as <-. simpl. split; [lia|done].
Qed.

(** X6. An import that fails does not call [unlisten()]: along every run
    of the page the number of registered callbacks is the number of imports
    of the run that failed at the command, plus one while an import waits
    for the command.  What the page shows does not suffer: a message
    delivered to any number of callbacks, one at least, leaves the view that
    a single callback would leave. *)
Theorem failed_imports_leave_listeners (es : list event) (s : page) (m : string) :
  run es initialPage = Some s ->
  listeners s = length (List.filter isFailedImport es)
                + (if stage s is AwaitInvoke then 1 else 0) /\
  (1 <= listeners s ->
   shown (deliver m s) = Progress.importProgressListener m (shown s)).
Proof.
  intros Hrun. split.
  - assert (Hgen : forall es s0 s n,
      run es s0 = Some s ->
      (listeners s0 = n + (if stage s0 is AwaitInvoke then 1 else 0) /\
       (isImporting s0 = false -> stage s0 = Idle)) ->
      listeners s = (n + length (List.filter isFailedImport es))
                    + (if stage s is AwaitInvoke then 1 else 0)).
    { clear. induction es as [|e es IH]; intros s0 s n Hrun Hinv; simpl in Hrun.
      - injection Hrun as <-. simpl. destruct Hinv as [-> _]. lia.
      - destruct (step e s0) as [s1|] eqn:E; [|done]. simpl in Hrun.
        rewrite (IH s1 s _ Hrun (step_listeners _ _ _ _ E Hinv)).
        simpl. destruct (isFailedImport e); simpl; lia. }
    by rewrite (Hgen es initialPage s 0 Hrun).
  - intros Hone. unfold deliver. simpl.
    destruct (listeners s) as [|n]; [lia|]. apply iter_listener.
Qed.

(** An import that fails at the command: its callback stays registered. *)
Lemma failed_imports_leave_listeners_witness :
  listeners
    (default initialPage
       (run [MediaLoaded (Some [mkMediaFile "a.jpg" "/card/a.jpg" 10 0 "jpg" true false]);
             AllSelected; DestinationSet "/home/user/Pictures";
             ImportClicked; ListenAnswered None; ImportAnswered (Some "disk full")]
            initialPage))
  = 1.
Proof.
  exact (proj1 (failed_imports_leave_listeners
    [MediaLoaded (Some [mkMediaFile "a.jpg" "/card/a.jpg" 10 0 "jpg" true false]);
     AllSelected; DestinationSet "/home/user/Pictures";
     ImportClicked; ListenAnswered None; ImportAnswered (Some "disk full")] _ "" eq_refl)).
Defined.

End WorkflowFacts.

(** ** What the queue asks of the backend *)

Module RequestFacts.
Import Thumbnails Thumbnails.Sequential.

Lemma occurrences_cons p a l :
  Workflow.occurrences p (a :: l)
    = (if decide (a = p) then 1 else 0) + Workflow.occurrences p l.
Proof. unfold Workflow.occurrences. rewrite filter_cons. by case_decide. Qed.

Lemma generateSingleThumbnail_invoked be a s :
  invoked (generateSingleThumbnail be a s)
    = match getThumbnailFromCache s a with Some _ => invoked s | None => a :: invoked s end.
Proof.
  destruct (getThumbnailFromCache s a) eqn:E.
  - by rewrite (ThumbnailFacts.generateSingleThumbnail_hit _ _ _ _ E).
  - rewrite (ThumbnailFacts.generateSingleThumbnail_miss _ _ _ E). by destruct (be _ a).
Qed.

Lemma generateSingleThumbnail_cache_other be a s p :
  p <> a ->
  getThumbnailFromCache (generateSingleThumbnail be a s) p = getThumbnailFromCache s p.
Proof.
  intros Hne. destruct (getThumbnailFromCache s a) eqn:E.
  - by rewrite (ThumbnailFacts.generateSingleThumbnail_hit _ _ _ _ E).
  - rewrite (ThumbnailFacts.generateSingleThumbnail_miss _ _ _ E).
    unfold getThumbnailFromCache. destruct (be _ a); simpl; [|done].
    by rewrite lookup_insert_ne.
Qed.

Lemma generateSingleThumbnail_cache_same be a s :
  getThumbnailFromCache s a = None ->
  getThumbnailFromCache (generateSingleThumbnail be a s) a
    = match be (length (invoked s)) a with
      | Resolved t => if String.eqb t "" then None else Some t
      | Rejected _ => None
      end.
Proof.
  intros E. rewrite (ThumbnailFacts.generateSingleThumbnail_miss _ _ _ E).
  destruct (be _ a); simpl.
  - unfold getThumbnailFromCache. simpl. by rewrite lookup_insert_eq.
  - exact E.
Qed.

Lemma processQueue_invoked be q : forall s,
  exists l, invoked (processQueue be q s) = (rev l ++ invoked s)%list /\ sublist l q.
Proof.
  induction q as [|a q IH]; intros s; simpl.
  - by exists [].
  - destruct (IH (generateSingleThumbnail be a (setQueue q s))) as (l & Hl & Hsub).
    rewrite generateSingleThumbnail_invoked in Hl.
    change (getThumbnailFromCache (setQueue q s) a) with (getThumbnailFromCache s a) in Hl.
    change (invoked (setQueue q s)) with (invoked s) in Hl.
    destruct (getThumbnailFromCache s a).
    + exists l. split; [done|]. by apply sublist_cons.
    + exists (a :: l). split; [|by apply sublist_skip].
      rewrite Hl. simpl. by rewrite <- app_assoc.
Qed.

Lemma processQueue_invoked_all be q : forall s,
  NoDup q -> (forall p, p ∈ q -> getThumbnailFromCache s p = None) ->
  invoked (processQueue be q s) = (rev q ++ invoked s)%list.
Proof.
  induction q as [|a q IH]; intros s Hnd Hmiss; simpl; [done|].
  apply NoDup_cons in Hnd as [Ha Hnd].
  rewrite IH; [|done|].
  - rewrite generateSingleThumbnail_invoked.
    change (getThumbnailFromCache (setQueue q s) a) with (getThumbnailFromCache s a).
    rewrite (Hmiss a) by apply list_elem_of_here. simpl. by rewrite <- app_assoc.
  - intros p Hp. rewrite generateSingleThumbnail_cache_other by (by intros ->).
    apply Hmiss. by apply list_elem_of_further.
Qed.

Lemma markPending_invoked files : forall s0,
  invoked (fold_left markPending files s0) = invoked s0.
Proof.
  induction files as [|f fs IH]; intros s0; simpl; [done|].
  rewrite IH. unfold markPending. by destruct (is_image f || is_video f).
Qed.

(** X7. A scan asks the backend for thumbnails of its images and videos
    only, in the order of the list, and at most once for each entry of the
    list.  When no path is listed twice among them, every image and every
    video is asked for exactly once, whatever the backend answers. *)
Theorem scan_requests_follow_the_list (be : backend) (files : list MediaFile) (s : page) :
  isGeneratingThumbnails s = false ->
  (exists l, invoked (loadMediaFiles be files s) = (rev l ++ invoked s)%list /\
             sublist l (previewPaths files)) /\
  (NoDup (previewPaths files) ->
   invoked (loadMediaFiles be files s) = (rev (previewPaths files) ++ invoked s)%list).
Proof.
  intros Hidle.
  unfold loadMediaFiles, initializeThumbnailGeneration, startThumbnailGeneration.
  destruct (ThumbnailFacts.resetThumbnails_spec (setMediaFiles files s)) as (Hq & Hc & Hg & _).
  simpl in Hq, Hg. rewrite Hg, Hidle, Hq. simpl.
  assert (Hinv : invoked (resetThumbnails (setMediaFiles files s)) = invoked s)
    by (unfold resetThumbnails; by rewrite markPending_invoked).
  case_bool_decide as Hempty.
  - rewrite Hempty, Hinv. split; [by exists []|done].
  - unfold processNextThumbnail. simpl. rewrite Hq. split.
    + destruct (processQueue_invoked be (previewPaths files)
                  (setGenerating true (resetThumbnails (setMediaFiles files s))))
        as (l & Hl & Hsub).
      exists l. split; [|done]. rewrite Hl. simpl. by rewrite Hinv.
    + intros Hnd. rewrite processQueue_invoked_all; [simpl; by rewrite Hinv|done|].
      intros p _. unfold getThumbnailFromCache. simpl. by rewrite Hc, lookup_empty.
Qed.

Lemma scan_requests_follow_the_list_witness :
  invoked (loadMediaFiles (fun _ p => if String.eqb p "/card/b.jpg" then Rejected "corrupt"
                                      else Resolved ("data:image/jpeg;base64," +:+ p))
             [mkMediaFile "a.jpg" "/card/a.jpg" 10 0 "jpg" true false;
              mkMediaFile "notes.txt" "/card/notes.txt" 10 0 "txt" false false;
              mkMediaFile "b.jpg" "/card/b.jpg" 10 0 "jpg" true false;
              mkMediaFile "c.mp4" "/card/c.mp4" 10 0 "mp4" false true] initialPage)
  = ["/card/c.mp4"; "/card/b.jpg"; "/card/a.jpg"].
Proof.
  refine (proj2 (scan_requests_follow_the_list
    (fun _ p => if String.eqb p "/card/b.jpg" then Rejected "corrupt"
                else Resolved ("data:image/jpeg;base64," +:+ p))
    [mkMediaFile "a.jpg" "/card/a.jpg" 10 0 "jpg" true false;
     mkMediaFile "notes.txt" "/card/notes.txt" 10 0 "txt" false false;
     mkMediaFile "b.jpg" "/card/b.jpg" 10 0 "jpg" true false;
     mkMediaFile "c.mp4" "/card/c.mp4" 10 0 "mp4" false true] initialPage eq_refl) _).
  vm_compute. repeat constructor; set_solver.
Defined.

(** X8. How often the queue asks the backend for one path, with a backend
    that answers by the path alone: never when a payload is cached for the
    path; once, however often the path is queued, when the generation
    succeeds with a payload that is not the empty string; once for every
    occurrence of the path in the queue when the generation fails (a failure
    is not remembered) or gives the empty string. *)
Theorem queue_requests_per_path (f : string -> answer) (q : list string) (s : page)
    (p : string) :
  Workflow.occurrences p (invoked (processQueue (fun _ => f) q s)) =
  Workflow.occurrences p (invoked s) +
  match getThumbnailFromCache s p, f p with
  | Some _, _ => 0
  | None, Resolved t =>
      if String.eqb t "" then Workflow.occurrences p q
      else Nat.min 1 (Workflow.occurrences p q)
  | None, Rejected _ => Workflow.occurrences p q
  end.
Proof.
  revert s. induction q as [|a q IH]; intros s.
  - simpl. destruct (getThumbnailFromCache s p); [lia|].
    destruct (f p) as [t|e]; [destruct (String.eqb t "")|]; unfold Workflow.occurrences; simpl; lia.
  - change (processQueue (fun _ => f) (a :: q) s)
      with (processQueue (fun _ => f) q (generateSingleThumbnail (fun _ => f) a (setQueue q s))).
    rewrite IH, generateSingleThumbnail_invoked, (occurrences_cons p a q).
    change (getThumbnailFromCache (setQueue q s) a) with (getThumbnailFromCache s a).
    change (invoked (setQueue q s)) with (invoked s).
    destruct (decide (a = p)) as [->|Hne].
    + destruct (getThumbnailFromCache s p) as [t|] eqn:E.
      * rewrite (ThumbnailFacts.generateSingleThumbnail_hit _ _ _ t) by exact E.
        change (getThumbnailFromCache (setQueue q s) p) with (getThumbnailFromCache s p).
        rewrite E. lia.
      * rewrite generateSingleThumbnail_cache_same by exact E.
        rewrite (occurrences_cons p p (invoked s)), decide_True by done.
        destruct (f p) as [t|e]; [destruct (String.eqb t "")|]; lia.
    + rewrite generateSingleThumbnail_cache_other by done.
      change (getThumbnailFromCache (setQueue q s) p) with (getThumbnailFromCache s p).
      assert (Hsame : Workflow.occurrences p
                (match getThumbnailFromCache s a with
                 | Some _ => invoked s | None => a :: invoked s end)
              = Workflow.occurrences p (invoked s)).
      { destruct (getThumbnailFromCache s a); [done|].
        by rewrite occurrences_cons, decide_False. }
      rewrite Hsame. destruct (getThumbnailFromCache s p); [lia|].
      destruct (f p) as [t|e]; [destruct (String.eqb t "")|]; lia.
Qed.

End RequestFacts.

(** ** The queue does not stall *)

Module DrainFacts.
Import Thumbnails Thumbnails.Interleaved QueueProgress.

Lemma take_elem t l : t ∈ l -> exists w, take t l = Some w.
Proof.
  induction l as [|x l IH]; [by intros ?%elem_of_nil|].
  intros Hin. simpl. destruct (decide (x = t)) as [->|Hne]; [by eexists|].
  apply elem_of_cons in Hin as [->|Hin]; [done|].
  destruct (IH Hin) as [w ->]. by eexists.
Qed.

Lemma queue_task_waits l :
  queueTaskCount l = 1 -> TimerWait ∈ l \/ exists p, GenWait p ∈ l.
Proof.
  induction l as [|[p| |p] l IH]; simpl; [done| | |].
  - intros _. right. exists p. apply list_elem_of_here.
  - intros _. left. apply list_elem_of_here.
  - intros H. destruct (IH H) as [?|[q ?]]; [left|right; exists q];
      by apply list_elem_of_further.
Qed.

Lemma processNextThumbnail_flagged r :
  flagged r -> flagged (processNextThumbnail r).
Proof.
  unfold flagged, processNextThumbnail. intros Hflag.
  destruct (thumbnailGenerationQueue (ui r)) as [|a q] eqn:Eq; [by simpl; rewrite Eq|].
  unfold generateSingleThumbnail_begin.
  destruct (getThumbnailFromCache _ a); simpl; intros _; by apply Hflag.
Qed.

Lemma step_flagged e r r' : flagged r -> step e r = Some r' -> flagged r'.
Proof.
  intros Hflag. destruct e as [files| |p a|p|p a]; simpl.
  - intros [= <-]. unfold initializeThumbnailGeneration, startThumbnailGeneration. simpl.
    destruct (isGeneratingThumbnails (resetThumbnails (setMediaFiles files (ui r)))) eqn:Ef;
      simpl; [by intros _|].
    case_bool_decide as Hq; [by intros ?|].
    by apply processNextThumbnail_flagged.
  - destruct (take TimerWait (waiting r)) as [w|]; [|done]. simpl. intros [= <-].
    by apply processNextThumbnail_flagged.
  - destruct (take (GenWait p) (waiting r)) as [w|]; [|done]. simpl. intros [= <-].
    unfold flagged in *. by destruct a.
  - unfold getThumbnail_begin. by destruct (getThumbnailFromCache (ui r) p); intros [= <-].
  - destruct (take (GetWait p) (waiting r)) as [w|]; [|done]. simpl.
    unfold flagged in *. by destruct a; intros [= <-].
Qed.

Lemma reachable_flagged r : reachable r -> flagged r.
Proof.
  intros [es Hrun]. assert (Hgen : forall es r0, flagged r0 -> run es r0 = Some r -> flagged r).
  { clear. induction es as [|e es IH]; intros r0 H0; simpl; [by intros [= <-]|].
    destruct (step e r0) as [r1|] eqn:E; [|done]. simpl. apply IH. by eapply step_flagged. }
  apply (Hgen es initialRuntime); [|done]. unfold flagged. simpl. by intros ?.
Qed.

Lemma idle_queue_empty r :
  flagged r -> isGeneratingThumbnails (ui r) = false -> thumbnailGenerationQueue (ui r) = [].
Proof.
  unfold flagged. intros H Ef. destruct (thumbnailGenerationQueue (ui r)); [done|].
  rewrite Ef in H. by specialize (H ltac:(done)).
Qed.

Lemma drains (answers : string -> answer) n : forall r,
  wellFormed r -> flagged r -> workLeft r <= n ->
  exists es r',
    Forall (fun e => e = TimerFired \/ exists p, e = ThumbnailAnswer p (answers p)) es /\
    run es r = Some r' /\
    thumbnailGenerationQueue (ui r') = [] /\ isGeneratingThumbnails (ui r') = false.
Proof.
  induction n as [|n IH]; intros r Hwf Hflag Hwork; unfold workLeft in Hwork;
    destruct (isGeneratingThumbnails (ui r)) eqn:Ef.
  - case_bool_decide; lia.
  - exists [], r. split_and!; [done|done| |done].
    by apply idle_queue_empty.
  - destruct Hwf as [Hcount Hgen]. rewrite Ef in Hcount.
    case_bool_decide as Ht.
    + destruct (take_elem _ _ Ht) as [w Hw].
      assert (Hstep : step TimerFired r = Some (processNextThumbnail (Runtime (ui r) w (delivered r))))
        by (simpl; by rewrite Hw).
      destruct (IH (processNextThumbnail (Runtime (ui r) w (delivered r)))) as (es & r' & Hes & Hrun & Hend).
      * eapply InterleavedFacts.step_wellFormed; [|exact Hstep]. split; [by rewrite Ef|done].
      * by eapply step_flagged.
      * unfold workLeft, processNextThumbnail. simpl.
        destruct (thumbnailGenerationQueue (ui r)) as [|a q]; simpl; [lia|].
        unfold generateSingleThumbnail_begin.
        destruct (getThumbnailFromCache _ a); cbn [ui waiting isGeneratingThumbnails
          thumbnailGenerationQueue setQueue logInvoke bumpForceUpdate setStates];
          rewrite Ef; cbn [length] in Hwork; destruct (bool_decide _); lia.
      * exists (TimerFired :: es), r'. split_and!; [by constructor; [left|]| |apply Hend..].
        by rewrite (InterleavedFacts.run_cons _ _ _ _ Hstep).
    + destruct (queue_task_waits _ Hcount) as [?|[p Hp]]; [done|].
      destruct (take_elem _ _ Hp) as [w Hw].
      assert (Hstep : step (ThumbnailAnswer p (answers p)) r
                = Some (Runtime (generateSingleThumbnail_end p (answers p) (ui r))
                                (TimerWait :: w) (delivered r)))
        by (simpl; by rewrite Hw).
      destruct (IH (Runtime (generateSingleThumbnail_end p (answers p) (ui r))
                            (TimerWait :: w) (delivered r))) as (es & r' & Hes & Hrun & Hend).
      * eapply InterleavedFacts.step_wellFormed; [|exact Hstep]. split; [by rewrite Ef|done].
      * by eapply step_flagged.
      * unfold workLeft. cbn [ui waiting].
        rewrite bool_decide_eq_true_2 by apply list_elem_of_here.
        destruct (answers p); simpl; rewrite Ef; lia.
      * exists (ThumbnailAnswer p (answers p) :: es), r'.
        split_and!; [by constructor; [right; eexists|]| |apply Hend..].
        by rewrite (InterleavedFacts.run_cons _ _ _ _ Hstep).
  - exists [], r. split_and!; [done|done| |done].
    by apply idle_queue_empty.
Qed.

(** X9. The queue does not stall, however scans, answers, timers and
    requests have interleaved: in every runtime that can be reached, queued
    paths mean that [isGeneratingThumbnails] is set, and the flag set means
    that the queue waits for an answer of the backend or for its timer.  And
    whatever the backend answers, answers and timers alone lead to an empty
    queue with the flag cleared. *)
Theorem queue_never_stalls (r : runtime) (answers : string -> answer) :
  reachable r ->
  (thumbnailGenerationQueue (ui r) <> [] -> isGeneratingThumbnails (ui r) = true) /\
  (isGeneratingThumbnails (ui r) = true ->
     TimerWait ∈ waiting r \/ exists p, GenWait p ∈ waiting r) /\
  exists es r',
    Forall (fun e => e = TimerFired \/ exists p, e = ThumbnailAnswer p (answers p)) es /\
    run es r = Some r' /\
    thumbnailGenerationQueue (ui r') = [] /\ isGeneratingThumbnails (ui r') = false.
Proof.
  intros Hreach.
  pose proof (InterleavedFacts.reachable_wellFormed r Hreach) as Hwf.
  pose proof (reachable_flagged r Hreach) as Hflag.
  split_and!; [done| |by eapply drains].
  intros Ef. destruct Hwf as [Hcount _]. rewrite Ef in Hcount. by apply queue_task_waits.
Qed.

(** A scan of two pictures has just arrived: the first picture is at the
    backend and the second is queued. *)
Lemma queue_never_stalls_witness :
  exists es r',
    run es (initializeThumbnailGeneration
              (Runtime (setMediaFiles [mkMediaFile "a.jpg" "/card/a.jpg" 10 0 "jpg" true false;
                                       mkMediaFile "b.jpg" "/card/b.jpg" 10 0 "jpg" true false]
                                      initialPage) [] [])) = Some r' /\
    thumbnailGenerationQueue (ui r') = [] /\ isGeneratingThumbnails (ui r') = false.
Proof.
  destruct (queue_never_stalls
    (initializeThumbnailGeneration
       (Runtime (setMediaFiles [mkMediaFile "a.jpg" "/card/a.jpg" 10 0 "jpg" true false;
                                mkMediaFile "b.jpg" "/card/b.jpg" 10 0 "jpg" true false]
                               initialPage) [] []))
    (fun p => Resolved ("data:image/jpeg;base64," +:+ p)))
    as (_ & _ & es & r' & _ & Hrun & Hend).
  - exists [MediaLoaded [mkMediaFile "a.jpg" "/card/a.jpg" 10 0 "jpg" true false;
                         mkMediaFile "b.jpg" "/card/b.jpg" 10 0 "jpg" true false]].
    reflexivity.
  - exists es, r'. split; [exact Hrun|exact Hend].
Defined.

End DrainFacts.

(** ** When the marking of existing files throws *)

Module DuplicateFacts.
Import Thumbnails Duplicates.

Lemma addExisting_throws (files : list MediaFile) results : forall i (acc : gset string),
  addExisting files results i acc = None <->
  exists j, results !! j = Some true /\ length files <= i + j.
Proof.
  induction results as [|b rest IH]; intros i acc; simpl.
  - split; [done|]. by intros (j & Hj & _).
  - destruct b.
    + destruct (files !! i) as [f|] eqn:Hf.
      * rewrite IH. apply lookup_lt_Some in Hf. split.
        -- intros (j & Hj & Hlen). exists (S j). split; [done|lia].
        -- intros ([|j] & Hj & Hlen); [lia|]. exists j. split; [done|lia].
      * apply lookup_ge_None in Hf. split; [|done]. intros _. exists 0. split; [done|lia].
    + rewrite IH. split.
      * intros (j & Hj & Hlen). exists (S j). split; [done|lia].
      * intros ([|j] & Hj & Hlen); [done|]. exists j. split; [done|lia].
Qed.

(** X10. The marking of existing files throws (and [checkExistingFiles]
    goes to its [catch]) exactly when the answer of the command is an array
    with [true] at a position where the list of files, as it is when the
    answer arrives, has no file; an answer that is not an array never
    throws and marks nothing. *)
Theorem checkExistingFiles_throws (files : list MediaFile) (response : option (list bool)) :
  (checkExistingFiles_end files response = None <->
   exists results j, response = Some results /\ results !! j = Some true /\
                     length files <= j) /\
  checkExistingFiles_end files None = Some ∅.
Proof.
  split; [|done]. unfold checkExistingFiles_end. rewrite addExisting_throws. split.
  - intros (j & Hj & Hlen). destruct response as [results|]; [|done].
    exists results, j. by split_and!.
  - intros (results & j & -> & Hj & Hlen). exists j. by split.
Qed.

Lemma addExisting_positions (files : list MediaFile) results :
  forall i (acc X : gset string),
  addExisting files results i acc = Some X ->
  forall p, p ∈ X <->
    p ∈ acc \/ exists j f, results !! j = Some true /\ files !! (i + j) = Some f /\ path f = p.
Proof.
  induction results as [|b rest IH]; intros i acc X; simpl.
  - intros [= <-] p. split; [auto|]. by intros [?|(j & f & ? & _)].
  - destruct b.
    + destruct (files !! i) as [f|] eqn:Hf; [|done]. intros HX p.
      rewrite (IH _ _ _ HX), elem_of_union, elem_of_singleton. split.
      * intros [[->|?]|(j & f' & Hj & Hf' & Hp)]; [|by left|].
        -- right. exists 0, f. by rewrite Nat.add_0_r.
        -- right. exists (S j), f'. by rewrite Nat.add_succ_r.
      * intros [?|(j & f' & Hj & Hf' & Hp)]; [by left; right|].
        destruct j as [|j]; simpl in Hj.
        -- rewrite Nat.add_0_r in Hf'. simplify_eq. by left; left.
        -- right. exists j, f'. by rewrite Nat.add_succ_r in Hf'.
    + intros HX p. rewrite (IH _ _ _ HX). split.
      * intros [?|(j & f' & Hj & Hf' & Hp)]; [by left|].
        right. exists (S j), f'. by rewrite Nat.add_succ_r.
      * intros [?|(j & f' & Hj & Hf' & Hp)]; [by left|].
        destruct j as [|j]; simpl in Hj; [done|].
        right. exists j, f'. by rewrite Nat.add_succ_r in Hf'.
Qed.

(** X11. When the marking does not throw, the files marked as existing are
    exactly those that stand, in the list of files as it is when the answer
    arrives, at a position where the answer holds [true]: earlier marks are
    gone, and an answer computed for another list marks by position all the
    same. *)
Theorem checkExistingFiles_marks_by_position (files : list MediaFile)
    (response : option (list bool)) (X : gset string) :
  checkExistingFiles_end files response = Some X ->
  forall p, p ∈ X <->
    exists results j f, response = Some results /\ results !! j = Some true /\
                        files !! j = Some f /\ path f = p.
Proof.
  unfold checkExistingFiles_end. intros HX p.
  rewrite (addExisting_positions _ _ _ _ _ HX). split.
  - intros [?%elem_of_empty|(j & f & Hj & Hf & Hp)]; [done|].
    destruct response as [results|]; [|done]. by exists results, j, f.
  - intros (results & j & f & -> & Hj & Hf & Hp). right. by exists j, f.
Qed.

(** The answer for a list of three files arrives when the list holds two
    other files: the file now in second place is marked. *)
Lemma checkExistingFiles_marks_by_position_witness :
  "/card2/y.jpg" ∈ default (∅ : gset string)
    (checkExistingFiles_end
       [mkMediaFile "x.jpg" "/card2/x.jpg" 10 0 "jpg" true false;
        mkMediaFile "y.jpg" "/card2/y.jpg" 10 0 "jpg" true false]
       (Some [false; true; false])).
Proof.
  apply (checkExistingFiles_marks_by_position
    [mkMediaFile "x.jpg" "/card2/x.jpg" 10 0 "jpg" true false;
     mkMediaFile "y.jpg" "/card2/y.jpg" 10 0 "jpg" true false]
    (Some [false; true; false]) _ eq_refl).
  exists [false; true; false], 1, (mkMediaFile "y.jpg" "/card2/y.jpg" 10 0 "jpg" true false).
  by split_and!.
Defined.

End DuplicateFacts.

(** ** The zoom of the preview *)

Module PreviewFacts.
Import Preview.

Lemma SFcompare_antisym x y : SFcompare y x = option_map CompOpp (SFcompare x y).
Proof.
  destruct x as [[]|[]| |[] m1 e1], y as [[]|[]| |[] m2 e2]; simpl; try reflexivity;
    rewrite (Z.compare_antisym e1 e2); destruct (e1 ?= e2)%Z; simpl; try reflexivity;
    rewrite (Pos.compare_cont_antisym m1 m2 Eq); simpl;
    destruct (Pos.compare_cont Eq m1 m2); reflexivity.
Qed.

Lemma not_lt_le x y : x <> S754_nan -> y <> S754_nan -> lt x y = false -> le y x = true.
Proof.
  unfold lt, le, SFltb, SFleb. intros Hx Hy. rewrite (SFcompare_antisym x y).
  destruct (SFcompare x y) as [[]|] eqn:E; simpl; try done.
  by destruct x as [[]|[]| |[] ? ?], y as [[]|[]| |[] ? ?].
Qed.

Lemma lt_le x y : lt x y = true -> le x y = true.
Proof. unfold lt, le, SFltb, SFleb. by destruct (SFcompare x y) as [[]|]. Qed.

Lemma five_value : five = S754_finite false 5629499534213120 (-50).
Proof. vm_compute. reflexivity. Qed.

Lemma fifth_value : fifth = S754_finite false 7205759403792794 (-55).
Proof. vm_compute. reflexivity. Qed.

Lemma tenth_value : tenth = S754_finite false 7205759403792794 (-56).
Proof. vm_compute. reflexivity. Qed.

(** The clamp gives NaN for NaN and a number of the range for any other
    number. *)
Lemma clamp_nan : clamp S754_nan = S754_nan.
Proof. reflexivity. Qed.

Lemma clamp_inRange y : y <> S754_nan -> inRange (clamp y) = true.
Proof.
  intros Hy. unfold clamp, inRange.
  assert (Hmin : Math_min y five = (if lt five y then five else y)).
  { rewrite five_value. by destruct y as [[]|[]| |[] m e]. }
  assert (Hmax : forall m, m <> S754_nan ->
            Math_max fifth m = (if lt fifth m then m else fifth)).
  { intros m Hm. rewrite fifth_value. by destruct m as [[]|[]| |[] ? ?]. }
  rewrite Hmin. destruct (lt five y) eqn:E5.
  - rewrite Hmax by (by rewrite five_value). by vm_compute.
  - rewrite Hmax by done. destruct (lt fifth y) eqn:E2.
    + rewrite (lt_le _ _ E2). simpl. apply not_lt_le; [by rewrite five_value|done|done].
    + by vm_compute.
Qed.

Lemma nan_or_number (z : Js.number) : z = S754_nan \/ z <> S754_nan.
Proof. destruct z; auto. Qed.

Lemma inRange_not_nan z : inRange z = true -> z <> S754_nan.
Proof. intros H ->. by vm_compute in H. Qed.

(** *** A sum with a finite number is NaN only if the other number is *)

Lemma shr_fexp_nonneg m e l :
  (0 <= m)%Z -> (0 <= shr_m (fst (shr_fexp Js.prec Js.emax m e l)))%Z.
Proof.
  intros Hm. unfold shr_fexp, shr.
  assert (Hrec : shr_m (shr_record_of_loc m l) = m) by (destruct l as [|[]]; reflexivity).
  destruct (fexp Js.prec Js.emax (Zdigits2 m + e) - e)%Z as [|d|d]; simpl fst;
    rewrite ?Hrec; try done.
  rewrite JsFacts.iter_shr_1_m by (by rewrite Hrec). rewrite Hrec.
  by apply Z.shiftr_nonneg.
Qed.

Lemma binary_round_aux_not_nan sx m e l :
  (0 <= m)%Z -> binary_round_aux Js.prec Js.emax sx m e l <> S754_nan.
Proof.
  intros Hm. unfold binary_round_aux.
  pose proof (shr_fexp_nonneg m e l Hm) as H1.
  destruct (shr_fexp Js.prec Js.emax m e l) as [mrs' e'] eqn:E1. simpl in H1.
  pose proof (JsFacts.round_nearest_even_ge (shr_m mrs') (loc_of_shr_record mrs')) as Hr.
  pose proof (shr_fexp_nonneg (round_nearest_even (shr_m mrs') (loc_of_shr_record mrs'))
                e' loc_Exact ltac:(lia)) as H2.
  destruct (shr_fexp Js.prec Js.emax (round_nearest_even _ _) e' loc_Exact) as [mrs'' e''].
  simpl in H2. destruct (shr_m mrs'') as [|q|q]; [done| |lia].
  by destruct (Z.leb e'' _).
Qed.

Lemma binary_normalize_not_nan z e sz :
  binary_normalize Js.prec Js.emax z e sz <> S754_nan.
Proof.
  destruct z as [|q|q]; simpl; [done| |]; unfold binary_round;
    destruct (shl_align _ _ _) as [mz ez]; by apply binary_round_aux_not_nan.
Qed.

Lemma add_finite_not_nan x s m e :
  x <> S754_nan -> add x (S754_finite s m e) <> S754_nan.
Proof.
  intros Hx. destruct x as [sx|sx| |sx mx ex]; try done.
  unfold add, SFadd. apply binary_normalize_not_nan.
Qed.

(** *** A sum is a well-formed number

    The rounding leaves a mantissa of at most 53 bits at the exponent that
    belongs to its length. *)

Lemma digits2_pos_bounds q :
  (2 ^ (Zpos (digits2_pos q) - 1) <= Zpos q < 2 ^ Zpos (digits2_pos q))%Z.
Proof.
  split; [apply JsFacts.digits2_pos_bound|].
  induction q as [q IH|q IH|]; simpl digits2_pos; [| |simpl; lia];
    rewrite Pos2Z.inj_succ, Z.pow_succ_r by lia; lia.
Qed.

Lemma digits2_pos_unique q d :
  (2 ^ (d - 1) <= Zpos q < 2 ^ d)%Z -> Zpos (digits2_pos q) = d.
Proof.
  intros [Hlo Hhi]. destruct (digits2_pos_bounds q) as [Hlo' Hhi'].
  assert (0 < d)%Z.
  { destruct (Z.lt_trichotomy d 0) as [Hd|[->|Hd]]; [|simpl in Hhi; lia|done].
    rewrite Z.pow_neg_r in Hhi by done. lia. }
  destruct (Z.lt_trichotomy (Zpos (digits2_pos q)) d) as [Hlt|[Heq|Hgt]]; [|done|].
  - assert (2 ^ Zpos (digits2_pos q) <= 2 ^ (d - 1))%Z by (apply Z.pow_le_mono_r; lia). lia.
  - assert (2 ^ d <= 2 ^ (Zpos (digits2_pos q) - 1))%Z by (apply Z.pow_le_mono_r; lia). lia.
Qed.

Lemma digits2_pos_le q1 q2 :
  (Zpos q1 <= Zpos q2)%Z -> (Zpos (digits2_pos q1) <= Zpos (digits2_pos q2))%Z.
Proof.
  intros Hle. destruct (digits2_pos_bounds q1) as [Hlo _].
  destruct (digits2_pos_bounds q2) as [_ Hhi].
  assert (Hlt : (2 ^ (Zpos (digits2_pos q1) - 1) < 2 ^ Zpos (digits2_pos q2))%Z) by lia.
  apply Z.pow_lt_mono_r_iff in Hlt; lia.
Qed.

Lemma digits2_pos_shiftr q n q' :
  (0 <= n)%Z -> Z.shiftr (Zpos q) n = Zpos q' ->
  Zpos (digits2_pos q') = (Zpos (digits2_pos q) - n)%Z.
Proof.
  intros Hn Hq'. rewrite Z.shiftr_div_pow2 in Hq' by done.
  destruct (digits2_pos_bounds q) as [Hlo Hhi].
  assert (Hpow : (0 < 2 ^ n)%Z) by (apply Z.pow_pos_nonneg; lia).
  assert (Hnd : (n < Zpos (digits2_pos q))%Z).
  { destruct (Z.lt_ge_cases n (Zpos (digits2_pos q))) as [?|Hge]; [done|].
    assert (2 ^ Zpos (digits2_pos q) <= 2 ^ n)%Z by (apply Z.pow_le_mono_r; lia).
    rewrite Z.div_small in Hq' by lia. done. }
  apply digits2_pos_unique. rewrite <- Hq'. split.
  - apply Z.div_le_lower_bound; [done|].
    rewrite <- Z.pow_add_r by lia.
    replace (n + (Zpos (digits2_pos q) - n - 1))%Z with (Zpos (digits2_pos q) - 1)%Z by lia.
    done.
  - apply Z.div_lt_upper_bound; [done|].
    rewrite <- Z.pow_add_r by lia.
    replace (n + (Zpos (digits2_pos q) - n))%Z with (Zpos (digits2_pos q)) by lia.
    done.
Qed.

Lemma shr_fexp_canonical q e l q' :
  (e <= fexp Js.prec Js.emax (Zpos (digits2_pos q) + e))%Z ->
  shr_m (fst (shr_fexp Js.prec Js.emax (Zpos q) e l)) = Zpos q' ->
  snd (shr_fexp Js.prec Js.emax (Zpos q) e l)
    = fexp Js.prec Js.emax (Zpos (digits2_pos q) + e) /\
  canonical_mantissa Js.prec Js.emax q' (snd (shr_fexp Js.prec Js.emax (Zpos q) e l)) = true.
Proof.
  intros He. unfold shr_fexp, shr, canonical_mantissa. simpl Zdigits2.
  assert (Hrec : shr_m (shr_record_of_loc (Zpos q) l) = Zpos q)
    by (destruct l as [|[]]; reflexivity).
  destruct (fexp Js.prec Js.emax (Zpos (digits2_pos q) + e) - e)%Z as [|d|d] eqn:En;
    simpl fst; simpl snd; [| |lia].
  - rewrite Hrec. intros [= <-]. split; [lia|]. apply Z.eqb_eq. lia.
  - rewrite JsFacts.iter_shr_1_m by (rewrite Hrec; lia). rewrite Hrec. intros Hq'.
    split; [lia|]. apply Z.eqb_eq.
    rewrite (digits2_pos_shiftr q (Zpos d) q') by (done || lia).
    replace (Zpos (digits2_pos q) - Zpos d + (e + Zpos d))%Z
      with (Zpos (digits2_pos q) + e)%Z by lia.
    lia.
Qed.

Lemma shr_fexp_exponent m e l :
  (0 <= m)%Z -> (e <= fexp Js.prec Js.emax (Zdigits2 m + e))%Z ->
  snd (shr_fexp Js.prec Js.emax m e l) = fexp Js.prec Js.emax (Zdigits2 m + e).
Proof.
  intros Hm He. unfold shr_fexp, shr.
  destruct (fexp Js.prec Js.emax (Zdigits2 m + e) - e)%Z as [|d|d] eqn:En; simpl snd; lia.
Qed.

Lemma shr_fexp_zero q e l :
  shr_m (fst (shr_fexp Js.prec Js.emax (Zpos q) e l)) = 0%Z ->
  (Zpos (digits2_pos q) + e <= fexp Js.prec Js.emax (Zpos (digits2_pos q) + e))%Z.
Proof.
  unfold shr_fexp, shr. simpl Zdigits2.
  assert (Hrec : shr_m (shr_record_of_loc (Zpos q) l) = Zpos q)
    by (destruct l as [|[]]; reflexivity).
  destruct (fexp Js.prec Js.emax (Zpos (digits2_pos q) + e) - e)%Z as [|d|d] eqn:En;
    simpl fst; rewrite ?Hrec; try done.
  rewrite JsFacts.iter_shr_1_m by (rewrite Hrec; lia). rewrite Hrec. intros Hz.
  destruct (Z.lt_ge_cases (Zpos d) (Zpos (digits2_pos q))) as [Hlt|Hge]; [|lia].
  pose proof (JsFacts.shiftr_positive q (Zpos d) ltac:(lia)). lia.
Qed.

Lemma shr_fexp_of_zero e l : shr_m (fst (shr_fexp Js.prec Js.emax 0 e l)) = 0%Z.
Proof.
  unfold shr_fexp, shr.
  assert (Hrec : shr_m (shr_record_of_loc 0 l) = 0%Z) by (destruct l as [|[]]; reflexivity).
  destruct (fexp Js.prec Js.emax (Zdigits2 0 + e) - e)%Z as [|d|d]; simpl fst; try done.
  rewrite JsFacts.iter_shr_1_m by (by rewrite Hrec). rewrite Hrec. apply Z.shiftr_0_l.
Qed.

Lemma binary_round_aux_valid sx q e l :
  (e <= fexp Js.prec Js.emax (Zpos (digits2_pos q) + e))%Z ->
  valid_binary Js.prec Js.emax (binary_round_aux Js.prec Js.emax sx (Zpos q) e l) = true.
Proof.
  intros He. unfold binary_round_aux.
  pose proof (shr_fexp_nonneg (Zpos q) e l ltac:(lia)) as H1.
  pose proof (shr_fexp_exponent (Zpos q) e l ltac:(lia) He) as He1.
  pose proof (shr_fexp_canonical q e l) as Hc1.
  pose proof (shr_fexp_zero q e l) as Hz1.
  destruct (shr_fexp Js.prec Js.emax (Zpos q) e l) as [mrs' e'] eqn:E1.
  simpl in H1, He1, Hc1, Hz1.
  pose proof (JsFacts.round_nearest_even_ge (shr_m mrs') (loc_of_shr_record mrs')) as Hr.
  destruct (round_nearest_even (shr_m mrs') (loc_of_shr_record mrs')) as [|q1|q1] eqn:Em1;
    [| |lia].
  - pose proof (shr_fexp_of_zero e' loc_Exact) as Hz2.
    destruct (shr_fexp Js.prec Js.emax 0 e' loc_Exact) as [mrs'' e'']. simpl in Hz2.
    by rewrite Hz2.
  - assert (He2 : (e' <= fexp Js.prec Js.emax (Zpos (digits2_pos q1) + e'))%Z).
    { destruct (shr_m mrs') as [|q0|q0] eqn:Em; [| |lia].
      - specialize (Hz1 eq_refl). pose proof (Pos2Z.is_pos (digits2_pos q1)).
        simpl Zdigits2 in He1.
        unfold fexp, emin, Js.prec, Js.emax in *. lia.
      - destruct (Hc1 q0 He eq_refl) as [_ Hcan]. unfold canonical_mantissa in Hcan.
        apply Z.eqb_eq in Hcan.
        pose proof (digits2_pos_le q0 q1 ltac:(lia)) as Hd.
        unfold fexp, emin, Js.prec, Js.emax in *. lia. }
    pose proof (shr_fexp_canonical q1 e' loc_Exact) as Hc2.
    destruct (shr_fexp Js.prec Js.emax (Zpos q1) e' loc_Exact) as [mrs'' e''] eqn:E2.
    simpl in Hc2. destruct (shr_m mrs'') as [|q2|q2] eqn:Em2; [done| |done].
    destruct (Hc2 q2 He2 eq_refl) as [_ Hcan].
    destruct (Z.leb e'' (Js.emax - Js.prec)) eqn:Ele; [|done].
    simpl. unfold bounded. by rewrite Hcan, Ele.
Qed.

Lemma iter_xO_digits q d :
  Zpos (digits2_pos (Pos.iter xO q d)) = (Zpos (digits2_pos q) + Zpos d)%Z.
Proof.
  induction d as [|d IH] using Pos.peano_ind.
  - simpl. lia.
  - rewrite Pos.iter_succ. simpl digits2_pos. rewrite Pos2Z.inj_succ, IH. lia.
Qed.

Lemma binary_round_valid sx q e :
  valid_binary Js.prec Js.emax (binary_round Js.prec Js.emax sx q e) = true.
Proof.
  unfold binary_round, shl_align.
  destruct (fexp Js.prec Js.emax (Zpos (digits2_pos q) + e) - e)%Z as [|d|d] eqn:En;
    apply binary_round_aux_valid; try lia.
  rewrite iter_xO_digits.
  replace (Zpos (digits2_pos q) + Zpos d
           + fexp Js.prec Js.emax (Zpos (digits2_pos q) + e))%Z
    with (Zpos (digits2_pos q) + e)%Z by lia.
  lia.
Qed.

Lemma add_valid x y :
  valid_binary Js.prec Js.emax x = true -> valid_binary Js.prec Js.emax y = true ->
  valid_binary Js.prec Js.emax (add x y) = true.
Proof.
  intros Hx Hy. unfold add, SFadd.
  destruct x as [[]|[]| |sx mx ex], y as [[]|[]| |sy my ey]; try done.
  destruct (cond_Zopp sx _ + cond_Zopp sy _)%Z as [|q|q]; simpl binary_normalize;
    [done|apply binary_round_valid..].
Qed.

(** A well-formed number: the mantissa and the exponent of a double. *)
Lemma clamp_valid y :
  valid_binary Js.prec Js.emax y = true -> valid_binary Js.prec Js.emax (clamp y) = true.
Proof.
  intros Hy. unfold clamp.
  assert (Hmin : valid_binary Js.prec Js.emax (Math_min y five) = true).
  { rewrite five_value. destruct y as [[]|[]| |[] m e]; try done;
      unfold Math_min; by destruct (lt _ _). }
  revert Hmin. generalize (Math_min y five). intros m Hm. rewrite fifth_value.
  destruct m as [[]|[]| |[] q e]; try done; unfold Math_max; by destruct (lt _ _).
Qed.

Lemma wheel_zoom x y l t d v :
  inRange (zoom v) = true /\ isDouble (zoom v) = true ->
  inRange (zoom (handleWheel x y l t d v)) = true /\
  isDouble (zoom (handleWheel x y l t d v)) = true.
Proof.
  intros [Hv Hd]. unfold handleWheel. cbn [zoom]. split.
  - apply clamp_inRange.
    destruct (lt d Js.pos_zero); [rewrite tenth_value|rewrite tenth_value; simpl neg];
      by apply add_finite_not_nan, inRange_not_nan.
  - apply clamp_valid, add_valid; [done|].
    destruct (lt d Js.pos_zero); by vm_compute.
Qed.

(** Every handler but the move of two fingers keeps the zoom in its range;
    that move gives a zoom of the range or NaN. *)
Lemma step_zoom v e :
  (isPinch e = false ->
   inRange (zoom v) = true /\ isDouble (zoom v) = true ->
   inRange (zoom (step v e)) = true /\ isDouble (zoom (step v e)) = true) /\
  (zoom (step v e) = S754_nan \/ inRange (zoom (step v e)) = true \/
   zoom (step v e) = zoom v).
Proof.
  destruct e as [x y l t d|ts|ts|ts|b x y|x y| |]; simpl step.
  - split; [intros _; apply wheel_zoom|].
    destruct (nan_or_number (zoom v)) as [Hn|Hn].
    + left. unfold handleWheel. cbn [zoom]. by rewrite Hn.
    + right; left. unfold handleWheel. cbn [zoom]. apply clamp_inRange.
      destruct (lt d Js.pos_zero); [rewrite tenth_value|rewrite tenth_value; simpl neg];
        by apply add_finite_not_nan.
  - split; [|right; right]; by destruct ts as [|t0 [|t1 [|t2 ts]]].
  - destruct ts as [|t0 [|t1 [|t2 ts]]]; cbn [handleTouchMove isPinch];
      try (split; [done|by right; right]).
    + split; [|right; right]; by destruct (isPanning v).
    + cbn [zoom]. split; [done|].
      destruct (nan_or_number
                  (Js.mul (zoom v) (Js.div (distance t0 t1) (lastTouchDistance v))))
        as [Hn|Hn].
      * left. by rewrite Hn.
      * right; left. by apply clamp_inRange.
  - split; [|right; right]; by destruct ts.
  - unfold mouseDown. split; [|right; right]; by destruct (b =? 0)%Z.
  - unfold mouseMove. split; [|right; right]; by destruct (isPanning v).
  - split; [done|by right; right].
  - split; [done|by right; right].
Qed.

(** X12. The zoom of the preview starts at 1 and, whatever events reach
    the handlers, is afterwards a number between 0.2 and 5 or NaN.  As long
    as no move of two fingers has occurred it is a well-formed number
    between 0.2 and 5: the wheel, the mouse and one finger never take it out
    of the range. *)
Theorem zoom_stays_in_range (es : list event) :
  (zoom (run es initialView) = Js.NaN \/ inRange (zoom (run es initialView)) = true) /\
  (forallb (fun e => negb (isPinch e)) es = true ->
   inRange (zoom (run es initialView)) = true /\
   isDouble (zoom (run es initialView)) = true).
Proof.
  assert (Hgen : forall es v,
    (zoom v = Js.NaN \/ inRange (zoom v) = true) ->
    (zoom (run es v) = Js.NaN \/ inRange (zoom (run es v)) = true) /\
    (forallb (fun e => negb (isPinch e)) es = true ->
     inRange (zoom v) = true /\ isDouble (zoom v) = true ->
     inRange (zoom (run es v)) = true /\ isDouble (zoom (run es v)) = true)).
  { clear. induction es as [|e es IH]; intros v Hv; [by split|].
    change (run (e :: es) v) with (run es (step v e)).
    destruct (step_zoom v e) as [Hkeep Hany].
    destruct (IH (step v e)) as [H1 H2].
    { destruct Hany as [?|[?|Heq]]; [by left|by right|by rewrite Heq]. }
    split; [done|]. simpl. intros [He Hes]%andb_prop Hin.
    apply H2; [done|]. apply Hkeep; [by apply negb_true_iff|done]. }
  destruct (Hgen es initialView) as [H1 H2]; [right; by vm_compute|].
  split; [done|]. intros Hes. apply H2; [done|by vm_compute].
Qed.

(** Two fingers that touch and move at one and the same point: the zoom is
    NaN. *)
Example pinch_at_one_point :
  zoom (run [TouchStart [(Js.of_N 100, Js.of_N 80); (Js.of_N 100, Js.of_N 80)];
             TouchMove [(Js.of_N 100, Js.of_N 80); (Js.of_N 100, Js.of_N 80)]] initialView)
  = Js.NaN.
Proof. by vm_compute. Qed.

End PreviewFacts.

(** ** The installer script *)

Module InstallerFacts.
Import Installer.

Ltac unfold_script :=
  unfold main, script, checkInstalled, installOn, detectPackageManager, installWith,
    tryCatch, execSync, log, logError, exit, mbind, M_bind, mret, M_ret.

Ltac answer_commands sh :=
  repeat match goal with
         | |- context [sh ?h ?c] =>
             let E := fresh "E" in destruct (sh h c) eqn:E; cbn -[String.append]
         end.

(** X13. The script ends with exit code 0 or 1, and with 0 exactly when
    the last command it has run is [ffmpeg -version] and that command has
    succeeded: whatever the platform and whatever the commands answer, it
    does not report success without FFmpeg answering. *)
Theorem exit_code_tells_ffmpeg_runs (sh : shell) (platform : string) :
  (fst (main sh platform) = 0 \/ fst (main sh platform) = 1) /\
  (fst (main sh platform) = 0 <->
   exists before output,
     commands (snd (main sh platform)) = "ffmpeg -version" :: before /\
     sh before "ffmpeg -version" = inl output).
Proof.
  unfold_script. cbn -[String.append].
  destruct (sh [] "ffmpeg -version") as [out0|msg0] eqn:E0; cbn -[String.append].
  - split; [by left|]. split; [|done]. intros _. by exists [], out0.
  - destruct (String.eqb platform "win32"); [|destruct (String.eqb platform "darwin");
      [|destruct (String.eqb platform "linux")]]; cbn -[String.append];
      answer_commands sh;
      (split; [auto|]); (split; [intros Hc; try discriminate Hc; by eexists _, _|]);
      intros (before & output & Heq & Hsh); try reflexivity; exfalso;
      simplify_eq; congruence.
Qed.

Ltac use_answers sh :=
  unfold succeeds, probes, probe; cbn; cbv [String.append];
  repeat match goal with
         | H : sh ?h ?c = _ |- context [sh ?h ?c] => rewrite H
         end;
  try reflexivity.

Ltac failed_probes sh j Hlook :=
  do 4 (destruct j as [|j]; [try lia; cbn in Hlook; simplify_eq; use_answers sh|]);
  try lia; try (by cbn in Hlook).

Ltac installs_with sh k :=
  left; exists k; eexists _, _, _;
  split; [reflexivity|];
  split; [intros j ? ? ? Hlook; failed_probes sh j Hlook|];
  split; [use_answers sh|];
  split; [reflexivity|auto].

(** X14. On Linux, when FFmpeg is not there, the script looks for apt,
    dnf, yum and pacman in this order, stops at the first that answers, and
    runs the install command of that package manager and of no other, then
    at most the check of FFmpeg.  When none answers it exits with code 1 and
    has run nothing but the probes. *)
Theorem linux_installs_with_first_manager (sh : shell) :
  succeeds sh [] "ffmpeg -version" = false ->
  (exists k pm cmd rest,
     installCommands !! k = Some (pm, cmd) /\
     (forall j pm' cmd', j < k -> installCommands !! j = Some (pm', cmd') ->
        succeeds sh ("ffmpeg -version" :: probes j) (probe pm') = false) /\
     succeeds sh ("ffmpeg -version" :: probes k) (probe pm) = true /\
     rev (commands (snd (main sh "linux")))
       = ("ffmpeg -version" :: probes (S k) ++ cmd :: rest)%list /\
     (rest = [] \/ rest = ["ffmpeg -version"])) \/
  (fst (main sh "linux") = 1 /\
   (forall j pm' cmd', installCommands !! j = Some (pm', cmd') ->
      succeeds sh ("ffmpeg -version" :: probes j) (probe pm') = false) /\
   rev (commands (snd (main sh "linux"))) = "ffmpeg -version" :: probes 4).
Proof.
  unfold succeeds at 1. cbn. intros E0.
  destruct (sh [] "ffmpeg -version") as [out0|msg0] eqn:E0'; [done|]. clear E0.
  unfold_script. cbn -[String.append]. rewrite E0'. cbn -[String.append].
  destruct (sh ["ffmpeg -version"] "apt --version") eqn:Ea; cbn -[String.append].
  { answer_commands sh; installs_with sh 0. }
  destruct (sh ["apt --version"; "ffmpeg -version"] "dnf --version") eqn:Ed;
    cbn -[String.append].
  { answer_commands sh; installs_with sh 1. }
  destruct (sh ["dnf --version"; "apt --version"; "ffmpeg -version"] "yum --version") eqn:Ey;
    cbn -[String.append].
  { answer_commands sh; installs_with sh 2. }
  destruct (sh ["yum --version"; "dnf --version"; "apt --version"; "ffmpeg -version"]
               "pacman --version") eqn:Ep; cbn -[String.append].
  { answer_commands sh; installs_with sh 3. }
  right. split; [reflexivity|]. split; [|reflexivity].
  intros j ? ? Hlook. failed_probes sh j Hlook.
Qed.

(** A machine with dnf only, where the installation works. *)
Lemma linux_installs_with_first_manager_witness :
  (exists k pm cmd rest,
     installCommands !! k = Some (pm, cmd) /\
     (forall j pm' cmd', j < k -> installCommands !! j = Some (pm', cmd') ->
        succeeds dnfMachine ("ffmpeg -version" :: probes j) (probe pm') = false) /\
     succeeds dnfMachine ("ffmpeg -version" :: probes k) (probe pm) = true /\
     rev (commands (snd (main dnfMachine "linux")))
       = ("ffmpeg -version" :: probes (S k) ++ cmd :: rest)%list /\
     (rest = [] \/ rest = ["ffmpeg -version"])) \/
  (fst (main dnfMachine "linux") = 1 /\
   (forall j pm' cmd', installCommands !! j = Some (pm', cmd') ->
      succeeds dnfMachine ("ffmpeg -version" :: probes j) (probe pm') = false) /\
   rev (commands (snd (main dnfMachine "linux"))) = "ffmpeg -version" :: probes 4).
Proof. exact (linux_installs_with_first_manager dnfMachine eq_refl). Defined.

(** On that machine the script runs five commands and exits with 0. *)
Example dnf_machine_run :
  main dnfMachine "linux"
  = (0, World ["ffmpeg -version"; "sudo dnf install -y ffmpeg"; "dnf --version";
               "apt --version"; "ffmpeg -version"]
              [(Out, "ffmpeg version 6.1"); (Out, "Installed FFmpeg version:");
               (Out, "FFmpeg installed successfully!");
               (Out, "Installing FFmpeg on Linux...");
               (Out, "FFmpeg is not installed or not in PATH. Installing...");
               (Out, "Detected platform: linux")]).
Proof. reflexivity. Qed.

Ltac choose_reason :=
  first [ by left
        | by right; right
        | right; left;
          by repeat first [apply list_elem_of_here | apply list_elem_of_further] ].

Ltac check_command sh Hlook Hfail :=
  cbn in Hlook; simplify_eq;
  unfold succeeds in Hfail; cbn in Hfail;
  repeat match type of Hfail with
         | context [sh ?h ?c] =>
             match goal with H : sh h c = _ |- _ => rewrite H in Hfail end
         end;
  first [ discriminate Hfail | choose_reason ].

Ltac check_commands sh :=
  let i := fresh "i" in
  let c := fresh "c" in
  let Hlook := fresh "Hlook" in
  let Hfail := fresh "Hfail" in
  intros i c Hlook Hfail;
  do 8 (destruct i as [|i]; [check_command sh Hlook Hfail|]);
  by cbn in Hlook.

(** X15. On every platform, a command that fails ends the installation,
    unless it is one of the probes: the first [ffmpeg -version] or the
    [--version] call that looks for a package manager.  No later step is run
    after a failed step. *)
Theorem failed_step_ends_the_script (sh : shell) (platform : string) (i : nat)
    (command : string) :
  rev (commands (snd (main sh platform))) !! i = Some command ->
  succeeds sh (take i (rev (commands (snd (main sh platform))))) command = false ->
  (i = 0 /\ command = "ffmpeg -version") \/
  command ∈ ["brew --version"; "apt --version"; "dnf --version"; "yum --version";
             "pacman --version"] \/
  S i = length (commands (snd (main sh platform))).
Proof.
  revert i command. unfold_script. cbn.
  destruct (sh [] "ffmpeg -version") as [out0|msg0] eqn:E0; cbn.
  - check_commands sh.
  - destruct (String.eqb platform "win32"); [|destruct (String.eqb platform "darwin");
      [|destruct (String.eqb platform "linux")]]; cbn;
      answer_commands sh; check_commands sh.
Qed.

(** On a machine without a package manager the four probes fail, and the
    last of them is the last command. *)
Lemma failed_step_ends_the_script_witness :
  (3 = 0 /\ "yum --version" = "ffmpeg -version") \/
  "yum --version" ∈ ["brew --version"; "apt --version"; "dnf --version"; "yum --version";
                     "pacman --version"] \/
  4 = length (commands (snd (main (fun _ command => inr ("Command failed: " +:+ command))
                                  "linux"))).
Proof.
  exact (failed_step_ends_the_script
           (fun _ command => inr ("Command failed: " +:+ command)) "linux" 3 "yum --version"
           eq_refl eq_refl).
Defined.

End InstallerFacts.

(** ** A stored thumbnail and the answers that arrive after it *)

Module ReuseFacts.
Import Thumbnails Thumbnails.Interleaved Reuse.

Lemma inFlight_elem r q :
  q ∈ inFlight r <-> GenWait q ∈ waiting r \/ GetWait q ∈ waiting r.
Proof.
  unfold inFlight. induction (waiting r) as [|x l IH]; csimpl.
  - split; [by intros ?%elem_of_nil|]. by intros [?%elem_of_nil|?%elem_of_nil].
  - destruct x as [a| |a]; rewrite ?elem_of_cons, IH;
      split; intros H; destruct_or?; simplify_eq; auto.
Qed.

Lemma stored_payload_read s p t :
  t <> "" -> thumbnailCache s !! p = Some t -> getThumbnailFromCache s p = Some t.
Proof. intros Ht Hp. by apply ThumbnailFacts.cache_read. Qed.

(** A step that is not a scan, with an answer that agrees: the payload stays
    and the backend is not invoked for the path. *)
Lemma step_keeps_payload p t e r r' :
  t <> "" -> thumbnailCache (ui r) !! p = Some t ->
  isReset e = false -> agrees p t e -> step e r = Some r' ->
  thumbnailCache (ui r') !! p = Some t /\
  exists new, invoked (ui r') = (new ++ invoked (ui r))%list /\ p ∉ new.
Proof.
  intros Ht Hp Hreset Hagree.
  pose proof (stored_payload_read _ _ _ Ht Hp) as Hhit.
  destruct e as [files| |q a|q|q a]; simpl; [done| | | |].
  - destruct (take TimerWait (waiting r)) as [w|]; [|done]. simpl. intros [= <-].
    unfold processNextThumbnail. cbn [ui waiting delivered].
    destruct (thumbnailGenerationQueue (ui r)) as [|a q'].
    + split; [done|]. exists []. split; [done|apply not_elem_of_nil].
    + unfold generateSingleThumbnail_begin.
      change (getThumbnailFromCache (setQueue q' (ui r)) a)
        with (getThumbnailFromCache (ui r) a).
      destruct (getThumbnailFromCache (ui r) a) eqn:E; cbn [ui].
      * split; [done|]. exists []. split; [done|apply not_elem_of_nil].
      * split; [done|]. exists [a]. split; [done|].
        intros ->%list_elem_of_singleton. congruence.
  - destruct (take (GenWait q) (waiting r)) as [w|]; [|done]. simpl. intros [= <-].
    cbn [ui]. destruct a as [t'|err]; simpl.
    + split; [|exists []; split; [done|apply not_elem_of_nil]].
      destruct (decide (q = p)) as [->|Hne]; [|by rewrite lookup_insert_ne].
      destruct (Hagree eq_refl) as [[= ->]|[err [=]]]. apply lookup_insert_eq.
    + split; [done|]. exists []. split; [done|apply not_elem_of_nil].
  - unfold getThumbnail_begin.
    destruct (getThumbnailFromCache (ui r) q) eqn:E; intros [= <-]; cbn [ui].
    + split; [done|]. exists []. split; [done|apply not_elem_of_nil].
    + split; [done|]. exists [q]. split; [done|].
      intros ->%list_elem_of_singleton. congruence.
  - destruct (take (GetWait q) (waiting r)) as [w|]; [|done]. simpl.
    destruct a as [t'|err]; simpl; intros [= <-]; simpl.
    + split; [|exists []; split; [done|apply not_elem_of_nil]].
      destruct (decide (q = p)) as [->|Hne]; [|by rewrite lookup_insert_ne].
      destruct (Hagree eq_refl) as [[= ->]|[err [=]]]. apply lookup_insert_eq.
    + split; [done|]. exists []. split; [done|apply not_elem_of_nil].
Qed.

(** With the payload stored and no generation of the path in flight, no
    answer for the path can arrive and no generation of it starts. *)
Lemma step_not_in_flight p t e r r' :
  t <> "" -> thumbnailCache (ui r) !! p = Some t ->
  p ∉ inFlight r -> isReset e = false -> step e r = Some r' ->
  agrees p t e /\ p ∉ inFlight r'.
Proof.
  intros Ht Hp Hfree Hreset.
  pose proof (stored_payload_read _ _ _ Ht Hp) as Hhit.
  rewrite inFlight_elem in Hfree. rewrite inFlight_elem.
  destruct e as [files| |q a|q|q a]; simpl; [done| | | |].
  - destruct (take TimerWait (waiting r)) as [w|] eqn:Ew; [|done]. simpl. intros [= <-].
    apply InterleavedFacts.take_spec in Ew as (_ & Hsub & _).
    split; [done|]. unfold processNextThumbnail. cbn [ui waiting delivered].
    destruct (thumbnailGenerationQueue (ui r)) as [|a q'].
    + cbn [waiting]. intros [?|?]; apply Hfree; [left|right]; by apply Hsub.
    + unfold generateSingleThumbnail_begin.
      change (getThumbnailFromCache (setQueue q' (ui r)) a)
        with (getThumbnailFromCache (ui r) a).
      destruct (getThumbnailFromCache (ui r) a) eqn:E; cbn [waiting];
        rewrite !elem_of_cons; intros [[?|?]|[?|?]]; simplify_eq;
        apply Hfree; [left|right|left|right]; by apply Hsub.
  - destruct (take (GenWait q) (waiting r)) as [w|] eqn:Ew; [|done]. simpl. intros [= <-].
    apply InterleavedFacts.take_spec in Ew as (Hin & Hsub & _).
    split.
    + intros ->. destruct Hfree. by left.
    + cbn [waiting]. rewrite !elem_of_cons. intros [[?|?]|[?|?]]; simplify_eq;
        apply Hfree; [left|right]; by apply Hsub.
  - unfold getThumbnail_begin.
    destruct (getThumbnailFromCache (ui r) q) eqn:E; intros [= <-]; (split; [done|]);
      cbn [waiting]; [done|].
    rewrite !elem_of_cons. intros [[?|?]|[?|?]]; simplify_eq; apply Hfree; auto.
  - destruct (take (GetWait q) (waiting r)) as [w|] eqn:Ew; [|done]. simpl.
    apply InterleavedFacts.take_spec in Ew as (Hin & Hsub & _).
    destruct a as [t'|err]; simpl; intros [= <-]; (split; [intros ->; destruct Hfree; by right|]);
      cbn [waiting]; intros [?|?]; apply Hfree; [left|right|left|right]; by apply Hsub.
Qed.

Lemma run_keeps_payload p t es : forall r r',
  t <> "" -> thumbnailCache (ui r) !! p = Some t ->
  forallb (fun e => negb (isReset e)) es = true ->
  p ∉ inFlight r \/ Forall (agrees p t) es ->
  run es r = Some r' ->
  thumbnailCache (ui r') !! p = Some t /\
  exists new, invoked (ui r') = (new ++ invoked (ui r))%list /\ p ∉ new.
Proof.
  induction es as [|e es IH]; intros r r' Ht Hp Hes Hside; simpl.
  - intros [= <-]. split; [done|]. exists []. split; [done|apply not_elem_of_nil].
  - destruct (step e r) as [r1|] eqn:E; [|done]. simpl. intros Hrun.
    simpl in Hes. apply andb_prop in Hes as [He%negb_true_iff Hes].
    assert (Hagree : agrees p t e /\ (p ∉ inFlight r1 \/ Forall (agrees p t) es)).
    { destruct Hside as [Hfree|Hall].
      - destruct (step_not_in_flight p t e r r1 Ht Hp Hfree He E) as [? ?]. auto.
      - apply Forall_cons in Hall as [? ?]. auto. }
    destruct Hagree as [Hagree Hside'].
    destruct (step_keeps_payload p t e r r1 Ht Hp He Hagree E) as (Hp1 & new1 & Hinv1 & Hnew1).
    destruct (IH r1 r' Ht Hp1 Hes Hside' Hrun) as (Hp' & new2 & Hinv2 & Hnew2).
    split; [done|]. exists (new2 ++ new1)%list. split.
    + by rewrite Hinv2, Hinv1, app_assoc.
    + rewrite elem_of_app. by intros [?|?].
Qed.

(** C6, as stated, fails.  The first picture of a scan is at the backend for
    the queue when [getThumbnail] is called for it; the request is answered
    first, with a payload that is stored and returned.  Then the answer for
    the queue arrives and is stored in its place: the next request returns the
    second payload, and when the second payload is the empty string the next
    request invokes the backend again. *)
Lemma late_answer_replaces_payload_counterexample :
  delivered <$>
    run [MediaLoaded [mkMediaFile "a.jpg" "/card/a.jpg" 10 0 "jpg" true false];
         Request "/card/a.jpg";
         RequestAnswer "/card/a.jpg" (Resolved "data:image/jpeg;base64,AAAA");
         ThumbnailAnswer "/card/a.jpg" (Resolved "data:image/jpeg;base64,BBBB");
         Request "/card/a.jpg"] initialRuntime
    = Some [("/card/a.jpg", "data:image/jpeg;base64,BBBB");
            ("/card/a.jpg", "data:image/jpeg;base64,AAAA")] /\
  (fun r => (invoked (ui r), inFlight r)) <$>
    run [MediaLoaded [mkMediaFile "a.jpg" "/card/a.jpg" 10 0 "jpg" true false];
         Request "/card/a.jpg";
         RequestAnswer "/card/a.jpg" (Resolved "data:image/jpeg;base64,AAAA");
         ThumbnailAnswer "/card/a.jpg" (Resolved EmptyString);
         Request "/card/a.jpg"] initialRuntime
    = Some (["/card/a.jpg"; "/card/a.jpg"; "/card/a.jpg"], ["/card/a.jpg"]).
Proof. by vm_compute. Qed.

(** C6, amended.  A generation of the path [p] succeeds with the payload
    [t], not the empty string: the answer [e] to the queue's
    [generateSingleThumbnail] or to [getThumbnail].  Afterwards, whatever
    events [es] occur short of a new scan, and however they interleave: if no
    other generation of [p] was in flight when the answer arrived, or if every
    answer that arrives for [p] later is a failure or carries [t] itself, then
    [t] stays stored for [p], a [getThumbnail] request for [p] is answered at
    once with [t] and touches neither the page nor the backend, and the
    backend has not been invoked for [p] in between, by the queue or by a
    request. *)
Theorem stored_thumbnail_is_reused (r r1 r2 : runtime) (e : event) (es : list event)
    (p t : string) :
  e = ThumbnailAnswer p (Resolved t) \/ e = RequestAnswer p (Resolved t) ->
  t <> "" ->
  step e r = Some r1 ->
  forallb (fun e' => negb (isReset e')) es = true ->
  p ∉ inFlight r1 \/ Forall (agrees p t) es ->
  run es r1 = Some r2 ->
  thumbnailCache (ui r2) !! p = Some t /\
  step (Request p) r2 = Some (Runtime (ui r2) (waiting r2) ((p, t) :: delivered r2)) /\
  exists new, invoked (ui r2) = (new ++ invoked (ui r1))%list /\ p ∉ new.
Proof.
  intros He Ht Hstep Hes Hside Hrun.
  assert (Hp : thumbnailCache (ui r1) !! p = Some t).
  { destruct He as [-> | ->]; simpl in Hstep.
    - destruct (take (GenWait p) (waiting r)) as [w|]; [|done]. simpl in Hstep.
      injection Hstep as <-. simpl. apply lookup_insert_eq.
    - destruct (take (GetWait p) (waiting r)) as [w|]; [|done]. simpl in Hstep.
      injection Hstep as <-. simpl. apply lookup_insert_eq. }
  destruct (run_keeps_payload p t es r1 r2 Ht Hp Hes Hside Hrun) as (Hp2 & Hnew).
  split; [done|]. split; [|done].
  apply InterleavedFacts.cached_request_is_answered. by apply stored_payload_read.
Qed.

(** The first of two pictures has been generated for the queue; the timer
    fires, the second picture is requested and its generation fails. *)
Lemma stored_thumbnail_is_reused_witness :
  thumbnailCache
    (ui (default initialRuntime
       (run [TimerFired; Request "/card/b.jpg";
        ThumbnailAnswer "/card/b.jpg" (Rejected "corrupt")]
          (default initialRuntime
          (step (ThumbnailAnswer "/card/a.jpg" (Resolved "data:image/jpeg;base64,AAAA"))
             (initializeThumbnailGeneration
                (Runtime (setMediaFiles
                            [mkMediaFile "a.jpg" "/card/a.jpg" 10 0 "jpg" true false;
                             mkMediaFile "b.jpg" "/card/b.jpg" 10 0 "jpg" true false]
                            initialPage) [] [])))))))
    !! "/card/a.jpg" = Some "data:image/jpeg;base64,AAAA".
Proof.
  refine (proj1 (stored_thumbnail_is_reused
    (initializeThumbnailGeneration
       (Runtime (setMediaFiles
                   [mkMediaFile "a.jpg" "/card/a.jpg" 10 0 "jpg" true false;
                    mkMediaFile "b.jpg" "/card/b.jpg" 10 0 "jpg" true false]
                   initialPage) [] []))
    (default initialRuntime
          (step (ThumbnailAnswer "/card/a.jpg" (Resolved "data:image/jpeg;base64,AAAA"))
             (initializeThumbnailGeneration
                (Runtime (setMediaFiles
                            [mkMediaFile "a.jpg" "/card/a.jpg" 10 0 "jpg" true false;
                             mkMediaFile "b.jpg" "/card/b.jpg" 10 0 "jpg" true false]
                            initialPage) [] []))))
    (default initialRuntime
       (run [TimerFired; Request "/card/b.jpg";
        ThumbnailAnswer "/card/b.jpg" (Rejected "corrupt")]
          (default initialRuntime
          (step (ThumbnailAnswer "/card/a.jpg" (Resolved "data:image/jpeg;base64,AAAA"))
             (initializeThumbnailGeneration
                (Runtime (setMediaFiles
                            [mkMediaFile "a.jpg" "/card/a.jpg" 10 0 "jpg" true false;
                             mkMediaFile "b.jpg" "/card/b.jpg" 10 0 "jpg" true false]
                            initialPage) [] []))))))
    (ThumbnailAnswer "/card/a.jpg" (Resolved "data:image/jpeg;base64,AAAA"))
    [TimerFired; Request "/card/b.jpg";
        ThumbnailAnswer "/card/b.jpg" (Rejected "corrupt")]
    "/card/a.jpg" "data:image/jpeg;base64,AAAA" _ _ _ _ _ _)).
  - by left.
  - discriminate.
  - by vm_compute.
  - reflexivity.
  - left. vm_compute. intros H. inversion H.
  - by vm_compute.
Defined.

End ReuseFacts.
